(** * Entity canonicalisation, graph matching and fusion of the retrieval
      pipeline (app/legal_normalizer.py and app/nodes.py)

    The text functions are embedded over [string], characters being the
    code points below 128.  On such text [unicodedata.normalize("NFKC", _)]
    is the identity, the zero-width and curly-quote replacements find
    nothing to replace, [str.casefold] is [str.lower], and the classes
    [\s], [\w], [\d] of the [re] module are the ASCII ones listed below. *)

From Stdlib Require Import Ascii String List ZArith QArith_base Lia Bool DecimalString.
From stdpp Require Import gmap strings list.
Import ListNotations.
Local Open Scope string_scope.
Set Warnings "-clear-no-such-hyp".

(** ** Characters *)

Module Chr.

Definition code (c : ascii) : nat := nat_of_ascii c.

Definition between (lo hi : nat) (c : ascii) : bool :=
  (lo <=? code c)%nat && (code c <=? hi)%nat.

Definition is_upper (c : ascii) : bool := between 65 90 c.
Definition is_lower (c : ascii) : bool := between 97 122 c.
(** [[A-Za-z]] *)
Definition is_alpha (c : ascii) : bool := is_upper c || is_lower c.
(** [\d] *)
Definition is_digit (c : ascii) : bool := between 48 57 c.
(** [\w] *)
Definition is_word (c : ascii) : bool :=
  is_alpha c || is_digit c || (code c =? 95)%nat.
(** [\s], and the characters removed by [str.strip()]:
    tab, line feed, vertical tab, form feed, carriage return,
    the separators 28 to 31, and the space. *)
Definition is_space (c : ascii) : bool :=
  between 9 13 c || between 28 31 c || (code c =? 32)%nat.

Definition lower (c : ascii) : ascii :=
  if is_upper c then ascii_of_nat (code c + 32) else c.
Definition upper (c : ascii) : ascii :=
  if is_lower c then ascii_of_nat (code c - 32) else c.

(** One literal character. *)
Definition lit (a : ascii) (c : ascii) : bool := Ascii.eqb a c.
(** One literal character under [re.IGNORECASE]. *)
Definition lit_ci (a : ascii) (c : ascii) : bool := Ascii.eqb (lower a) (lower c).
(** Membership in a set of characters written as a string. *)
Fixpoint one_of (set : string) (c : ascii) : bool :=
  match set with
  | EmptyString => false
  | String a set' => Ascii.eqb a c || one_of set' c
  end.
Definition one_of_ci (set : string) (c : ascii) : bool := one_of set (lower c).

(** A code point below 128.  The text of the program is Unicode; on
    text of such characters the classes above are those of [re] and of
    [str], and an offset counts characters. *)
Definition is_ascii (c : ascii) : bool := (code c <? 128)%nat.

End Chr.

(** ** The string methods the program calls *)

Module Str.

Fixpoint map (f : ascii -> ascii) (s : string) : string :=
  match s with
  | EmptyString => EmptyString
  | String c t => String (f c) (map f t)
  end.

Fixpoint filter (p : ascii -> bool) (s : string) : string :=
  match s with
  | EmptyString => EmptyString
  | String c t => if p c then String c (filter p t) else filter p t
  end.

Fixpoint forallb (p : ascii -> bool) (s : string) : bool :=
  match s with
  | EmptyString => true
  | String c t => p c && forallb p t
  end.

Definition is_empty (s : string) : bool :=
  match s with EmptyString => true | _ => false end.

(** [str.lower], [str.casefold] and [str.upper]. *)
Definition lower : string -> string := map Chr.lower.
Definition casefold : string -> string := lower.
Definition upper : string -> string := map Chr.upper.

(** [str.lstrip(chars)], [str.rstrip(chars)], [str.strip(chars)]. *)
Fixpoint lstrip (p : ascii -> bool) (s : string) : string :=
  match s with
  | EmptyString => EmptyString
  | String c t => if p c then lstrip p t else s
  end.

Fixpoint rstrip (p : ascii -> bool) (s : string) : string :=
  match s with
  | EmptyString => EmptyString
  | String c t =>
      let t' := rstrip p t in
      if is_empty t' && p c then EmptyString else String c t'
  end.

Definition strip_chars (p : ascii -> bool) (s : string) : string :=
  rstrip p (lstrip p s).

(** [str.strip()] *)
Definition strip : string -> string := strip_chars Chr.is_space.

(** [sep.join(parts)] *)
Definition join (sep : string) (parts : list string) : string :=
  String.concat sep parts.

(** [s[:n]] for a non-negative [n]. *)
Fixpoint take (n : nat) (s : string) : string :=
  match n, s with
  | S n', String c t => String c (take n' t)
  | _, _ => EmptyString
  end.

Fixpoint last (s : string) : option ascii :=
  match s with
  | EmptyString => None
  | String c EmptyString => Some c
  | String _ t => last t
  end.

Definition head (s : string) : option ascii :=
  match s with EmptyString => None | String c _ => Some c end.

(** [s.endswith(" ")] *)
Definition ends_with_space (s : string) : bool :=
  match last s with Some c => Ascii.eqb c " " | None => false end.

(** [x in xs] for a list or set of strings. *)
Definition mem (x : string) (xs : list string) : bool :=
  existsb (String.eqb x) xs.

(** [str(n)] for a non-negative integer. *)
Definition of_nat (n : nat) : string :=
  NilZero.string_of_uint (Nat.to_uint n).

(** [s.isascii()] *)
Definition is_ascii (s : string) : bool := forallb Chr.is_ascii s.

End Str.

(** ** Regular expressions of the [re] module

    The patterns of the program use literals, classes, sequence,
    alternation, greedy and lazy repetition, capturing groups, one
    backreference, [\b], [$] and one-character negative look-around. *)

Module Re.

Inductive re : Type :=
  | Eps
  | Cls (p : ascii -> bool)
  | Seq (a b : re)
  | Alt (a b : re)
  | Star (a : re)
  | LazyStar (a : re)
  | Grp (i : nat) (a : re)
  | Bref (i : nat)
  | WordB
  | Eos
  | NotBehind (p : ascii -> bool)
  | NotAhead (p : ascii -> bool).

(** [a+], [a?], [a{2,}], and a literal string. *)
Definition Plus (a : re) : re := Seq a (Star a).
Definition Opt (a : re) : re := Alt a Eps.
Definition AtLeast2 (a : re) : re := Seq a (Seq a (Star a)).
Fixpoint Lit (s : string) : re :=
  match s with
  | EmptyString => Eps
  | String c t => Seq (Cls (Chr.lit c)) (Lit t)
  end.
Fixpoint LitCI (s : string) : re :=
  match s with
  | EmptyString => Eps
  | String c t => Seq (Cls (Chr.lit_ci c)) (LitCI t)
  end.

(** The matcher's position: the character before it, the text after
    it, and the groups captured so far (latest first). *)
Record mstate := MState {
  prev : option ascii;
  rest : string;
  caps : list (nat * string)
}.

Definition is_word_opt (o : option ascii) : bool :=
  match o with Some c => Chr.is_word c | None => false end.

Fixpoint cap (i : nat) (cs : list (nat * string)) : option string :=
  match cs with
  | [] => None
  | (j, g) :: cs' => if (i =? j)%nat then Some g else cap i cs'
  end.

(** The text consumed between two positions. *)
Definition taken (before after : string) : string :=
  Str.take (String.length before - String.length after) before.

(** Consume the literal [g]. *)
Fixpoint eat (g : string) (p : option ascii) (s : string) : option (option ascii * string) :=
  match g with
  | EmptyString => Some (p, s)
  | String c g' =>
      match s with
      | String d s' => if Ascii.eqb c d then eat g' (Some d) s' else None
      | EmptyString => None
      end
  end.

Definition shorter (s' s : mstate) : bool :=
  (String.length (rest s') <? String.length (rest s))%nat.

(** Backtracking matcher in continuation-passing style: alternatives
    are tried in the order of the [re] module (left branch first, a
    greedy repetition tries one more round first, a lazy one tries to
    stop first).  [n] bounds the number of nested rounds of a
    repetition; every round must consume text, so any [n] above the
    length of the remaining text is enough ([exec_fuel] below). *)
Fixpoint exec {R : Type} (n : nat) : re -> mstate -> (mstate -> option R) -> option R :=
  fix go (r : re) : mstate -> (mstate -> option R) -> option R :=
    match r with
    | Eps => fun s k => k s
    | Cls p => fun s k =>
        match rest s with
        | String c t => if p c then k (MState (Some c) t (caps s)) else None
        | EmptyString => None
        end
    | Seq a b => fun s k => go a s (fun s' => go b s' k)
    | Alt a b => fun s k =>
        match go a s k with
        | Some x => Some x
        | None => go b s k
        end
    | Star a => fun s k =>
        match n with
        | O => None
        | S n' =>
            match go a s (fun s' => if shorter s' s then exec n' (Star a) s' k else None) with
            | Some x => Some x
            | None => k s
            end
        end
    | LazyStar a => fun s k =>
        match n with
        | O => None
        | S n' =>
            match k s with
            | Some x => Some x
            | None => go a s (fun s' => if shorter s' s then exec n' (LazyStar a) s' k else None)
            end
        end
    | Grp i a => fun s k =>
        go a s (fun s' => k (MState (prev s') (rest s') ((i, taken (rest s) (rest s')) :: caps s')))
    | Bref i => fun s k =>
        match cap i (caps s) with
        | Some g =>
            match eat g (prev s) (rest s) with
            | Some (p, t) => k (MState p t (caps s))
            | None => None
            end
        | None => None
        end
    | WordB => fun s k =>
        if xorb (is_word_opt (prev s)) (is_word_opt (Str.head (rest s))) then k s else None
    | Eos => fun s k =>
        match rest s with
        | EmptyString => k s
        | String c EmptyString => if Ascii.eqb c "010" then k s else None
        | _ => None
        end
    | NotBehind p => fun s k =>
        match prev s with
        | Some c => if p c then None else k s
        | None => k s
        end
    | NotAhead p => fun s k =>
        match rest s with
        | String c _ => if p c then None else k s
        | EmptyString => k s
        end
    end.

(** A match: group 0 and the numbered groups. *)
Record rmatch := RMatch {
  m_text : string;
  m_caps : list (nat * string)
}.

Definition group (i : nat) (m : rmatch) : option string := cap i (m_caps m).

(** The match of [r] starting exactly at the position [(p, s)], if any. *)
Definition match_at (r : re) (p : option ascii) (s : string) : option rmatch :=
  exec (S (String.length s)) r (MState p s [])
    (fun e => Some (RMatch (taken s (rest e)) (caps e))).

(** [re.fullmatch(r, s)] as a truth value. *)
Definition fullmatch (r : re) (s : string) : bool :=
  match exec (S (String.length s)) r (MState None s [])
          (fun e => if Str.is_empty (rest e) then Some tt else None) with
  | Some _ => true
  | None => false
  end.

(** [re.finditer(r, text)]: the non-overlapping matches from left to
    right, each with its start; [skip] is the number of characters
    still covered by the last match.  No pattern of the program matches
    the empty string, and an empty match is not reported. *)
Fixpoint finditer_go (r : re) (p : option ascii) (s : string) (pos skip : nat)
  : list (nat * rmatch) :=
  match s with
  | EmptyString => []
  | String c t =>
      match skip with
      | S k => finditer_go r (Some c) t (S pos) k
      | O =>
          match match_at r p s with
          | Some m =>
              match String.length (m_text m) with
              | S k => (pos, m) :: finditer_go r (Some c) t (S pos) k
              | O => finditer_go r (Some c) t (S pos) 0
              end
          | None => finditer_go r (Some c) t (S pos) 0
          end
      end
  end.

Definition finditer (r : re) (text : string) : list (nat * rmatch) :=
  finditer_go r None text 0 0.

(** [re.sub(r, repl, text)] with a function [repl]. *)
Fixpoint sub_go (r : re) (repl : rmatch -> string) (p : option ascii) (s : string)
    (skip : nat) : string :=
  match s with
  | EmptyString => EmptyString
  | String c t =>
      match skip with
      | S k => sub_go r repl (Some c) t k
      | O =>
          match match_at r p s with
          | Some m =>
              match String.length (m_text m) with
              | S k => String.append (repl m) (sub_go r repl (Some c) t k)
              | O => String c (sub_go r repl (Some c) t 0)
              end
          | None => String c (sub_go r repl (Some c) t 0)
          end
      end
  end.

Definition sub (r : re) (repl : rmatch -> string) (text : string) : string :=
  sub_go r repl None text 0.

(** [re.split(r, text)] for a pattern without groups; [cur] is the
    piece being read, reversed. *)
Fixpoint split_go (r : re) (p : option ascii) (s : string) (skip : nat) (cur : string)
  : list string :=
  match s with
  | EmptyString => [String.rev cur]
  | String c t =>
      match skip with
      | S k => split_go r (Some c) t k cur
      | O =>
          match match_at r p s with
          | Some m =>
              match String.length (m_text m) with
              | S k => String.rev cur :: split_go r (Some c) t k EmptyString
              | O => split_go r (Some c) t 0 (String c cur)
              end
          | None => split_go r (Some c) t 0 (String c cur)
          end
      end
  end.

Definition split (r : re) (text : string) : list string :=
  split_go r None text 0 EmptyString.

End Re.

(** ** app/legal_normalizer.py

    Each pattern is quoted from the source above its definition; where
    the source has a star directly before a closing parenthesis, the
    quotation puts a space between the two. *)

Import Re.

(** [\s] and [\d] as one-character patterns. *)
Definition ws : re := Cls Chr.is_space.
Definition digit : re := Cls Chr.is_digit.
Definition alpha : re := Cls Chr.is_alpha.

(** A replacement that does not depend on the match. *)
Definition always (s : string) (_ : rmatch) : string := s.

(** The replacement [r"\1"]. *)
Definition group1 (m : rmatch) : string := default EmptyString (group 1 m).

Definition STOPWORDS : list string :=
  ["v"; "v."; "vs"; "vs."; "versus"; "petitioner"; "respondent"; "appellant";
   "judgment"; "order"; "the"].

Definition HONORIFICS : list string :=
  ["sri"; "smt"; "shri"; "dr"; "justice"; "hon'ble"; "honble"].

Definition ABBREV_MAP : list (string * string) :=
  [("sc", "supreme court"); ("hc", "high court")].

Definition ROMAN_MAP : list (string * nat) :=
  [("M", 1000); ("CM", 900); ("D", 500); ("CD", 400);
   ("C", 100); ("XC", 90); ("L", 50); ("XL", 40);
   ("X", 10); ("IX", 9); ("V", 5); ("IV", 4); ("I", 1)].

(** [d.get(key)] on a dictionary written as a list of pairs. *)
Fixpoint dict_get {V : Type} (d : list (string * V)) (key : string) : option V :=
  match d with
  | [] => None
  | (k, v) :: d' => if String.eqb k key then Some v else dict_get d' key
  end.

(** The characters handed to [str.strip] for a token: the full stop,
    comma, colon, semicolon, the three pairs of brackets and the double
    quote (character 34). *)
Definition token_punct (c : ascii) : bool :=
  Chr.one_of ".,:;()[]{}" c || Chr.lit "034" c.

(** [SECTION_PAT], compiled with [re.IGNORECASE]:
    r"\b(?:s\.?\s+|sec(?:tion)?\s+)([ivxlcdm]+|\d+)(?:-?([A-Za-z]\w* ))?\b" *)
Definition SECTION_PAT : re :=
  Seq WordB
   (Seq (Alt (Seq (LitCI "s") (Seq (Opt (Lit ".")) (Plus ws)))
             (Seq (LitCI "sec") (Seq (Opt (LitCI "tion")) (Plus ws))))
    (Seq (Grp 1 (Alt (Plus (Cls (Chr.one_of_ci "ivxlcdm"))) (Plus digit)))
     (Seq (Opt (Seq (Opt (Lit "-")) (Grp 2 (Seq alpha (Star (Cls Chr.is_word))))))
          WordB))).

(** r"\s+" *)
Definition ws_run : re := Plus ws.

(** [unicodedata.normalize("NFKC", _)]: the identity on text below 128. *)
Definition nfkc (text : string) : string := text.

(** On a text of characters below 128 ([Str.is_ascii]): there [NFKC]
    changes nothing, and the replacements of the zero-width characters
    and of the curly quotes, which are all above 127, find nothing to
    replace; they are not written out. *)
Definition normalize_unicode (text : string) : string :=
  if Str.is_empty text then EmptyString
  else
    let t := nfkc text in
    let t := sub ws_run (always " ") t in
    Str.strip t.

Definition strip_stopwords (text : string) : string :=
  if Str.is_empty text then EmptyString
  else
    let tokens := split ws_run text in
    let out :=
      List.filter
        (fun tok => negb (Str.mem (Str.strip_chars token_punct (Str.lower tok)) STOPWORDS))
        tokens in
    Str.strip (Str.join " " out).

(** r"\b(?:[A-Za-z]\.\s* ){2,}\s*" *)
Definition initials_run : re :=
  Seq WordB
    (Seq (AtLeast2 (Seq alpha (Seq (Lit ".") (Star ws)))) (Star ws)).

(** r"\b([A-Za-z])\." *)
Definition initial_dot : re := Seq WordB (Seq (Grp 1 alpha) (Lit ".")).

Definition collapse_initials (text : string) : string :=
  if Str.is_empty text then EmptyString
  else
    let repl (m : rmatch) : string :=
      let s := m_text m in
      let letters := Str.filter Chr.is_alpha s in
      let spacer := if Str.ends_with_space s then " " else EmptyString in
      String.append (Str.lower letters) spacer in
    let t := sub initials_run repl text in
    sub initial_dot group1 t.

(** r"\b(?:SC|HC)\b\.?" with [re.IGNORECASE] *)
Definition abbrev_pat : re :=
  Seq WordB (Seq (Alt (LitCI "SC") (LitCI "HC")) (Seq WordB (Opt (Lit ".")))).

Definition expand_abbreviations (text : string) : string :=
  let repl (m : rmatch) : string :=
    let key := Str.rstrip (Chr.lit ".") (Str.lower (m_text m)) in
    default (m_text m) (dict_get ABBREV_MAP key) in
  sub abbrev_pat repl text.

(** The loop of [roman_to_int] over the upper-cased numeral: a pair of
    symbols of [ROMAN_MAP] is consumed first, else one symbol (worth 0
    when it is not in the map). *)
Fixpoint roman_loop (s : string) (val : nat) : nat :=
  match s with
  | EmptyString => val
  | String a t =>
      match t with
      | String b t' =>
          match dict_get ROMAN_MAP (String a (String b EmptyString)) with
          | Some v => roman_loop t' (val + v)
          | None => roman_loop t (val + default 0 (dict_get ROMAN_MAP (String a EmptyString)))
          end
      | EmptyString => val + default 0 (dict_get ROMAN_MAP (String a EmptyString))
      end
  end.

Definition roman_to_int (roman : string) : nat := roman_loop (Str.upper roman) 0.

Definition normalize_sections (text : string) : string :=
  let repl (m : rmatch) : string :=
    let num := default EmptyString (group 1 m) in
    let tail := default EmptyString (group 2 m) in
    let num :=
      if fullmatch (Plus (Cls (Chr.one_of_ci "ivxlcdm"))) num
      then Str.of_nat (roman_to_int num) else num in
    String.append "section " (String.append num (Str.lower tail)) in
  sub SECTION_PAT repl text.

(** The table given to [str.maketrans]. *)
Definition trans (c : ascii) : ascii :=
  if Chr.one_of "BFPV" c then "1"%char
  else if Chr.one_of "CGJKQSXZ" c then "2"%char
  else if Chr.one_of "DT" c then "3"%char
  else if Chr.one_of "L" c then "4"%char
  else if Chr.one_of "MN" c then "5"%char
  else if Chr.one_of "R" c then "6"%char
  else c.

Definition phonetic_key (text : string) : string :=
  let t := Str.upper (sub (Cls (fun c => negb (Chr.is_alpha c))) (always EmptyString) text) in
  match t with
  | EmptyString => EmptyString
  | String first tail =>
      let digits := Str.map trans tail in
      let digits := sub (Cls (Chr.one_of "AEIOUYHW")) (always EmptyString) digits in
      (* r"(\d)\1+" replaced by r"\1" *)
      let digits := sub (Seq (Grp 1 digit) (Plus (Bref 1))) group1 digits in
      Str.take 4 (String first (String.append digits "000"))
  end.

(** r"(\b[A-Za-z][A-Za-z\s]*?)(?:\[\d+\]|(\d+))\b" *)
Definition footnote_pat : re :=
  Seq (Grp 1 (Seq WordB (Seq alpha (LazyStar (Cls (fun c => Chr.is_alpha c || Chr.is_space c))))))
    (Seq (Alt (Seq (Lit "[") (Seq (Plus digit) (Lit "]"))) (Grp 2 (Plus digit)))
         WordB).

(** r"\bJ\.\]?\s*$" *)
Definition judge_pat : re :=
  Seq WordB (Seq (Lit "J.") (Seq (Opt (Lit "]")) (Seq (Star ws) Eos))).

(** The class of dashes, one or more: of its members only the hyphen is
    below 128. *)
Definition dash_run : re := Plus (Cls (Chr.lit "-")).

Definition normalize_legal_entity (text : string) : string :=
  let t := normalize_unicode text in
  let t := sub footnote_pat group1 t in
  let t := sub judge_pat (always EmptyString) (Str.strip t) in
  let tokens := List.filter (fun tok => negb (Str.is_empty tok)) (split ws_run t) in
  let kept :=
    List.filter
      (fun tok => negb (Str.mem (Str.strip_chars token_punct (Str.lower tok)) HONORIFICS))
      tokens in
  let t := Str.join " " kept in
  let t := strip_stopwords t in
  let t := collapse_initials t in
  let t := expand_abbreviations t in
  let t := normalize_sections t in
  let t := sub dash_run (always " ") t in
  let t := Str.casefold (Str.strip (sub ws_run (always " ") t)) in
  let t := sub ws_run (always EmptyString) t in
  t.

(** ** app/nodes.py: canonical entity key helpers *)

(** A label that may be [None]. *)
Definition _normalize_label (label : option string) : string :=
  Str.upper (Str.strip (default EmptyString label)).

(** r"\b(vs?\.)\b" with [re.IGNORECASE] *)
Definition vs_pat : re :=
  Seq WordB (Seq (Grp 1 (Seq (LitCI "v") (Seq (Opt (LitCI "s")) (Lit ".")))) WordB).

(** r"\b(?:[A-Za-z]\.?\s* ){2,}\b" *)
Definition initials_pat : re :=
  Seq WordB (Seq (AtLeast2 (Seq alpha (Seq (Opt (Lit ".")) (Star ws)))) WordB).

(** The edge characters handed to [str.strip]: those of a token, the
    space and the apostrophe (the no-break space is above 127). *)
Definition edge_punct (c : ascii) : bool :=
  Chr.one_of " .,:;()[]{}'" c || Chr.lit "034" c.

(** On a text of characters below 128 ([Str.is_ascii]): the removal of
    the zero-width space and the folding of the curly quotes, all above
    127, find nothing there and are not written out. *)
Definition _normalize_text (text : option string) : string :=
  let s := nfkc (default EmptyString text) in
  let s := sub vs_pat (always " ") s in
  let _collapse_initials (m : rmatch) : string := Str.filter Chr.is_alpha (m_text m) in
  let s := sub initials_pat _collapse_initials s in
  let s := Str.strip (sub ws_run (always " ") s) in
  let s := Str.strip_chars edge_punct s in
  Str.casefold s.

Definition make_entity_key (label text : option string) : string :=
  String.append (_normalize_label label) (String.append "|" (_normalize_text text)).

(** ** app/nodes.py: domain keyword augmentation *)

(** An entity dictionary as the extractor writes it: [label], [text]
    and [source] hold a string when they are there.  A key that is
    missing is [None] here, and [e_augmented] is the key [_augmented]. *)
Record entity := Entity {
  e_label : option string;
  e_text : option string;
  e_start : option Z;
  e_end : option Z;
  e_score : option Q;
  e_source : option string;
  e_augmented : bool
}.

Definition KEYWORD_ENTITY_MAP : list (string * string) := [("court", "ORG")].

(** Truth value of an optional string: [None] and the empty string are false. *)
Definition truthy (o : option string) : bool :=
  match o with
  | Some s => negb (Str.is_empty s)
  | None => false
  end.

(** rf"(?i)(?<!\w){re.escape(kw)}(?!\w)" for a keyword of letters, on a
    text of characters below 128: there [\w] is [Chr.is_word], and the
    offsets of a match count characters. *)
Definition keyword_pat (kw : string) : re :=
  Seq (NotBehind Chr.is_word) (Seq (LitCI kw) (NotAhead Chr.is_word)).

(** The inner [for m in re.finditer(...)] loop: a match whose normal form
    is already present is passed over ([continue]); the first other one is
    appended and ends the loop ([break]). *)
Fixpoint keyword_loop (label : string) (ms : list (nat * rmatch))
    (existing_norm : gset string) (entities : list entity)
  : list entity * gset string :=
  match ms with
  | [] => (entities, existing_norm)
  | (start, m) :: ms' =>
      let span := m_text m in
      let norm := _normalize_text (Some span) in
      if bool_decide (norm ∈ existing_norm)
      then keyword_loop label ms' existing_norm entities
      else
        ((entities ++
            [Entity (Some label) (Some span) (Some (Z.of_nat start))
               (Some (Z.of_nat (start + String.length span)))
               (Some (Qmake 1 1)) None true])%list,
         {[norm]} ∪ existing_norm)
  end.

Fixpoint keywords_loop (kws : list (string * string)) (s : string)
    (existing_norm : gset string) (entities : list entity) : list entity :=
  match kws with
  | [] => entities
  | (kw, label) :: kws' =>
      let '(entities, existing_norm) :=
        keyword_loop label (finditer (keyword_pat kw) s) existing_norm entities in
      keywords_loop kws' s existing_norm entities
  end.

Definition _augment_entities_with_keywords (text : option string)
    (entities : option (list entity)) : list entity :=
  let entities := default [] entities in
  let existing_norm : gset string :=
    list_to_set
      (List.map (fun e => _normalize_text (e_text e))
         (List.filter (fun e => truthy (e_text e)) entities)) in
  let s := default EmptyString text in
  keywords_loop KEYWORD_ENTITY_MAP s existing_norm entities.

(** *** The two callers *)

(** One line of the extractor's output: the chunk text, the chunk's
    identifiers and the entities found in it. *)
Record ner_item := NerItem {
  i_text : option string;
  i_doc_id : string;
  i_chunk_id : string;
  i_entities : option (list entity)
}.

(** A row prepared by [neo4j_ingest_node] for one entity of one chunk. *)
Record ingest_row := IngestRow {
  r_chunk_uid : string;
  r_label : string;
  r_entity_text : string;
  r_entity_norm_text : string;
  r_entity_key : string;
  r_entity_norm_key : string;
  r_score : option Q;
  r_source : option string
}.

(** The rows of one item in [neo4j_ingest_node]: the entities are
    augmented with the chunk text first; an entity whose stripped text is
    empty gives no row. *)
Definition ingest_rows_of (obj : ner_item) : list ingest_row :=
  let ents := _augment_entities_with_keywords (Some (default EmptyString (i_text obj)))
                (Some (default [] (i_entities obj))) in
  let chunk_uid := String.append (i_doc_id obj) (String.append ":" (i_chunk_id obj)) in
  List.concat
    (List.map
       (fun e =>
          let label := default EmptyString (e_label e) in
          let entity_text := Str.strip (default EmptyString (e_text e)) in
          if Str.is_empty entity_text then []
          else
            let entity_key := make_entity_key (Some label) (Some entity_text) in
            let norm_text := normalize_legal_entity entity_text in
            let norm_key := make_entity_key (Some label) (Some norm_text) in
            [IngestRow chunk_uid label entity_text norm_text entity_key norm_key
               (e_score e) (if truthy (e_source e) then e_source e else None)])
       ents).

(** A query entity as [ner_query_external_node] stores it in the state. *)
Record qent := QEnt {
  q_label : option string;
  q_text : option string;
  q_key : string;
  q_source : option string
}.

(** The part of [ner_query_external_node] after the extractor has run:
    the entities of the query are augmented with the query text, then
    keyed; the second component is [query_has_ruler]. *)
Definition ner_query_entities (query : string) (ents : option (list entity))
  : list qent * bool :=
  let ents := _augment_entities_with_keywords (Some query) (Some (default [] ents)) in
  let kept :=
    List.filter (fun e => negb (Str.is_empty (Str.strip (default EmptyString (e_text e))))) ents in
  (List.map
     (fun e =>
        let text := Str.strip (default EmptyString (e_text e)) in
        let label := if truthy (e_label e) then default EmptyString (e_label e) else EmptyString in
        QEnt (Some label) (Some text) (make_entity_key (Some label) (Some text)) (e_source e))
     kept,
   existsb (fun e => bool_decide (e_source e = Some "ruler")) kept).

(** ** The graph store

    The store holds what [neo4j_ingest_node] merges into it: [Entity]
    nodes with their [key] and [norm_key], [MENTIONS] relationships from
    chunks to entities, [Alias] names and [PhoneticAlias] codes of
    entities.  The two read queries are read as follows: [UNWIND] is an
    iteration, [MATCH] a join on equal properties, [RETURN ... count( * )]
    one row per distinct group with the size of the group, [UNION] the
    rows of the parts without repetition.  Rows are listed in order of
    first appearance. *)

Record graph := Graph {
  g_entities : list (string * option string);
  g_mentions : list (string * string);
  g_aliases : list (string * string);
  g_phonetics : list (string * string)
}.

(** A result row: [ekey], [id], [reason], [cnt]. *)
Definition row : Type := string * string * string * nat.

Definition row_ekey (r : row) : string := r.1.1.1.
Definition row_id (r : row) : string := r.1.1.2.
Definition row_reason (r : row) : string := r.1.2.

(** The elements of a list without repetition, each at its first place. *)
Fixpoint keep_first {A : Type} `{EqDecision A} (l : list A) : list A :=
  match l with
  | [] => []
  | x :: l' => x :: filter (fun y => y ≠ x) (keep_first l')
  end.

(** [RETURN e.key, c.id, reason, count( * )] over the matched pairs. *)
Definition returned (reason : string) (pairs : list (string * string)) : list row :=
  List.map (fun p => (p.1, p.2, reason, count_occ (decide_rel (=)) pairs p))
    (keep_first pairs).

(** [MATCH (c:Chunk)-[:MENTIONS]->(e)] for the entity with key [ekey]. *)
Definition chunks_of (g : graph) (ekey : string) : list (string * string) :=
  List.map (fun m => (ekey, m.1))
    (List.filter (fun m => String.eqb m.2 ekey) (g_mentions g)).

Definition flat_map_list {A B : Type} (f : A -> list B) (l : list A) : list B :=
  List.concat (List.map f l).

(** [split(s, sep)] of the query language. *)
Fixpoint split_on (sep : ascii) (s : string) (cur : string) : list string :=
  match s with
  | EmptyString => [String.rev cur]
  | String c t =>
      if Ascii.eqb c sep then String.rev cur :: split_on sep t EmptyString
      else split_on sep t (String c cur)
  end.

(** [split(key,'|')[1]]; out of range is null. *)
Definition key_text (key : string) : option string :=
  nth_error (split_on "|" key EmptyString) 1.

Definition by_key (g : graph) (keys : list string) : list (string * string) :=
  flat_map_list (fun key =>
    flat_map_list (fun e => if String.eqb e.1 key then chunks_of g e.1 else [])
      (g_entities g)) keys.

Definition by_norm_key (g : graph) (norm_keys : list string) : list (string * string) :=
  flat_map_list (fun nkey =>
    flat_map_list (fun e => if bool_decide (e.2 = Some nkey) then chunks_of g e.1 else [])
      (g_entities g)) norm_keys.

Definition by_alias (g : graph) (names : list (option string)) : list (string * string) :=
  flat_map_list (fun name =>
    flat_map_list (fun al => if bool_decide (Some al.1 = name) then chunks_of g al.2 else [])
      (g_aliases g)) names.

Definition by_phonetic (g : graph) (codes : list string) : list (string * string) :=
  flat_map_list (fun ph =>
    flat_map_list (fun pl => if String.eqb pl.1 ph then chunks_of g pl.2 else [])
      (g_phonetics g)) codes.

Definition by_text (g : graph) (norms : list string) : list (string * string) :=
  flat_map_list (fun norm_text =>
    flat_map_list (fun e =>
      if bool_decide (key_text e.1 = Some norm_text)
         || bool_decide (e.2 ≫= key_text = Some norm_text)
      then chunks_of g e.1 else [])
      (g_entities g)) norms.

(** The query of [query_tx_strict].  The parameter [limit] is handed to
    the query, whose text reads [$keys], [$norm_keys] and [$phonetics]
    only. *)
Definition query_tx_strict (g : graph) (keys norm_keys phonetics : list string)
    (limit : Z) : list row :=
  keep_first
    (returned "direct" (by_key g keys)
     ++ returned "norm_key" (by_norm_key g norm_keys)
     ++ returned "alias" (by_alias g (List.map key_text keys))
     ++ returned "phonetic"
          (flat_map_list (fun _ => by_phonetic g phonetics) keys))%list.

(** The query of [query_tx_text_only]; it reads [$norms] and [$phonetics]. *)
Definition query_tx_text_only (g : graph) (norms phonetics : list string)
    (limit : Z) : list row :=
  keep_first
    (returned "text_norm" (by_text g norms)
     ++ returned "alias" (by_alias g (List.map Some norms))
     ++ returned "phonetic" (by_phonetic g phonetics))%list.

(** The store as the node finds it under [neo4j_uri], with the [neo4j]
    package installed: the driver rejects the URI
    ([GraphDatabase.driver] raises, with the given message), or it
    takes the URI and the store is unreachable (every session raises,
    with the given message) or reachable. *)
Inductive store :=
| Rejected (msg : string)
| Unreachable (msg : string)
| Reachable (g : graph).

(** ** Reads, exceptions and the record of executed queries *)

Inductive query := QStrict | QTextOnly.

(** One attempted read: the query, and its rows unless it raised. *)
Definition event : Type := query * option (list row).

(** A computation that returns a value or raises an exception (carrying
    its message), and appends the reads it attempts to the record. *)
Definition io (A : Type) : Type := list event -> (A + string) * list event.

#[global] Instance io_ret : MRet io := fun A a lg => (inl a, lg).

#[global] Instance io_bind : MBind io := fun A B f m lg =>
  match m lg with
  | (inl a, lg') => f a lg'
  | (inr e, lg') => (inr e, lg')
  end.

(** [try: body except Exception as e: handler(str(e))] *)
Definition try_except {A : Type} (body : io A) (handler : string -> io A) : io A :=
  fun lg =>
    match body lg with
    | (inl a, lg') => (inl a, lg')
    | (inr e, lg') => handler e lg'
    end.

(** [GraphDatabase.driver(uri, auth=(user, password))] *)
Definition open_driver (db : store) : io unit :=
  fun lg =>
    match db with
    | Rejected msg => (inr msg, lg)
    | _ => (inl tt, lg)
    end.

(** [run_session(tx_func)]: a read transaction on the store. *)
Definition run_session (db : store) (q : query) (tx_func : graph -> list row)
  : io (list row) :=
  fun lg =>
    match db with
    | Rejected msg | Unreachable msg => (inr msg, lg ++ [(q, None)])%list
    | Reachable g => let rows := tx_func g in (inl rows, lg ++ [(q, Some rows)])%list
    end.

(** Run a computation from the empty record. *)
Definition run {A : Type} (m : io A) : (A + string) * list event := m [].

(** ** app/nodes.py: the retrieval nodes *)

(** The keys of the pipeline state that the graph matcher and the merge
    read.  [strict_match] is [None] when the key is missing, [embed_ids]
    is [(embed_results.get("ids") or [[]])[0]], and [kg_limit], [top_k]
    are the values after [int]. *)
Record state := State {
  query_entities : list qent;
  query_has_ruler : bool;
  strict_match : option bool;
  neo4j_password : option string;
  kg_limit : Z;
  top_k : Z;
  embed_ids : list string;
  chroma_ids : list string;
  chroma_available : bool
}.

(** The keys written by [neo4j_query_by_entities_node]; [None] is a key
    that the taken return statement does not write.  [kg_matched_keys]
    and the values of [kg_match_reasons] are the sets that the node lists
    in sorted order. *)
Record kg_result := KgResult {
  kg_ids : list string;
  kg_available : bool;
  kg_error : option string;
  kg_matched_keys : option (gset string);
  kg_requested_keys : option (list string);
  kg_match_reasons : option (gmap string (gset string));
  kg_ruler_hit_ids : option (list string)
}.

(** The loop that appends to [ordered] the ids not yet in [seen]. *)
Fixpoint add_unseen (ids : list string) (ordered : list string) (seen : gset string)
  : list string * gset string :=
  match ids with
  | [] => (ordered, seen)
  | x :: ids' =>
      if bool_decide (x ∈ seen) then add_unseen ids' ordered seen
      else add_unseen ids' (ordered ++ [x])%list ({[x]} ∪ seen)
  end.

(** [d.setdefault(k, set()).add(v)] *)
Definition add_to_set (d : gmap string (gset string)) (k v : string)
  : gmap string (gset string) :=
  <[k := {[v]} ∪ default ∅ (d !! k)]> d.

(** [d.setdefault(k, []).append(v)] *)
Definition append_to_list (d : gmap string (list string)) (k v : string)
  : gmap string (list string) :=
  <[k := (default [] (d !! k) ++ [v])%list]> d.

(** The entities the matcher keeps: those with a non-empty text. *)
Definition usable (raw_ents : list qent) : list qent :=
  List.filter (fun e => truthy (q_text e)) raw_ents.

Definition text_of (e : qent) : string := default EmptyString (q_text e).

Definition request_keys (raw_ents : list qent) : list string :=
  List.map (fun e => make_entity_key (q_label e) (q_text e)) (usable raw_ents).

Definition request_norm_aliases (raw_ents : list qent) : list string :=
  flat_map_list (fun e =>
    let nt := normalize_legal_entity (text_of e) in
    if Str.is_empty nt then [] else [nt]) (usable raw_ents).

Definition request_norm_keys (raw_ents : list qent) : list string :=
  flat_map_list (fun e =>
    let nt := normalize_legal_entity (text_of e) in
    if Str.is_empty nt then []
    else match q_label e with
         | Some label => [make_entity_key (Some label) (Some nt)]
         | None => []
         end) (usable raw_ents).

Definition request_phonetics (raw_ents : list qent) : list string :=
  flat_map_list (fun e =>
    let nt := normalize_legal_entity (text_of e) in
    if Str.is_empty nt then []
    else let ph := phonetic_key nt in
         if Str.is_empty ph then [] else [ph]) (usable raw_ents).

Definition is_nil {A : Type} (l : list A) : bool :=
  match l with [] => true | _ => false end.

Definition fuzzy_reason (reasons : gset string) : bool :=
  bool_decide ("alias" ∈ reasons) || bool_decide ("phonetic" ∈ reasons).

(** What the node computes from the rows. *)
Definition kg_from_rows (st : state) (keys : list string) (rows : list row) : kg_result :=
  let matched_keys_set : gset string := list_to_set (List.map row_ekey rows) in
  let ids := List.map row_id rows in
  let reasons_map :=
    fold_left (fun d r => add_to_set d (row_id r) (row_reason r)) rows ∅ in
  let ruler_query := query_has_ruler st in
  let ordered_ids := (add_unseen ids [] ∅).1 in
  let ruler_hit_ids :=
    if ruler_query
    then List.filter (fun cid => fuzzy_reason (default ∅ (reasons_map !! cid))) ordered_ids
    else [] in
  KgResult ordered_ids true None (Some matched_keys_set) (Some keys)
    (Some reasons_map) (Some ruler_hit_ids).

Definition neo4j_query_by_entities_node (st : state) (db : store) : io kg_result :=
  let raw_ents := query_entities st in
  let keys := request_keys raw_ents in
  let norm_aliases := request_norm_aliases raw_ents in
  let norm_keys := request_norm_keys raw_ents in
  let phonetics := request_phonetics raw_ents in
  if is_nil keys then
    mret (KgResult [] true None (Some ∅) (Some []) None None)
  else
    let strict := default true (strict_match st) in
    let password := neo4j_password st in
    let limit := kg_limit st in
    if negb (truthy password) then
      mret (KgResult [] false (Some "neo4j_password not provided") None None None None)
    else
      _ ← open_driver db;
      try_except
        (rows ← run_session db QStrict
                  (fun g => query_tx_strict g keys norm_keys phonetics limit);
         rows ← (if is_nil rows && negb strict
                 then run_session db QTextOnly
                        (fun g => query_tx_text_only g norm_aliases phonetics limit)
                 else mret rows);
         mret (kg_from_rows st keys rows))
        (fun e => mret (KgResult [] false (Some e) (Some ∅) (Some keys) None None)).

(** [l[:k]]: a negative [k] counts from the end. *)
Definition slice_to {A : Type} (l : list A) (k : Z) : list A :=
  if (0 <=? k)%Z then firstn (Z.to_nat k) l
  else firstn (length l - Z.to_nat (- k)) l.

Record source_counts := SourceCounts {
  sc_chroma : nat;
  sc_kg : nat;
  sc_both : nat;
  sc_selected : nat;
  sc_chroma_available : bool;
  sc_kg_available : bool
}.

(** The keys written by [merge_ids_node]; the values of [provenance]
    are the sets that the node lists in sorted order. *)
Record merge_result := MergeResult {
  final_ids : list string;
  provenance : gmap string (gset string);
  provenance_extra : gmap string (list string);
  counts : source_counts
}.

Definition merge_ids_node (st : state) (kg : kg_result) : merge_result :=
  let emb_ids := embed_ids st in
  let kg_ids := kg_ids kg in
  let '(ordered, seen) := add_unseen kg_ids [] ∅ in
  let '(ordered, seen) := add_unseen emb_ids ordered seen in
  let final_ids := slice_to ordered (top_k st) in
  let chroma_ids := if is_nil (chroma_ids st) then emb_ids else chroma_ids st in
  let prov := fold_left (fun d cid => add_to_set d cid "chroma") chroma_ids ∅ in
  let prov := fold_left (fun d kid => add_to_set d kid "kg") kg_ids prov in
  let prov_extra :=
    fold_left (fun d cid => append_to_list d cid "EntityRuler regex hit")
      (default [] (kg_ruler_hit_ids kg)) ∅ in
  let both := List.filter (fun i => bool_decide (i ∈ (list_to_set kg_ids : gset string))) chroma_ids in
  MergeResult final_ids prov prov_extra
    (SourceCounts (length chroma_ids) (length kg_ids) (length both) (length final_ids)
       (chroma_available st) (kg_available kg)).

(** The nodes [kg_query] and [merge] of the retrieve graph, in sequence;
    [None] when the graph matcher raised. *)
Definition kg_then_merge (st : state) (db : store) : option (kg_result * merge_result) :=
  match (run (neo4j_query_by_entities_node st db)).1 with
  | inl kg => Some (kg, merge_ids_node st kg)
  | inr _ => None
  end.

Local Open Scope list_scope.

(** The state with another [top_k]. *)
Definition with_top_k (k : Z) (st : state) : state :=
  State (query_entities st) (query_has_ruler st) (strict_match st) (neo4j_password st)
    (kg_limit st) k (embed_ids st) (chroma_ids st) (chroma_available st).

(** The state with another [kg_limit]. *)
Definition with_kg_limit (k : Z) (st : state) : state :=
  State (query_entities st) (query_has_ruler st) (strict_match st) (neo4j_password st)
    k (top_k st) (embed_ids st) (chroma_ids st) (chroma_available st).

(** The ids that the merge counts as coming from the vector store. *)
Definition vector_ids (st : state) : list string :=
  if is_nil (chroma_ids st) then embed_ids st else chroma_ids st.

(** The order of the merge before truncation: the graph ids, then the
    vector ids that are not graph ids, nothing twice. *)
Definition kg_first (kg_ids emb_ids : list string) : list string :=
  keep_first kg_ids ++ filter (fun x => x ∉ kg_ids) (keep_first emb_ids).

(** The inputs of the fusion example: the graph gives [c3; c1], the
    vector store [c1; c2; c4]. *)
Definition fusion_state (k : Z) : state :=
  State [] false None None 25 k ["c1"; "c2"; "c4"] ["c1"; "c2"; "c4"] true.

Definition fusion_kg : kg_result :=
  KgResult ["c3"; "c1"] true None (Some ∅) (Some []) (Some ∅) (Some []).

(** The one-element set of [tag] when [P] holds, else the empty set. *)
Definition tag_if (P : Prop) `{Decision P} (tag : string) : gset string :=
  if decide P then {[tag]} else ∅.

(** A read of [q] was attempted. *)
Definition executed (q : query) (lg : list event) : Prop :=
  exists res, (q, res) ∈ lg.

(** A read of [q] returned [rows]. *)
Definition returned_rows (q : query) (rows : list row) (lg : list event) : Prop :=
  (q, Some rows) ∈ lg.

(** A small store: two entities, each mentioned by one chunk, the first
    one also known under the alias [rao]. *)
Definition two_entities : graph :=
  Graph [("PERSON|arao", Some "PERSON|arao"); ("ORG|acme", Some "ORG|acme")]
        [("doc:1", "PERSON|arao"); ("doc:2", "ORG|acme")]
        [("rao", "PERSON|arao")]
        [].

(** A query state with the given entities, [kg_limit] and
    [query_has_ruler]; the password is present. *)
Definition query_state (ents : list qent) (limit : Z) (ruler : bool) : state :=
  State ents ruler (Some true) (Some "secret") limit 10 [] [] true.

Definition ent (label text : string) : qent :=
  QEnt (Some label) (Some text) (make_entity_key (Some label) (Some text)) None.

(** What the graph matcher returns ([None] when it raises), and the
    reads it attempts. *)
Definition matcher_result (st : state) (db : store) : option kg_result :=
  match (run (neo4j_query_by_entities_node st db)).1 with
  | inl kg => Some kg
  | inr _ => None
  end.

Definition matcher_reads (st : state) (db : store) : list event :=
  (run (neo4j_query_by_entities_node st db)).2.

(** A state without query entities and without a password. *)
Definition no_entities_state : state :=
  State [] false (Some true) None 25 10 ["c1"; "c2"] ["c1"; "c2"] true.

(** The tag written to [provenance_extra]. *)
Definition ruler_tag : string := "EntityRuler regex hit".

(** The row that the store [two_entities] returns for the query entity
    (ORG, Rao): a match through the alias [rao]. *)
Definition alias_rows : list row := [("PERSON|arao", "doc:1", "alias", 1)].

(** ** Patterns that cannot match a given text *)

Definition all_ascii : list ascii := List.map ascii_of_nat (seq 0 256).

(** Every character of the class [p] is in the class [P]. *)
Definition class_subset (p P : ascii -> bool) : bool :=
  forallb (fun c => implb (p c) (P c)) all_ascii.

(** A sufficient test for "every match of [r] consumes a character of
    the class [P]". *)
Fixpoint needs (P : ascii -> bool) (r : re) : bool :=
  match r with
  | Cls p => class_subset p P
  | Seq a b => needs P a || needs P b
  | Alt a b => needs P a && needs P b
  | Grp _ a => needs P a
  | _ => false
  end.

(** No character of [s] is in the class [P]. *)
Definition avoids (P : ascii -> bool) (s : string) : bool :=
  Str.forallb (fun c => negb (P c)) s.

Definition not_lower (c : ascii) : bool := negb (Chr.is_lower c).

(** The tokens that the normalizer removes or rewrites when they stand
    alone: honorifics, stopwords and abbreviations. *)
Definition reserved_words : list string :=
  HONORIFICS ++ STOPWORDS ++ List.map fst ABBREV_MAP.

(** ** Standalone keywords *)

(** [w] is the keyword [kw] up to case and stands in [text] at offset
    [i] with no word character directly before or after it. *)
Definition standalone_at (kw text : string) (i : nat) (w : string) : Prop :=
  exists pre post,
    text = String.append pre (String.append w post)
    /\ String.length pre = i
    /\ Str.lower w = Str.lower kw
    /\ is_word_opt (Str.last pre) = false
    /\ is_word_opt (Str.head post) = false.

(** The first such occurrence. *)
Definition first_standalone (kw text : string) (i : nat) (w : string) : Prop :=
  standalone_at kw text i w
  /\ forall j w', standalone_at kw text j w' -> i <= j.

(** Some extracted entity with a text has the normal form [norm]. *)
Definition known_norm (norm : string) (ents : list entity) : Prop :=
  exists e, e ∈ ents /\ truthy (e_text e) = true /\ _normalize_text (e_text e) = norm.

(** The entity added for the keyword, found as [w] at offset [i]. *)
Definition keyword_entity (label : string) (i : nat) (w : string) : entity :=
  Entity (Some label) (Some w) (Some (Z.of_nat i))
    (Some (Z.of_nat (i + String.length w))) (Some (Qmake 1 1)) None true.

(** Consume [kw] up to case. *)
Fixpoint eat_ci (kw : string) (p : option ascii) (s : string)
  : option (option ascii * string) :=
  match kw with
  | EmptyString => Some (p, s)
  | String a kw' =>
      match s with
      | String c s' => if Chr.lit_ci a c then eat_ci kw' (Some c) s' else None
      | EmptyString => None
      end
  end.

(** The spellings of [kw] that differ in case only. *)
Fixpoint variants (kw : string) : list string :=
  match kw with
  | EmptyString => [EmptyString]
  | String a kw' =>
      flat_map_list (fun v => [String a v; String (Chr.upper a) v]) (variants kw')
  end.

(** ** More about patterns *)

(** A sufficient test for "every match of [r] consumes a character". *)
Fixpoint consumes (r : re) : bool :=
  match r with
  | Cls _ => true
  | Seq a b => consumes a || consumes b
  | Alt a b => consumes a && consumes b
  | Grp _ a => consumes a
  | _ => false
  end.

(** The text at the position and every captured group consist of
    characters of the class [q]. *)
Definition within (q : ascii -> bool) (s : mstate) : Prop :=
  Str.forallb q (rest s) = true
  /\ Forall (fun c => Str.forallb q c.2 = true) (caps s).

(** ** Roman numerals

    The usual way of writing a number from 1 to 3999, digit by digit,
    against which [roman_to_int] is checked. *)
Definition to_roman (n : nat) : string :=
  String.append (nth (n / 1000) [""; "M"; "MM"; "MMM"] "")
   (String.append
      (nth (n / 100 mod 10) [""; "C"; "CC"; "CCC"; "CD"; "D"; "DC"; "DCC"; "DCCC"; "CM"] "")
      (String.append
         (nth (n / 10 mod 10) [""; "X"; "XX"; "XXX"; "XL"; "L"; "LX"; "LXX"; "LXXX"; "XC"] "")
         (nth (n mod 10) [""; "I"; "II"; "III"; "IV"; "V"; "VI"; "VII"; "VIII"; "IX"] ""))).

(** [roman_to_int] gives [n] back for the numeral of [n], in upper and
    in lower case. *)
Definition roman_round_trip (n : nat) : bool :=
  (roman_to_int (to_roman n) =? n)%nat
  && (roman_to_int (Str.lower (to_roman n)) =? n)%nat.

(** ** Letter case and patterns *)

(** A class that holds a letter exactly when it holds its lower-case
    form. *)
Definition caseless (p : ascii -> bool) : bool :=
  forallb (fun c => Bool.eqb (p (Chr.lower c)) (p c)) all_ascii.

(** A pattern whose classes are caseless; the end-of-text test and the
    word boundary are, a backreference is not. *)
Fixpoint caseless_re (r : re) : bool :=
  match r with
  | Eps | WordB | Eos => true
  | Cls p | NotBehind p | NotAhead p => caseless p
  | Seq a b | Alt a b => caseless_re a && caseless_re b
  | Star a | LazyStar a | Grp _ a => caseless_re a
  | Bref _ => false
  end.

(** A position and a match, put in lower case. *)
Definition lower_state (s : mstate) : mstate :=
  MState (option_map Chr.lower (prev s)) (Str.lower (rest s))
    (List.map (fun c => (c.1, Str.lower c.2)) (caps s)).

Definition lower_match (m : rmatch) : rmatch :=
  RMatch (Str.lower (m_text m)) (List.map (fun c => (c.1, Str.lower c.2)) (m_caps m)).

(** The rows that [neo4j_query_by_entities_node] works with on a
    reachable store: those of the strict query, or those of the relaxed
    query when the strict one is empty and [strict_match] is false. *)
Definition matcher_rows (st : state) (g : graph) : list row :=
  let ents := query_entities st in
  let rows := query_tx_strict g (request_keys ents) (request_norm_keys ents)
                (request_phonetics ents) (kg_limit st) in
  if is_nil rows && negb (default true (strict_match st))
  then query_tx_text_only g (request_norm_aliases ents) (request_phonetics ents) (kg_limit st)
  else rows.

(** ** app/nodes.py: identifiers of a chunk

    The metadata of a line, as far as the identifiers read them: the
    values of [doc_id] and [chunk_id] after [str], [None] for a key that
    is missing. *)
Record metadata := Metadata {
  md_doc_id : option string;
  md_chunk_id : option string
}.

(** [gen_id] of [chroma_upsert_node]: the id under which a chunk is
    stored in the vector store. *)
Definition gen_id (meta : metadata) : string :=
  let doc := default "doc" (md_doc_id meta) in
  let cid := default "0" (md_chunk_id meta) in
  String.append doc (String.append ":" cid).

(** [chunk_uid] of [neo4j_ingest_node]: the id of the chunk in the graph
    store. *)
Definition chunk_uid (meta : metadata) : string :=
  let doc_id := default "unknown" (md_doc_id meta) in
  let chunk_id := default "0" (md_chunk_id meta) in
  String.append doc_id (String.append ":" chunk_id).

(** A line of the extractor's output with the ingestion's defaults for
    the identifiers filled in. *)
Definition ner_item_of (text : option string) (meta : metadata)
    (entities : option (list entity)) : ner_item :=
  NerItem text (default "unknown" (md_doc_id meta)) (default "0" (md_chunk_id meta))
    entities.

(** ** Batches

    [range(0, n, step)] and the loop
    [for i in range(0, len(items), batch_size): batch = items[i:i+batch_size]];
    [None] stands for the [ValueError] that [range] raises for a step
    of zero, and a negative step gives no round. *)
Definition range_from_zero (n : nat) (step : Z) : option (list nat) :=
  if (step =? 0)%Z then None
  else if (step <? 0)%Z then Some []
  else
    let s := Z.to_nat step in
    Some (List.map (fun j => j * s) (seq 0 ((n + s - 1) / s))).

Definition batches {A : Type} (items : list A) (batch_size : Z) : option (list (list A)) :=
  option_map
    (List.map (fun i => firstn (Z.to_nat batch_size) (skipn i items)))
    (range_from_zero (length items) batch_size).

(** The counter [total += len(batch)] after the loop. *)
Definition batch_total {A : Type} (bs : list (list A)) : nat :=
  fold_left (fun total batch => total + length batch) bs 0.

(** The ids and the texts that one call of [coll.upsert] gets for a
    batch; the embeddings and the metadata that go with them are left
    out.  An item is its text, [None] when the key is missing, and its
    metadata. *)
Definition upsert_call (batch : list (option string * metadata)) : list (string * string) :=
  List.map (fun x => (gen_id x.2, default "" x.1)) batch.

(** The loop of [chroma_upsert_node].  [accepts] tells whether the
    vector store takes the call for a batch; when it does not,
    [coll.upsert] raises, which ends the node.  The result is the calls
    that were made and taken, and the counter [total], [None] when the
    node raised. *)
Fixpoint upsert_loop (accepts : list (option string * metadata) -> bool)
    (bs : list (list (option string * metadata)))
    (calls : list (list (string * string))) (total : nat)
  : list (list (string * string)) * option nat :=
  match bs with
  | [] => (calls, Some total)
  | batch :: bs' =>
      if accepts batch
      then upsert_loop accepts bs' (calls ++ [upsert_call batch]) (total + length batch)
      else (calls, None)
  end.

(** [chroma_upsert_node]: the calls of [coll.upsert] that the store
    took, one per batch, and the number reported as [upserted], [None]
    when [range] or [coll.upsert] raises. *)
Definition chroma_upsert_node (accepts : list (option string * metadata) -> bool)
    (items : list (option string * metadata)) (batch_size : Z)
  : list (list (string * string)) * option nat :=
  match batches items batch_size with
  | None => ([], None)
  | Some bs => upsert_loop accepts bs [] 0
  end.

(** A rule of the vector store: the ids of one call are distinct.  (It
    has others: it refuses an item whose metadata is empty.) *)
Definition distinct_ids (batch : list (option string * metadata)) : bool :=
  bool_decide (NoDup (List.map (fun x => gen_id x.2) batch)).

(** ** app/nodes.py: ingestion into the graph store *)

(** One row of [rows]: the fields of [ingest_row], and the span. *)
Record ingest_span := IngestSpan {
  sp_row : ingest_row;
  sp_start : Z;
  sp_end : Z
}.

(** One row of [alias_rows]: an alias name or a phonetic code. *)
Record alias_row := AliasRow {
  a_entity_key : string;
  a_alias : option string;
  a_alias_phonetic : option string
}.

(** r"\d+$" *)
Definition digits_at_end : re := Seq (Plus digit) Eos.

(** r"\b(?:v|vs)\.?\b", as written and with [re.IGNORECASE] *)
Definition versus_pat : re :=
  Seq WordB (Seq (Alt (Lit "v") (Lit "vs")) (Seq (Opt (Lit ".")) WordB)).

Definition versus_pat_ci : re :=
  Seq WordB (Seq (Alt (LitCI "v") (LitCI "vs")) (Seq (Opt (Lit ".")) WordB)).

(** The alias rows built for one entity. *)
Definition entity_alias_rows (entity_key entity_text norm_text : string) : list alias_row :=
  let norm := norm_text in
  let name_row (alias : string) : list alias_row :=
    if Str.is_empty alias then [] else [AliasRow entity_key (Some alias) None] in
  let cleaned_alias :=
    sub digits_at_end (always EmptyString) (normalize_legal_entity entity_text) in
  let parts :=
    List.filter (fun p => negb (Str.is_empty p)) (split versus_pat norm) in
  let combo :=
    normalize_legal_entity
      (Str.join " " (List.map Str.strip (split versus_pat_ci entity_text))) in
  let ph := phonetic_key norm in
  name_row norm
  ++ (if negb (Str.is_empty cleaned_alias) && negb (String.eqb cleaned_alias norm)
      then [AliasRow entity_key (Some cleaned_alias) None] else [])
  ++ flat_map_list (fun p => name_row (normalize_legal_entity p)) parts
  ++ name_row combo
  ++ (if Str.is_empty ph then [] else [AliasRow entity_key None (Some ph)]).

(** The loop of [neo4j_ingest_node] over the entities of one item: for
    each entity with a text, its row and its alias rows.  The label and
    the text are read through [str], which leaves the strings of
    [entity] as they are and finds the empty text for a missing key.
    [start] is 0 and [end] is [start] when the value is missing or is
    not a number. *)
Definition ingest_entries_of (obj : ner_item) : list (ingest_span * list alias_row) :=
  let ents := _augment_entities_with_keywords (Some (default EmptyString (i_text obj)))
                (Some (default [] (i_entities obj))) in
  let chunk_uid := String.append (i_doc_id obj) (String.append ":" (i_chunk_id obj)) in
  flat_map_list
    (fun e =>
       let label := default EmptyString (e_label e) in
       let entity_text := Str.strip (default EmptyString (e_text e)) in
       if Str.is_empty entity_text then []
       else
         let start := default 0%Z (e_start e) in
         let end_ := default start (e_end e) in
         let entity_key := make_entity_key (Some label) (Some entity_text) in
         let norm_text := normalize_legal_entity entity_text in
         let norm_key := make_entity_key (Some label) (Some norm_text) in
         [(IngestSpan
             (IngestRow chunk_uid label entity_text norm_text entity_key norm_key
                (e_score e) (if truthy (e_source e) then e_source e else None))
             start end_,
           entity_alias_rows entity_key entity_text norm_text)])
    ents.

(** The graph store with what the write queries need to tell apart: a
    [MENTIONS] relationship has its chunk, its entity, [start] and
    [end].  [Document] nodes and the properties that no query of the
    program reads are left out.  The store satisfies the uniqueness
    constraints that the node creates first, so that an entity is known
    by its key. *)
Record kg := Kg {
  k_entities : list (string * option string);
  k_mentions : list (string * string * Z * Z);
  k_aliases : list (string * string);
  k_phonetics : list (string * string)
}.

(** What the read queries see of it. *)
Definition graph_of (k : kg) : graph :=
  Graph (k_entities k) (List.map (fun m => (m.1.1.1, m.1.1.2)) (k_mentions k))
    (k_aliases k) (k_phonetics k).

Definition kg_unique (k : kg) : Prop := NoDup (List.map fst (k_entities k)).

(** [MERGE] of a pattern that is a single relationship or node: nothing
    when it is there, else it is created. *)
Definition add_absent {A : Type} `{EqDecision A} (x : A) (l : list A) : list A :=
  if bool_decide (x ∈ l) then l else l ++ [x].

(** [MERGE (e:Entity {key: row.entity_key}) ON CREATE SET e.norm_key = ...
    SET e.norm_key = coalesce(e.norm_key, row.entity_norm_key)] *)
Definition merge_entity (ents : list (string * option string)) (key norm_key : string)
  : list (string * option string) :=
  if existsb (fun e => String.eqb e.1 key) ents
  then List.map (fun e => if String.eqb e.1 key then (e.1, Some (default norm_key e.2)) else e)
         ents
  else ents ++ [(key, Some norm_key)].

(** The write query for one row. *)
Definition merge_row (k : kg) (sp : ingest_span) : kg :=
  let r := sp_row sp in
  Kg (merge_entity (k_entities k) (r_entity_key r) (r_entity_norm_key r))
     (add_absent (r_chunk_uid r, r_entity_key r, sp_start sp, sp_end sp) (k_mentions k))
     (k_aliases k) (k_phonetics k).

(** The alias query for one alias row: nothing without the entity. *)
Definition merge_alias (k : kg) (a : alias_row) : kg :=
  if existsb (fun e => String.eqb e.1 (a_entity_key a)) (k_entities k)
  then
    Kg (k_entities k) (k_mentions k)
       (if truthy (a_alias a)
        then add_absent (default EmptyString (a_alias a), a_entity_key a) (k_aliases k)
        else k_aliases k)
       (if truthy (a_alias_phonetic a)
        then add_absent (default EmptyString (a_alias_phonetic a), a_entity_key a)
               (k_phonetics k)
        else k_phonetics k)
  else k.

(** The store as the node finds it for writing: [KgDown] when making
    the driver or the first session raises, with the given message. *)
Inductive kg_db :=
| KgDown (msg : string)
| KgUp (k : kg).

(** [neo4j_ingest_node]: the value of [ingested] or the message of the
    exception, and the store afterwards. *)
Definition neo4j_ingest_node (items : list ner_item) (password : option string)
    (batch_size : Z) (db : kg_db) : (nat + string) * kg_db :=
  if negb (truthy password) then (inr "neo4j_password is required", db)
  else
    match db with
    | KgDown msg => (inr msg, db)
    | KgUp k =>
        let entries := flat_map_list ingest_entries_of items in
        let rows := List.map fst entries in
        let alias_rows := flat_map_list snd entries in
        if is_nil rows then (inl 0, db)
        else
          match batches rows batch_size with
          | None => (inr "range() arg 3 must not be zero", db)
          | Some bs =>
              let k := fold_left (fun k batch => fold_left merge_row batch k) bs k in
              let processed := batch_total bs in
              let k := if is_nil alias_rows then k else fold_left merge_alias alias_rows k in
              (inl processed, KgUp k)
          end
    end.

(** The rows and the alias rows that [neo4j_ingest_node] prepares, and
    the store after all of them are written. *)
Definition ingest_rows (items : list ner_item) : list ingest_span :=
  List.map fst (flat_map_list ingest_entries_of items).

Definition ingest_aliases (items : list ner_item) : list alias_row :=
  flat_map_list snd (flat_map_list ingest_entries_of items).

Definition ingested_store (items : list ner_item) (k : kg) : kg :=
  fold_left merge_alias (ingest_aliases items) (fold_left merge_row (ingest_rows items) k).

(** The entity with key [key] is in the store, with a [norm_key]. *)
Definition settled (key : string) (ents : list (string * option string)) : Prop :=
  existsb (fun e => String.eqb e.1 key) ents = true
  /\ forall e, e ∈ ents -> e.1 = key -> is_Some e.2.

(** The row is in the store. *)
Definition has_span (sp : ingest_span) (k : kg) : Prop :=
  settled (r_entity_key (sp_row sp)) (k_entities k)
  /\ (r_chunk_uid (sp_row sp), r_entity_key (sp_row sp), sp_start sp, sp_end sp)
       ∈ k_mentions k.

(** The alias row is in the store, if its entity is. *)
Definition has_alias (a : alias_row) (k : kg) : Prop :=
  existsb (fun e => String.eqb e.1 (a_entity_key a)) (k_entities k) = true ->
  (truthy (a_alias a) = true ->
   (default EmptyString (a_alias a), a_entity_key a) ∈ k_aliases k)
  /\ (truthy (a_alias_phonetic a) = true ->
      (default EmptyString (a_alias_phonetic a), a_entity_key a) ∈ k_phonetics k).

(** Nothing of [k] is missing in [k']: the entities are the same up to a
    [norm_key] that was missing, and the other lists only grow. *)
Definition kg_below (k k' : kg) : Prop :=
  (forall e, e ∈ k_entities k ->
     exists nk, (e.1, nk) ∈ k_entities k' /\ (is_Some e.2 -> nk = e.2))
  /\ (forall m, m ∈ k_mentions k -> m ∈ k_mentions k')
  /\ (forall a, a ∈ k_aliases k -> a ∈ k_aliases k')
  /\ (forall p, p ∈ k_phonetics k -> p ∈ k_phonetics k').

(** ** app/nodes.py: the path of an output file *)

Fixpoint str_skip (n : nat) (s : string) : string :=
  match n, s with
  | S n', String _ t => str_skip n' t
  | _, _ => s
  end.

(** [s.endswith(suffix)] *)
Definition endswith (s suffix : string) : bool :=
  (String.length suffix <=? String.length s)%nat
  && String.eqb (str_skip (String.length s - String.length suffix) s) suffix.

(** The end of [save_node], [save_json_simple_node] and
    [save_embeddings_node]: without an [output_path] the path is derived
    from the input path, and a path that does not end in [.jsonl] gets
    that extension.  [root p] is [os.path.splitext(p)[0]]. *)
Definition output_path_for (root : string -> string) (suffix input_path : string)
    (output_path : option string) : string :=
  let output_path :=
    if truthy output_path then default EmptyString output_path
    else String.append (root input_path) suffix in
  if endswith (Str.lower output_path) ".jsonl" then output_path
  else String.append (root output_path) ".jsonl".

Definition save_node_path (root : string -> string) (input_path : string)
    (output_path : option string) : string :=
  output_path_for root ".chunks.jsonl" input_path output_path.

(** [input_path or "output"] *)
Definition save_json_simple_node_path (root : string -> string)
    (input_path output_path : option string) : string :=
  output_path_for root ".chunks.jsonl"
    (if truthy input_path then default EmptyString input_path else "output") output_path.

Definition save_embeddings_node_path (root : string -> string)
    (input_path output_path : option string) : string :=
  output_path_for root ".embeddings.jsonl"
    (if truthy input_path then default EmptyString input_path else "output") output_path.

(** ** app/nodes.py and app/api.py: the texts of the selected chunks *)

(** [fetch_docs_by_ids_node]: the collection of the vector store is a
    list of records, an id with a document that may be [None]; [None]
    for the collection stands for a store that cannot be opened, which
    raises.  [coll.get(ids=...)] returns the records with one of the
    ids; the dictionary built from them keeps the last document of an
    id; the result is [final_docs]. *)
Definition coll_get (coll : list (string * option string)) (ids : list string)
  : list (string * option string) :=
  List.filter (fun r => bool_decide (r.1 ∈ ids)) coll.

Definition fetch_docs_by_ids_node (final_ids : list string)
    (coll : option (list (string * option string))) : option (list (option string)) :=
  if is_nil final_ids then Some []
  else
    match coll with
    | None => None
    | Some coll =>
        let got := coll_get coll final_ids in
        let id_to_doc : gmap string (option string) :=
          fold_left (fun d r => <[r.1 := r.2]> d) got ∅ in
        Some (List.map (fun i => default (Some EmptyString) (id_to_doc !! i)) final_ids)
    end.

(** A document of the response of [/retrieve]. *)
Record retrieved_doc := RetrievedDoc {
  rd_id : string;
  rd_snippet : string;
  rd_provenance : option (gset string);
  rd_provenance_extra : option (list string)
}.

(** The loop over [zip(final_ids, final_docs)] in [retrieve]. *)
Definition retrieve_docs (m : merge_result) (final_docs : list (option string))
  : list retrieved_doc :=
  List.map
    (fun p =>
       RetrievedDoc p.1 (Str.take 400 (default EmptyString p.2))
         (provenance m !! p.1) (provenance_extra m !! p.1))
    (combine (final_ids m) final_docs).

(** ** app/ner_runner.py: the entities of one record *)

(** An entity as the runner writes it. *)
Record ner_entity := NerEntity {
  n_text : string;
  n_label : string;
  n_start : nat;
  n_end : nat;
  n_score : option Q;
  n_normalized : string;
  n_source : string
}.

Definition overlaps (a_start a_end b_start b_end : nat) : bool :=
  negb ((a_end <=? b_start)%nat || (b_end <=? a_start)%nat).

(** [text[st:en]] for offsets that are not negative. *)
Definition slice (text : string) (st en : nat) : string :=
  String.substring st (en - st) text.

Definition GAZETTEER : list (string * (string * string)) :=
  [("ipc", ("Indian Penal Code, 1860", "STATUTE"));
   ("crpc", ("Code of Criminal Procedure, 1973", "STATUTE"));
   ("cpc", ("Code of Civil Procedure, 1908", "STATUTE"));
   ("sc", ("Supreme Court of India", "COURT"));
   ("hc", ("High Court", "COURT"))].

(** The loop over [doc_full.ents]: an entity of the pipeline is its
    label, its offsets in the text and its source mark; its text is the
    text between the offsets.  A blank span and a span that overlaps one
    taken before are passed over. *)
Fixpoint ner_loop (original_text : string)
    (ents : list (string * nat * nat * option string))
    (ents_out : list ner_entity) (taken : list (nat * nat))
  : list ner_entity * list (nat * nat) :=
  match ents with
  | [] => (ents_out, taken)
  | (label, st, en, source_val) :: ents' =>
      let span_txt := slice original_text st en in
      if Str.is_empty (Str.strip span_txt) then ner_loop original_text ents' ents_out taken
      else if existsb (fun t => overlaps st en t.1 t.2) taken
      then ner_loop original_text ents' ents_out taken
      else
        ner_loop original_text ents'
          (ents_out ++ [NerEntity span_txt label st en None (normalize_legal_entity span_txt)
                          (if truthy source_val then default EmptyString source_val
                           else "ner")])
          (taken ++ [(st, en)])
  end.

(** The loop over the matches of the phrase matcher: a match is the
    offsets of its span. *)
Fixpoint gazetteer_loop (original_text : string) (matches : list (nat * nat))
    (ents_out : list ner_entity) (taken : list (nat * nat))
  : list ner_entity * list (nat * nat) :=
  match matches with
  | [] => (ents_out, taken)
  | (st, en) :: matches' =>
      let key := Str.lower (slice original_text st en) in
      match dict_get GAZETTEER key with
      | None => gazetteer_loop original_text matches' ents_out taken
      | Some (name, label) =>
          if existsb (fun t => overlaps st en t.1 t.2) taken
          then gazetteer_loop original_text matches' ents_out taken
          else
            gazetteer_loop original_text matches'
              (ents_out ++ [NerEntity name label st en (Some (Qmake 1 1))
                              (normalize_legal_entity name) "dictionary"])
              (taken ++ [(st, en)])
      end
  end.

(** The entities of a record before the optional similarity fallback. *)
Definition record_entities (original_text : string)
    (ents : list (string * nat * nat * option string)) (matches : list (nat * nat))
  : list ner_entity :=
  let '(ents_out, taken) := ner_loop original_text ents [] [] in
  (gazetteer_loop original_text matches ents_out taken).1.

(** The entities and the spans taken go together, no two spans overlap,
    and every entity has a text that is not blank, with its normal
    form. *)
Definition spans_ok (ents_out : list ner_entity) (taken : list (nat * nat)) : Prop :=
  taken = List.map (fun e => (n_start e, n_end e)) ents_out
  /\ (forall i j a b, i < j -> taken !! i = Some a -> taken !! j = Some b ->
        overlaps a.1 a.2 b.1 b.2 = false)
  /\ (forall e, e ∈ ents_out ->
        Str.strip (n_text e) <> EmptyString
        /\ n_normalized e = normalize_legal_entity (n_text e)
        /\ n_source e <> EmptyString).

(** ** Runs of whitespace *)

(** Where a greedy run of the class [p] ends: the character before the
    end and the text after it. *)
Fixpoint run_end (p : ascii -> bool) (pr : option ascii) (s : string)
  : option ascii * string :=
  match s with
  | EmptyString => (pr, EmptyString)
  | String c t => if p c then run_end p (Some c) t else (pr, s)
  end.

(** Every run of whitespace replaced by one space; [in_run] tells that
    the character before was whitespace. *)
Fixpoint squeeze (in_run : bool) (s : string) : string :=
  match s with
  | EmptyString => EmptyString
  | String c t =>
      if Chr.is_space c
      then if in_run then squeeze true t else String " " (squeeze true t)
      else String c (squeeze false t)
  end.

(** The only whitespace of [s] is single spaces; with [after_space] the
    text does not start with one either. *)
Fixpoint tidy (after_space : bool) (s : string) : bool :=
  match s with
  | EmptyString => true
  | String c t =>
      if Chr.is_space c then Ascii.eqb c " " && negb after_space && tidy true t
      else tidy false t
  end.

(** ** Names of several words *)

(** One round of [initials_pat]: a letter, an optional full stop and
    whitespace. *)
Definition initials_item : re := Seq alpha (Seq (Opt (Lit ".")) (Star ws)).

(** A letter or whitespace. *)
Definition letter_or_space (c : ascii) : bool := Chr.is_alpha c || Chr.is_space c.

(** The whitespace at the end of [s]. *)
Fixpoint trail (s : string) : string :=
  match s with
  | EmptyString => EmptyString
  | String _ t => if Str.forallb Chr.is_space s then s else trail t
  end.

(** * Properties *)

(** ** The matcher *)

Section Matcher_facts.

Context {R : Type}.
Implicit Types (r a b : re) (s : mstate) (k : mstate -> option R).

(** The defining equations of [exec]. *)
Lemma exec_Eps n s k : exec n Eps s k = k s.
Proof. by destruct n. Qed.

Lemma exec_Cls n p s k :
  exec n (Cls p) s k
  = match rest s with
    | String c t => if p c then k (MState (Some c) t (caps s)) else None
    | EmptyString => None
    end.
Proof. by destruct n. Qed.

Lemma exec_Seq n a b s k :
  exec n (Seq a b) s k = exec n a s (fun s' => exec n b s' k).
Proof. by destruct n. Qed.

Lemma exec_Alt n a b s k :
  exec n (Alt a b) s k
  = match exec n a s k with Some x => Some x | None => exec n b s k end.
Proof. by destruct n. Qed.

Lemma exec_Star n a s k :
  exec (S n) (Star a) s k
  = match exec (S n) a s (fun s' => if shorter s' s then exec n (Star a) s' k else None) with
    | Some x => Some x
    | None => k s
    end.
Proof. reflexivity. Qed.

Lemma exec_LazyStar n a s k :
  exec (S n) (LazyStar a) s k
  = match k s with
    | Some x => Some x
    | None => exec (S n) a s
                (fun s' => if shorter s' s then exec n (LazyStar a) s' k else None)
    end.
Proof. reflexivity. Qed.

Lemma exec_Grp n i a s k :
  exec n (Grp i a) s k
  = exec n a s
      (fun s' => k (MState (prev s') (rest s') ((i, taken (rest s) (rest s')) :: caps s'))).
Proof. by destruct n. Qed.

Lemma exec_Bref n i s k :
  exec n (Bref i) s k
  = match cap i (caps s) with
    | Some g =>
        match eat g (prev s) (rest s) with
        | Some (p, t) => k (MState p t (caps s))
        | None => None
        end
    | None => None
    end.
Proof. by destruct n. Qed.

Lemma exec_WordB n s k :
  exec n WordB s k
  = if xorb (is_word_opt (prev s)) (is_word_opt (Str.head (rest s))) then k s else None.
Proof. by destruct n. Qed.

Lemma exec_Eos n s k :
  exec n Eos s k
  = match rest s with
    | EmptyString => k s
    | String c EmptyString => if Ascii.eqb c "010" then k s else None
    | _ => None
    end.
Proof. by destruct n. Qed.

Lemma exec_NotBehind n p s k :
  exec n (NotBehind p) s k
  = match prev s with
    | Some c => if p c then None else k s
    | None => k s
    end.
Proof. by destruct n. Qed.

Lemma exec_NotAhead n p s k :
  exec n (NotAhead p) s k
  = match rest s with
    | String c _ => if p c then None else k s
    | EmptyString => k s
    end.
Proof. by destruct n. Qed.

End Matcher_facts.

Lemma eat_length g : forall p s p' t,
  eat g p s = Some (p', t) -> String.length t <= String.length s.
Proof.
  induction g as [|c g IH]; intros p s p' t; cbn [eat].
  - by intros [= _ ->].
  - destruct s as [|d s]; [done|]. destruct (Ascii.eqb c d); [|done].
    intros H%IH. cbn [String.length]. lia.
Qed.

(** Fuel: the result of [exec] is the same for every bound above the
    length of the remaining text. *)
Lemma exec_fuel {R : Type} n : forall m r s (k1 k2 : mstate -> option R),
  String.length (rest s) < n -> String.length (rest s) < m ->
  (forall s', String.length (rest s') <= String.length (rest s) -> k1 s' = k2 s') ->
  exec n r s k1 = exec m r s k2.
Proof.
  induction n as [|n IHn]; intros m r s k1 k2 Hn Hm Hk; [lia|].
  destruct m as [|m]; [lia|].
  revert s k1 k2 Hn Hm Hk.
  induction r as [|p|a IHa b IHb|a IHa b IHb|a IHa|a IHa|i a IHa|i| | |p|p];
    intros s k1 k2 Hn Hm Hk.
  - rewrite !exec_Eps. by apply Hk.
  - rewrite !exec_Cls. destruct (rest s) as [|c t] eqn:Es; [done|].
    destruct (p c); [|done]. apply Hk. cbn. lia.
  - rewrite !exec_Seq. apply IHa; [done..|]. intros s' Hs'.
    apply IHb; [lia..|]. intros s'' Hs''. apply Hk. lia.
  - rewrite !exec_Alt. rewrite (IHa s k1 k2), (IHb s k1 k2) by done. done.
  - rewrite !exec_Star. rewrite (Hk s) by done.
    rewrite (IHa s _ (fun s' => if shorter s' s then exec m (Star a) s' k2 else None));
      [done..|].
    intros s' Hs'. unfold shorter. destruct (Nat.ltb_spec (String.length (rest s'))
      (String.length (rest s))); [|done].
    apply IHn; [lia..|]. intros s'' Hs''. apply Hk. lia.
  - rewrite !exec_LazyStar. rewrite (Hk s) by done.
    rewrite (IHa s _ (fun s' => if shorter s' s then exec m (LazyStar a) s' k2 else None));
      [done..|].
    intros s' Hs'. unfold shorter. destruct (Nat.ltb_spec (String.length (rest s'))
      (String.length (rest s))); [|done].
    apply IHn; [lia..|]. intros s'' Hs''. apply Hk. lia.
  - rewrite !exec_Grp. apply IHa; [done..|]. intros s' Hs'. by apply Hk.
  - rewrite !exec_Bref. destruct (cap i (caps s)) as [g|]; [|done].
    destruct (eat g (prev s) (rest s)) as [[p t]|] eqn:Ee; [|done].
    apply Hk. cbn. by apply eat_length in Ee.
  - rewrite !exec_WordB. rewrite (Hk s) by done. done.
  - rewrite !exec_Eos. rewrite (Hk s) by done. done.
  - rewrite !exec_NotBehind. rewrite (Hk s) by done. done.
  - rewrite !exec_NotAhead. rewrite (Hk s) by done. done.
Qed.

Section Avoid.

Variable P : ascii -> bool.

Lemma all_ascii_complete (c : ascii) : In c all_ascii.
Proof.
  unfold all_ascii. apply in_map_iff. exists (nat_of_ascii c). split.
  - apply ascii_nat_embedding.
  - apply in_seq. pose proof (nat_ascii_bounded c). lia.
Qed.

Lemma class_subset_spec (p : ascii -> bool) (c : ascii) :
  class_subset p P = true -> p c = true -> P c = true.
Proof.
  unfold class_subset. rewrite forallb_forall. intros H Hp.
  specialize (H c (all_ascii_complete c)). by rewrite Hp in H.
Qed.

Lemma avoids_cons (c : ascii) (t : string) :
  avoids P (String c t) = true -> P c = false /\ avoids P t = true.
Proof.
  unfold avoids. cbn [Str.forallb]. intros [H1 H2]%andb_true_iff.
  split; [by apply negb_true_iff|done].
Qed.

Lemma eat_avoids g : forall p s p' t,
  eat g p s = Some (p', t) -> avoids P s = true -> avoids P t = true.
Proof.
  induction g as [|c g IH]; intros p s p' t; cbn [eat].
  - by intros [= _ ->].
  - destruct s as [|d s]; [done|]. destruct (Ascii.eqb c d); [|done].
    intros H [_ Hs]%avoids_cons. by eapply IH.
Qed.

(** On a text without characters of [P], a continuation that fails on
    such texts makes the whole match fail. *)
Lemma exec_avoids_none {R : Type} n : forall r s (k : mstate -> option R),
  avoids P (rest s) = true ->
  (forall s', avoids P (rest s') = true -> k s' = None) ->
  exec n r s k = None.
Proof.
  induction n as [|n IHn]; intros r; 
    induction r as [|p|a IHa b IHb|a IHa b IHb|a IHa|a IHa|i a IHa|i| | |p|p];
    intros s k Hs Hk;
    rewrite ?exec_Eps, ?exec_Cls, ?exec_Seq, ?exec_Alt, ?exec_Grp, ?exec_Bref,
      ?exec_WordB, ?exec_Eos, ?exec_NotBehind, ?exec_NotAhead;
    try reflexivity; try (by apply Hk).
  all: try (destruct (rest s) as [|c t] eqn:Es; [done|]; destruct (p c); [|done];
            apply Hk; cbn [rest]; by apply avoids_cons in Hs as [_ ?]).
  all: try (apply IHa; [done|]; intros s' Hs'; by apply IHb).
  all: try (rewrite IHa by done; by apply IHb).
  all: try (apply IHa; [done|]; intros s' Hs'; by apply Hk).
  all: try (destruct (cap i (caps s)) as [g|]; [|done];
            destruct (eat g (prev s) (rest s)) as [[p t]|] eqn:Ee; [|done];
            apply Hk; cbn [rest]; by eapply eat_avoids).
  all: try (destruct (xorb _ _); [by apply Hk|done]).
  all: try (destruct (rest s) as [|c [|d t]] eqn:Es; [apply Hk; by rewrite Es| |done];
            destruct (Ascii.eqb c "010"); [apply Hk; by rewrite Es|done]).
  all: try (destruct (prev s) as [c|]; [|by apply Hk]; destruct (p c); [done|by apply Hk]).
  all: try (destruct (rest s) as [|c t] eqn:Es; [apply Hk; by rewrite Es|];
            destruct (p c); [done|apply Hk; by rewrite Es]).
  - rewrite exec_Star. rewrite IHa; [by apply Hk|done|].
    intros s' Hs'. destruct (shorter s' s); [|done]. by apply IHn.
  - rewrite exec_LazyStar. rewrite Hk by done. apply IHa; [done|].
    intros s' Hs'. destruct (shorter s' s); [|done]. by apply IHn.
Qed.

(** A pattern that needs a character of [P] does not match a text
    without such characters. *)
Lemma exec_needs {R : Type} n : forall r s (k : mstate -> option R),
  avoids P (rest s) = true -> needs P r = true -> exec n r s k = None.
Proof.
  intros r. induction r as [|p|a IHa b IHb|a IHa b IHb|a IHa|a IHa|i a IHa|i| | |p|p];
    intros s k Hs Hr; cbn [needs] in Hr; try discriminate.
  - rewrite exec_Cls. destruct (rest s) as [|c t] eqn:Es; [done|].
    apply avoids_cons in Hs as [Hc _].
    destruct (p c) eqn:Hp; [|done].
    by rewrite (class_subset_spec p c Hr Hp) in Hc.
  - rewrite exec_Seq. apply orb_true_iff in Hr as [Hr|Hr].
    + by apply IHa.
    + apply exec_avoids_none; [done|]. intros s' Hs'. by apply IHb.
  - rewrite exec_Alt. apply andb_true_iff in Hr as [Hra Hrb].
    rewrite IHa by done. by apply IHb.
  - rewrite exec_Grp. by apply IHa.
Qed.

Lemma match_at_needs (r : re) (p : option ascii) (s : string) :
  avoids P s = true -> needs P r = true -> match_at r p s = None.
Proof. intros Hs Hr. unfold match_at. by apply exec_needs. Qed.

Lemma sub_go_needs (r : re) (repl : rmatch -> string) (s : string) :
  needs P r = true ->
  forall p, avoids P s = true -> sub_go r repl p s 0 = s.
Proof.
  intros Hr. induction s as [|c t IH]; intros p Hs; cbn [sub_go]; [done|].
  rewrite match_at_needs by done. apply avoids_cons in Hs as [_ Ht].
  by rewrite IH.
Qed.

Lemma sub_needs (r : re) (repl : rmatch -> string) (s : string) :
  needs P r = true -> avoids P s = true -> sub r repl s = s.
Proof. intros. by apply sub_go_needs. Qed.

Lemma split_go_needs (r : re) (s : string) :
  needs P r = true ->
  forall p cur, avoids P s = true -> split_go r p s 0 cur = [String.rev_app cur s].
Proof.
  intros Hr. induction s as [|c t IH]; intros p cur Hs; cbn [split_go]; [done|].
  rewrite match_at_needs by done. apply avoids_cons in Hs as [_ Ht].
  by rewrite IH.
Qed.

Lemma split_needs (r : re) (s : string) :
  needs P r = true -> avoids P s = true -> split r s = [s].
Proof. intros. unfold split. by rewrite split_go_needs. Qed.

End Avoid.

(** ** The normalizer on plain words *)

Section Plain_words.

Implicit Types (w t : string) (c : ascii).

Lemma avoids_mono (P Q : ascii -> bool) w :
  class_subset Q P = true -> avoids P w = true -> avoids Q w = true.
Proof.
  intros HQ. induction w as [|c w IH]; [done|].
  intros [Hc Hw]%avoids_cons. unfold avoids. cbn [Str.forallb].
  apply andb_true_iff. split; [|by apply IH].
  apply negb_true_iff. destruct (Q c) eqn:Hq; [|done].
  by rewrite (class_subset_spec P Q c HQ Hq) in Hc.
Qed.

Lemma lower_avoids w : Str.forallb Chr.is_lower w = true -> avoids not_lower w = true.
Proof.
  induction w as [|c w IH]; [done|]. cbn [Str.forallb].
  intros [Hc Hw]%andb_true_iff. specialize (IH Hw).
  unfold avoids, not_lower in *. cbn [Str.forallb]. by rewrite Hc, IH.
Qed.

Lemma lstrip_avoids (p : ascii -> bool) w : avoids p w = true -> Str.lstrip p w = w.
Proof. destruct w as [|c w]; [done|]. intros [Hc _]%avoids_cons. cbn. by rewrite Hc. Qed.

Lemma rstrip_avoids (p : ascii -> bool) w : avoids p w = true -> Str.rstrip p w = w.
Proof.
  induction w as [|c w IH]; [done|]. intros [Hc Hw]%avoids_cons.
  cbn [Str.rstrip]. by rewrite (IH Hw), Hc, andb_false_r.
Qed.

Lemma strip_chars_avoids (p : ascii -> bool) w :
  avoids p w = true -> Str.strip_chars p w = w.
Proof. intros H. unfold Str.strip_chars. by rewrite lstrip_avoids, rstrip_avoids. Qed.

Lemma lower_fixed w : Str.forallb Chr.is_lower w = true -> Str.lower w = w.
Proof.
  induction w as [|c w IH]; [done|]. cbn [Str.forallb].
  intros [Hc Hw]%andb_true_iff. unfold Str.lower in *. cbn [Str.map]. rewrite (IH Hw).
  f_equal. apply Ascii.eqb_eq.
  apply (class_subset_spec (fun c => Ascii.eqb (Chr.lower c) c) Chr.is_lower c);
    [by vm_compute|done].
Qed.

Lemma lower_is_word c : Chr.is_lower c = true -> Chr.is_word c = true.
Proof. apply class_subset_spec. by vm_compute. Qed.

Lemma lower_ci (a c : ascii) :
  Chr.is_lower c = true -> Chr.lit_ci a c = true -> c = Chr.lower a.
Proof.
  intros Hc Hci. unfold Chr.lit_ci in Hci. apply Ascii.eqb_eq in Hci. rewrite Hci.
  symmetry. apply Ascii.eqb_eq.
  apply (class_subset_spec (fun c => Ascii.eqb (Chr.lower c) c) Chr.is_lower c);
    [by vm_compute|done].
Qed.

(** Inside a word of lower-case letters there is no word boundary. *)
Lemma abbrev_inside (repl : rmatch -> string) t : forall c,
  Chr.is_lower c = true -> Str.forallb Chr.is_lower t = true ->
  sub_go abbrev_pat repl (Some c) t 0 = t.
Proof.
  induction t as [|d t IH]; intros c Hc Ht; [done|].
  cbn [Str.forallb] in Ht. apply andb_true_iff in Ht as [Hd Ht].
  cbn [sub_go]. unfold match_at, abbrev_pat.
  rewrite exec_Seq, exec_WordB. cbn [prev rest Str.head is_word_opt].
  rewrite (lower_is_word c Hc), (lower_is_word d Hd). cbn [xorb].
  by rewrite IH.
Qed.

Lemma abbrev_at_start w :
  Str.forallb Chr.is_lower w = true -> Str.mem w reserved_words = false ->
  match_at abbrev_pat None w = None.
Proof.
  intros Hw Hres.
  destruct w as [|c1 [|c2 [|c3 t]]]; [done| |  |].
  - unfold match_at, abbrev_pat. cbn.
    by repeat match goal with |- context [if ?b then _ else _] => destruct b end.
  - cbn [Str.forallb] in Hw. apply andb_true_iff in Hw as [H1 [H2 _]%andb_true_iff].
    unfold match_at, abbrev_pat. cbn.
    destruct (Chr.lit_ci "S" c1) eqn:E1; [destruct (Chr.lit_ci "C" c2) eqn:E2|].
    + apply (lower_ci _ _ H1) in E1 as ->. apply (lower_ci _ _ H2) in E2 as ->.
      vm_compute in Hres. discriminate Hres.
    + by destruct (Chr.is_word c1), (Chr.lit_ci "H" c1).
    + destruct (Chr.lit_ci "H" c1) eqn:E3; [|by destruct (Chr.is_word c1)].
      destruct (Chr.lit_ci "C" c2) eqn:E4; [|by destruct (Chr.is_word c1)].
      apply (lower_ci _ _ H1) in E3 as ->. apply (lower_ci _ _ H2) in E4 as ->.
      vm_compute in Hres. discriminate Hres.
  - cbn [Str.forallb] in Hw.
    apply andb_true_iff in Hw as [H1 [H2 [H3 _]%andb_true_iff]%andb_true_iff].
    unfold match_at, abbrev_pat. cbn.
    rewrite (lower_is_word c2 H2), (lower_is_word c3 H3). cbn.
    by repeat match goal with |- context [if ?b then _ else _] => destruct b end.
Qed.

Lemma abbrev_plain (repl : rmatch -> string) w :
  Str.forallb Chr.is_lower w = true -> Str.mem w reserved_words = false ->
  sub abbrev_pat repl w = w.
Proof.
  intros Hw Hres. unfold sub. destruct w as [|c t]; [done|].
  cbn [sub_go]. rewrite abbrev_at_start by done.
  cbn [Str.forallb] in Hw. apply andb_true_iff in Hw as [Hc Ht].
  by rewrite abbrev_inside.
Qed.

Lemma plain_no_space w :
  Str.forallb Chr.is_lower w = true -> avoids Chr.is_space w = true.
Proof.
  intros H. apply (avoids_mono not_lower); [by vm_compute|by apply lower_avoids].
Qed.

Lemma strip_plain w : Str.forallb Chr.is_lower w = true -> Str.strip w = w.
Proof. intros H. apply strip_chars_avoids. by apply plain_no_space. Qed.

Lemma plain_no_punct w :
  Str.forallb Chr.is_lower w = true -> avoids token_punct w = true.
Proof.
  intros H. apply (avoids_mono not_lower); [by vm_compute|by apply lower_avoids].
Qed.

Lemma plain_sub (r : re) (repl : rmatch -> string) w :
  needs not_lower r = true -> Str.forallb Chr.is_lower w = true -> sub r repl w = w.
Proof. intros Hr Hw. apply (sub_needs not_lower); [done|by apply lower_avoids]. Qed.

Lemma plain_tokens w :
  Str.forallb Chr.is_lower w = true -> split ws_run w = [w].
Proof.
  intros Hw. apply (split_needs not_lower); [by vm_compute|by apply lower_avoids].
Qed.

Lemma plain_token_form w :
  Str.forallb Chr.is_lower w = true ->
  Str.strip_chars token_punct (Str.lower w) = w.
Proof.
  intros Hw. rewrite lower_fixed by done.
  apply strip_chars_avoids. by apply plain_no_punct.
Qed.

Lemma mem_app x (l1 l2 : list string) :
  Str.mem x (l1 ++ l2) = Str.mem x l1 || Str.mem x l2.
Proof. apply existsb_app. Qed.

Lemma normalize_unicode_plain w :
  Str.forallb Chr.is_lower w = true -> normalize_unicode w = w.
Proof.
  intros Hw. unfold normalize_unicode, nfkc. destruct (Str.is_empty w) eqn:E.
  { by destruct w. }
  rewrite plain_sub by (done || by vm_compute).
  by apply strip_plain.
Qed.

Lemma strip_stopwords_plain w :
  Str.forallb Chr.is_lower w = true -> Str.mem w STOPWORDS = false ->
  strip_stopwords w = w.
Proof.
  intros Hw Hs. unfold strip_stopwords. destruct (Str.is_empty w) eqn:E.
  { by destruct w. }
  rewrite plain_tokens by done. cbn [List.filter].
  rewrite plain_token_form, Hs by done. cbn [negb Str.join String.concat].
  by apply strip_plain.
Qed.

Lemma collapse_initials_plain w :
  Str.forallb Chr.is_lower w = true -> collapse_initials w = w.
Proof.
  intros Hw. unfold collapse_initials. destruct (Str.is_empty w) eqn:E.
  { by destruct w. }
  rewrite (plain_sub initials_run) by (done || by vm_compute).
  by rewrite (plain_sub initial_dot) by (done || by vm_compute).
Qed.

(** C1, amended: normalizing twice gives the same as normalizing once
    whenever the first result consists of lower-case letters only and is
    not a reserved word (an honorific, a stopword or an abbreviation). *)
Theorem normalize_idempotent_on_plain_words (s : string) :
  Str.forallb Chr.is_lower (normalize_legal_entity s) = true ->
  Str.mem (normalize_legal_entity s) reserved_words = false ->
  normalize_legal_entity (normalize_legal_entity s) = normalize_legal_entity s.
Proof.
  generalize (normalize_legal_entity s). clear s. intros w Hw Hres.
  destruct w as [|c0 t0] eqn:Ew; [by vm_compute|]. rewrite <- Ew in *.
  assert (Hne : Str.is_empty w = false) by by rewrite Ew.
  pose proof Hres as Hres'. unfold reserved_words in Hres'.
  rewrite !mem_app in Hres'.
  apply orb_false_iff in Hres' as [Hhon [Hstop _]%orb_false_iff].
  unfold normalize_legal_entity.
  rewrite normalize_unicode_plain by done.
  rewrite (plain_sub footnote_pat) by (done || by vm_compute).
  rewrite (strip_plain w) by done.
  rewrite (plain_sub judge_pat) by (done || by vm_compute).
  rewrite plain_tokens by done. cbn [List.filter]. rewrite Hne. cbn [negb List.filter].
  rewrite plain_token_form, Hhon by done. cbn [negb Str.join String.concat].
  rewrite strip_stopwords_plain, collapse_initials_plain by done.
  unfold expand_abbreviations. rewrite abbrev_plain by done.
  unfold normalize_sections. rewrite (plain_sub SECTION_PAT) by (done || by vm_compute).
  rewrite (plain_sub dash_run) by (done || by vm_compute).
  rewrite (plain_sub ws_run _ w) by (done || by vm_compute).
  rewrite (strip_plain w) by done.
  unfold Str.casefold. rewrite lower_fixed by done.
  by rewrite (plain_sub ws_run) by (done || by vm_compute).
Qed.

Lemma normalize_idempotent_on_plain_words_witness :
  Str.forallb Chr.is_lower (normalize_legal_entity "Smt. Kala Devi v. State of Karnataka") = true
  /\ Str.mem (normalize_legal_entity "Smt. Kala Devi v. State of Karnataka") reserved_words
     = false
  /\ normalize_legal_entity (normalize_legal_entity "Smt. Kala Devi v. State of Karnataka")
     = normalize_legal_entity "Smt. Kala Devi v. State of Karnataka".
Proof.
  split; [by vm_compute|]. split; [by vm_compute|].
  apply normalize_idempotent_on_plain_words; by vm_compute.
Defined.

(** C1 as stated fails: the final removal of white space can build a
    stopword, which a second pass removes. *)
Lemma normalize_not_idempotent :
  normalize_legal_entity "t he" = "the"
  /\ normalize_legal_entity (normalize_legal_entity "t he") = ""
  /\ normalize_legal_entity (normalize_legal_entity "t he")
     <> normalize_legal_entity "t he".
Proof. by vm_compute. Qed.

End Plain_words.

(** ** The assertions of tests/test_legal_normalizer.py on the embedding *)

Example test_collapse_initials :
  collapse_initials "V.R. Krishna Iyer" = "vr Krishna Iyer".
Proof. by vm_compute. Qed.

Example test_expand_abbreviations :
  expand_abbreviations "SC judgment; HC order"
  = "supreme court judgment; high court order".
Proof. by vm_compute. Qed.

Example test_normalize_sections_roman_and_numeric :
  Str.lower (normalize_sections "S. IV-A of IPC and Section 304B")
  = "section 4a of ipc and section 304b".
Proof. by vm_compute. Qed.

Example test_normalize_legal_entity_pipeline :
  normalize_legal_entity "Smt. Kala Devi v. State of Karnataka"
  = normalize_legal_entity "SMT KALADEVI vs STATE OF KARNATAKA"
  /\ normalize_legal_entity "Smt. Kala Devi v. State of Karnataka"
     = "kaladevistateofkarnataka".
Proof. by vm_compute. Qed.

Example roman_numerals :
  List.map roman_to_int ["iv"; "IX"; "xiv"; "MCMXCIV"; "iiii"] = [4; 9; 14; 1994; 4].
Proof. by vm_compute. Qed.

(** ** Keys and phonetic codes *)

(** C9: the two spellings of the name have the same normal form, hence
    the same phonetic code, which has four characters. *)
Theorem phonetic_stability :
  phonetic_key (normalize_legal_entity "Kaladevi")
  = phonetic_key (normalize_legal_entity "Kala Devi")
  /\ phonetic_key (normalize_legal_entity "Kaladevi") = "K431"
  /\ String.length (phonetic_key (normalize_legal_entity "Kala Devi")) = 4.
Proof. by vm_compute. Qed.

(** The test of the repository: the raw spellings have one code too. *)
Example phonetic_key_raw : phonetic_key "Kaladevi" = phonetic_key "Kala Devi".
Proof. by vm_compute. Qed.

Lemma map_map_fixed (f : ascii -> ascii) (x : string) :
  (forall c, f (f c) = f c) -> Str.map f (Str.map f x) = Str.map f x.
Proof.
  intros Hf. induction x as [|c x IH]; [done|]. cbn [Str.map]. by rewrite Hf, IH.
Qed.

Lemma upper_upper (x : string) : Str.upper (Str.upper x) = Str.upper x.
Proof.
  apply map_map_fixed. intros c. apply Ascii.eqb_eq.
  apply (class_subset_spec (fun c => Ascii.eqb (Chr.upper (Chr.upper c)) (Chr.upper c))
           (fun _ => true) c); [by vm_compute|done].
Qed.

Lemma lower_lower (x : string) : Str.lower (Str.lower x) = Str.lower x.
Proof.
  apply map_map_fixed. intros c. apply Ascii.eqb_eq.
  apply (class_subset_spec (fun c => Ascii.eqb (Chr.lower (Chr.lower c)) (Chr.lower c))
           (fun _ => true) c); [by vm_compute|done].
Qed.

(** C2 as stated fails: the key builder keeps the stopword that the
    normalization of section 4.1 removes. *)
Lemma make_entity_key_not_legal_normal_form :
  make_entity_key (Some "org") (Some "the court") = "ORG|thecourt"
  /\ String.append (Str.upper (Str.strip "org"))
       (String.append "|" (normalize_legal_entity "the court")) = "ORG|court"
  /\ make_entity_key (Some "org") (Some "the court")
     <> String.append (Str.upper (Str.strip "org"))
          (String.append "|" (normalize_legal_entity "the court")).
Proof. by vm_compute. Qed.

(** The normalization of section 4.1 enters the second key of an
    ingested entity, [entity_norm_key]. *)
Lemma ingest_norm_key (obj : ner_item) (r : ingest_row) :
  r ∈ ingest_rows_of obj ->
  r_entity_key r = make_entity_key (Some (r_label r)) (Some (r_entity_text r))
  /\ r_entity_norm_key r
     = make_entity_key (Some (r_label r)) (Some (normalize_legal_entity (r_entity_text r))).
Proof.
  unfold ingest_rows_of. rewrite list_elem_of_In, <- flat_map_concat_map, in_flat_map.
  intros (e & _ & Hr). destruct (Str.is_empty _); [done|].
  destruct Hr as [<-|[]]. done.
Qed.

(** ** The merge *)

Section Merge.

Implicit Types (ids ordered : list string) (seen : gset string).

Lemma filter_keep_first_absorb (x : string) (seen : gset string) ids :
  x ∈ seen ->
  filter (fun y => y ∉ seen) (filter (fun y => y ≠ x) ids)
  = filter (fun y => y ∉ seen) ids.
Proof.
  intros Hx. rewrite list_filter_filter. apply list_filter_iff.
  intros y. split; [by intros [? _]|]. intros Hy. split; [done|]. congruence.
Qed.

Lemma add_unseen_spec ids : forall ordered seen,
  add_unseen ids ordered seen
  = (ordered ++ filter (fun y => y ∉ seen) (keep_first ids), seen ∪ list_to_set ids).
Proof.
  induction ids as [|x ids IH]; intros ordered seen; simpl.
  - rewrite app_nil_r. f_equal. set_solver.
  - case_bool_decide as Hx.
    + rewrite IH, filter_cons_False by (intros Hn; by apply Hn).
      rewrite filter_keep_first_absorb by done. f_equal. set_solver.
    + rewrite IH, filter_cons_True by done.
      rewrite <- app_assoc. simpl. f_equal; [|set_solver].
      do 2 f_equal. rewrite list_filter_filter. apply list_filter_iff.
      intros y. set_solver.
Qed.

Lemma filter_all {A} (P : A -> Prop) `{forall x, Decision (P x)} (l : list A) :
  (forall x, x ∈ l -> P x) -> filter P l = l.
Proof.
  induction l as [|x l IH]; intros HP; [done|].
  rewrite filter_cons_True by (apply HP; left).
  rewrite IH; [done|]. intros y Hy. apply HP. by right.
Qed.

Lemma merge_order (st : state) (kg : kg_result) :
  final_ids (merge_ids_node st kg)
  = slice_to (kg_first (kg_ids kg) (embed_ids st)) (top_k st).
Proof.
  unfold merge_ids_node. rewrite !add_unseen_spec. simpl.
  unfold kg_first. f_equal. f_equal.
  - apply filter_all. set_solver.
  - apply list_filter_iff. intros y. set_solver.
Qed.

Lemma keep_first_elem `{EqDecision A} (l : list A) (x : A) : x ∈ keep_first l <-> x ∈ l.
Proof.
  induction l as [|a l IH]; simpl; [done|].
  rewrite !elem_of_cons, list_elem_of_filter, IH.
  destruct (decide (x = a)); naive_solver.
Qed.

Lemma keep_first_NoDup `{EqDecision A} (l : list A) : NoDup (keep_first l).
Proof.
  induction l as [|a l IH]; simpl; constructor.
  - rewrite list_elem_of_filter. by intros [Hn _].
  - by apply NoDup_filter.
Qed.

Lemma keep_first_id `{EqDecision A} (l : list A) : NoDup l -> keep_first l = l.
Proof.
  induction 1 as [|a l Ha _ IH]; simpl; [done|]. rewrite IH. f_equal.
  apply filter_all. intros y Hy ->. by apply Ha.
Qed.

End Merge.

Section MergeClaims.

Lemma slice_to_nonneg {A} (l : list A) (k : Z) :
  (0 <= k)%Z -> slice_to l k = firstn (Z.to_nat k) l.
Proof. intros Hk. unfold slice_to. by rewrite (proj2 (Z.leb_le 0 k) Hk). Qed.

(** C3, amended: the final ids are the slice [[:top_k]] of the order
    "graph ids first, then the vector ids that are not graph ids, each
    id once"; for a [top_k] that is not negative this is the first
    [top_k] ids of that order, so at most [top_k] of them. *)
Theorem merge_final_ids (st : state) (kg : kg_result) :
  let order := kg_first (kg_ids kg) (embed_ids st) in
  let final := final_ids (merge_ids_node st kg) in
  final = slice_to order (top_k st)
  /\ ((0 <= top_k st)%Z ->
      final = firstn (Z.to_nat (top_k st)) order
      /\ (Z.of_nat (length final) <= top_k st)%Z).
Proof.
  cbv zeta. rewrite merge_order. split; [done|]. intros Hk.
  rewrite slice_to_nonneg by done. split; [done|].
  rewrite length_firstn. lia.
Qed.

Lemma merge_final_ids_witness :
  (0 <= top_k (fusion_state 3))%Z
  /\ final_ids (merge_ids_node (fusion_state 3) fusion_kg) = ["c3"; "c1"; "c2"].
Proof.
  split; [simpl; lia|].
  destruct (merge_final_ids (fusion_state 3) fusion_kg) as [_ H].
  destruct (H ltac:(simpl; lia)) as [-> _]. reflexivity.
Defined.

(** C3 as stated fails for a negative [top_k]: the slice then drops
    ids from the end, and three ids are more than [-1]. *)
Lemma merge_negative_top_k :
  final_ids (merge_ids_node (fusion_state (-1)) fusion_kg) = ["c3"; "c1"; "c2"]
  /\ ~ (Z.of_nat (length (final_ids (merge_ids_node (fusion_state (-1)) fusion_kg)))
        <= top_k (fusion_state (-1)))%Z.
Proof. split; [reflexivity|]. vm_compute. intros H. by apply H. Qed.

Lemma fold_add_to_set (tag : string) (l : list string) :
  forall (d : gmap string (gset string)) (id : string),
    fold_left (fun d c => add_to_set d c tag) l d !! id
    = if decide (id ∈ l) then Some ({[tag]} ∪ default ∅ (d !! id)) else d !! id.
Proof.
  induction l as [|x l IH]; intros d id; cbn [fold_left].
  - case_decide as H; [by apply elem_of_nil in H|done].
  - rewrite IH. unfold add_to_set.
    destruct (decide (id = x)) as [->|Hne].
    + rewrite lookup_insert_eq. cbn [default].
      destruct (decide (x ∈ x :: l)) as [_|Hn]; [|by destruct Hn; left].
      case_decide; [|done]. f_equal. set_solver.
    + rewrite lookup_insert_ne by done.
      repeat case_decide; set_solver.
Qed.

Lemma merge_provenance (st : state) (kg : kg_result) (id : string) :
  provenance (merge_ids_node st kg) !! id
  = if decide (id ∈ vector_ids st \/ id ∈ kg_ids kg)
    then Some (tag_if (id ∈ vector_ids st) "chroma" ∪ tag_if (id ∈ kg_ids kg) "kg")
    else None.
Proof.
  unfold merge_ids_node. destruct (add_unseen (kg_ids kg) [] ∅) as [o1 s1].
  destruct (add_unseen (embed_ids st) o1 s1) as [o2 s2]. simpl.
  rewrite !fold_add_to_set, lookup_empty. fold (vector_ids st). unfold tag_if.
  repeat case_decide; simpl; try (f_equal; set_solver); naive_solver.
Qed.

Lemma length_NoDup_size (l : list string) :
  NoDup l -> length l = size (list_to_set l : gset string).
Proof. intros H. by rewrite size_list_to_set. Qed.

Lemma filter_bool_decide {A} (P : A -> Prop) `{forall x, Decision (P x)} (l : list A) :
  List.filter (fun x => bool_decide (P x)) l = filter P l.
Proof.
  induction l as [|x l IH]; [done|]. cbn [List.filter]. rewrite IH, filter_cons.
  destruct (decide (P x)) as [Hp|Hp].
  - by rewrite bool_decide_eq_true_2.
  - by rewrite bool_decide_eq_false_2.
Qed.

Lemma merge_both (st : state) (kg : kg_result) :
  sc_both (counts (merge_ids_node st kg))
  = length (filter (fun i => i ∈ kg_ids kg) (vector_ids st)).
Proof.
  unfold merge_ids_node. destruct (add_unseen (kg_ids kg) [] ∅) as [o1 s1].
  destruct (add_unseen (embed_ids st) o1 s1) as [o2 s2]. simpl.
  fold (vector_ids st). rewrite filter_bool_decide. f_equal.
  apply list_filter_iff. intros y. set_solver.
Qed.

Lemma merge_counts_plain (st : state) (kg : kg_result) :
  sc_chroma (counts (merge_ids_node st kg)) = length (vector_ids st)
  /\ sc_kg (counts (merge_ids_node st kg)) = length (kg_ids kg)
  /\ sc_selected (counts (merge_ids_node st kg))
     = length (final_ids (merge_ids_node st kg)).
Proof.
  unfold merge_ids_node. destruct (add_unseen (kg_ids kg) [] ∅) as [o1 s1].
  destruct (add_unseen (embed_ids st) o1 s1) as [o2 s2]. by simpl.
Qed.

(** C5, amended: the counts [chroma], [kg] and [both] are the lengths
    of the full lists (the numbers of distinct ids when the lists have
    no repetition) and do not change with [top_k]; [selected] is the
    length of the final ids; the provenance map has an entry for every
    id of either list, whether or not the id is among the final ids,
    and does not change with [top_k] either. *)
Theorem merge_counts_and_provenance (st : state) (kg : kg_result) :
  let m := merge_ids_node st kg in
  let v := vector_ids st in
  let k := kg_ids kg in
  (sc_chroma (counts m) = length v
   /\ sc_kg (counts m) = length k
   /\ sc_both (counts m) = length (filter (fun i => i ∈ k) v)
   /\ sc_selected (counts m) = length (final_ids m))
  /\ (forall top : Z,
        let m' := merge_ids_node (with_top_k top st) kg in
        sc_chroma (counts m') = sc_chroma (counts m)
        /\ sc_kg (counts m') = sc_kg (counts m)
        /\ sc_both (counts m') = sc_both (counts m)
        /\ provenance m' = provenance m)
  /\ (forall id : string,
        provenance m !! id =
          if decide (id ∈ v \/ id ∈ k)
          then Some (tag_if (id ∈ v) "chroma" ∪ tag_if (id ∈ k) "kg")
          else None)
  /\ (NoDup v -> NoDup k ->
        sc_chroma (counts m) = size (list_to_set v : gset string)
        /\ sc_kg (counts m) = size (list_to_set k : gset string)
        /\ sc_both (counts m)
           = size ((list_to_set v : gset string) ∩ list_to_set k)).
Proof.
  cbv zeta.
  destruct (merge_counts_plain st kg) as (Hc & Hk & Hs).
  pose proof (merge_both st kg) as Hb.
  split; [by rewrite Hc, Hk, Hb, Hs|]. split; [|split].
  - intros top.
    destruct (merge_counts_plain (with_top_k top st) kg) as (Hc' & Hk' & _).
    rewrite Hc', Hk', (merge_both (with_top_k top st) kg), Hc, Hk, Hb.
    repeat split. apply map_eq. intros id. by rewrite !merge_provenance.
  - apply merge_provenance.
  - intros Hv Hkg. rewrite Hc, Hk, Hb, !size_list_to_set by done.
    repeat split.
    rewrite <- (size_list_to_set (C := gset string)) by by apply NoDup_filter.
    f_equal. apply set_eq. intros y.
    rewrite elem_of_list_to_set, list_elem_of_filter. set_solver.
Qed.

Lemma merge_counts_and_provenance_witness :
  NoDup (vector_ids (fusion_state 3)) /\ NoDup (kg_ids fusion_kg)
  /\ (sc_chroma (counts (merge_ids_node (fusion_state 3) fusion_kg))
      = size (list_to_set (vector_ids (fusion_state 3)) : gset string)
      /\ sc_kg (counts (merge_ids_node (fusion_state 3) fusion_kg))
         = size (list_to_set (kg_ids fusion_kg) : gset string)
      /\ sc_both (counts (merge_ids_node (fusion_state 3) fusion_kg))
         = size ((list_to_set (vector_ids (fusion_state 3)) : gset string)
                 ∩ list_to_set (kg_ids fusion_kg))).
Proof.
  assert (Hv : NoDup (vector_ids (fusion_state 3)))
    by (apply (bool_decide_unpack _); by vm_compute).
  assert (Hk : NoDup (kg_ids fusion_kg))
    by (apply (bool_decide_unpack _); by vm_compute).
  destruct (merge_counts_and_provenance (fusion_state 3) fusion_kg)
    as (_ & _ & _ & H).
  exact (conj Hv (conj Hk (H Hv Hk))).
Defined.

(** The counts of the fusion example: 3 vector ids, 2 graph ids, 1 in
    both, 3 selected. *)
Example fusion_counts :
  let c := counts (merge_ids_node (fusion_state 3) fusion_kg) in
  sc_chroma c = 3 /\ sc_kg c = 2 /\ sc_both c = 1 /\ sc_selected c = 3.
Proof. by vm_compute. Qed.

(** C5 as stated fails: [c4] is cut off by [top_k = 3] and still has
    its provenance entry. *)
Lemma merge_provenance_not_truncated :
  final_ids (merge_ids_node (fusion_state 3) fusion_kg) = ["c3"; "c1"; "c2"]
  /\ ("c4" ∉ final_ids (merge_ids_node (fusion_state 3) fusion_kg))
  /\ provenance (merge_ids_node (fusion_state 3) fusion_kg) !! "c4"
     = Some {["chroma"]}.
Proof.
  split; [reflexivity|]. split.
  - apply (bool_decide_unpack _). by vm_compute.
  - rewrite merge_provenance. by vm_compute.
Qed.

End MergeClaims.

(** ** The graph matcher *)

Lemma is_nil_spec {A : Type} (l : list A) : is_nil l = true <-> l = [].
Proof. by destruct l. Qed.

Section Matcher.

Implicit Types (st : state) (db : store).

(** The matcher does not look at [kg_limit]. *)
Lemma kg_limit_ignored st db (k : Z) :
  neo4j_query_by_entities_node (with_kg_limit k st) db
  = neo4j_query_by_entities_node st db.
Proof. reflexivity. Qed.

(** C4 at a concrete input: with [kg_limit = 1], two distinct matched
    entity keys contribute the two returned chunks. *)
Lemma kg_limit_exceeded :
  let st := query_state [ent "PERSON" "a rao"; ent "ORG" "acme"] 1 false in
  let keys : gset string := list_to_set ["PERSON|arao"; "ORG|acme"] in
  kg_limit st = 1%Z
  /\ kg_ids <$> matcher_result st (Reachable two_entities) = Some ["doc:1"; "doc:2"]
  /\ kg_matched_keys <$> matcher_result st (Reachable two_entities) = Some (Some keys)
  /\ size keys = 2.
Proof.
  cbv zeta. split; [reflexivity|]. split; [vm_compute; reflexivity|].
  split; [vm_compute; reflexivity|].
  rewrite size_list_to_set; [reflexivity|].
  apply (bool_decide_unpack _). vm_compute. exact I.
Qed.

(** The reads of the matcher, path by path. *)
Lemma matcher_reads_cases st db :
  let ents := query_entities st in
  let keys := request_keys ents in
  matcher_reads st db =
    if is_nil keys || negb (truthy (neo4j_password st)) then []
    else match db with
         | Rejected _ => []
         | Unreachable _ => [(QStrict, None)]
         | Reachable g =>
             let rows := query_tx_strict g keys (request_norm_keys ents)
                           (request_phonetics ents) (kg_limit st) in
             if is_nil rows && negb (default true (strict_match st))
             then [(QStrict, Some rows);
                   (QTextOnly,
                    Some (query_tx_text_only g (request_norm_aliases ents)
                            (request_phonetics ents) (kg_limit st)))]
             else [(QStrict, Some rows)]
         end.
Proof.
  cbv zeta. unfold matcher_reads, run, neo4j_query_by_entities_node.
  destruct (is_nil (request_keys (query_entities st))); [done|].
  destruct (truthy (neo4j_password st)); [|done]. cbn [negb orb].
  destruct db as [msg|msg|g]; [done|done|].
  unfold try_except, mbind, io_bind, open_driver, run_session, mret, io_ret. cbn [app].
  by destruct (is_nil _ && negb _).
Qed.

(** What the matcher returns, path by path; it raises on one of them. *)
Lemma matcher_result_cases st db :
  matcher_result st db
  = (let keys := request_keys (query_entities st) in
     if is_nil keys then Some (KgResult [] true None (Some ∅) (Some []) None None)
     else if negb (truthy (neo4j_password st))
     then Some (KgResult [] false (Some "neo4j_password not provided") None None None None)
     else match db with
          | Rejected _ => None
          | Unreachable msg =>
              Some (KgResult [] false (Some msg) (Some ∅) (Some keys) None None)
          | Reachable g => Some (kg_from_rows st keys (matcher_rows st g))
          end).
Proof.
  cbv zeta. unfold matcher_result, matcher_rows, run, neo4j_query_by_entities_node.
  destruct (is_nil (request_keys (query_entities st))); [done|].
  destruct (truthy (neo4j_password st)); [|done]. cbn [negb].
  destruct db as [msg|msg|g]; [done|done|].
  unfold try_except, mbind, io_bind, open_driver, run_session, mret, io_ret. cbn [app].
  by destruct (is_nil _ && negb _).
Qed.

Lemma matcher_result_reachable st (g : graph) :
  matcher_result st (Reachable g)
  = Some
      (let keys := request_keys (query_entities st) in
       if is_nil keys then KgResult [] true None (Some ∅) (Some []) None None
       else if negb (truthy (neo4j_password st))
       then KgResult [] false (Some "neo4j_password not provided") None None None None
       else kg_from_rows st keys (matcher_rows st g)).
Proof.
  rewrite matcher_result_cases. cbv zeta.
  destruct (is_nil _); [done|]. by destruct (negb _).
Qed.

(** On every path, whatever the store: the relaxed query is read only
    after a strict read that returned no row. *)
Lemma relaxed_read_follows_empty_strict_read st db :
  (executed QTextOnly (matcher_reads st db)
   <-> returned_rows QStrict [] (matcher_reads st db)
       /\ default true (strict_match st) = false)
  /\ (forall rows, rows <> [] ->
        returned_rows QStrict rows (matcher_reads st db) ->
        ~ executed QTextOnly (matcher_reads st db)).
Proof.
  rewrite matcher_reads_cases. cbv zeta.
  unfold executed, returned_rows.
  destruct (is_nil (request_keys _) || negb (truthy _)).
  { split; [split|]; [intros [? H]|intros [H _]|intros ? _ H];
      by apply elem_of_nil in H. }
  destruct db as [msg|msg|g].
  { split; [split|]; [intros [? H]|intros [H _]|intros ? _ H];
      by apply elem_of_nil in H. }
  { split; [split|]; [intros [? H]|intros [H _]|intros ? _ H];
      apply list_elem_of_singleton in H; congruence. }
  destruct (query_tx_strict _ _ _ _ _) as [|r rows] eqn:Hrows;
    destruct (default true (strict_match st)); cbn [is_nil andb negb].
  - split; [split|].
    + intros [? H]. apply list_elem_of_singleton in H. congruence.
    + intros [_ ?]. congruence.
    + intros rows' Hne H. apply list_elem_of_singleton in H. congruence.
  - split; [split|].
    + intros _. split; [left|done].
    + intros _. eexists. right. left.
    + intros rows' Hne H. rewrite elem_of_cons, list_elem_of_singleton in H.
      destruct H as [H|H]; congruence.
  - split; [split|].
    + intros [? H]. apply list_elem_of_singleton in H. congruence.
    + intros [_ ?]. congruence.
    + intros rows' _ _ [? H]. apply list_elem_of_singleton in H. congruence.
  - split; [split|].
    + intros [? H]. apply list_elem_of_singleton in H. congruence.
    + intros [H _]. apply list_elem_of_singleton in H. congruence.
    + intros rows' _ _ [? H]. apply list_elem_of_singleton in H. congruence.
Qed.

(** C7: with a usable query entity, a password and a reachable store,
    the strict query is read, with the keys of the request, and
    nothing else is returned for it; the relaxed, label-agnostic query
    is read exactly when the strict query gave no row and the caller did
    not ask for strict matching only, and the result is then computed
    from the relaxed rows; otherwise, and so whenever the strict query
    gave a row, the relaxed query is not read and the result is
    computed from the strict rows alone. *)
Theorem relaxed_fallback_iff st (g : graph) :
  request_keys (query_entities st) <> [] ->
  truthy (neo4j_password st) = true ->
  let ents := query_entities st in
  let keys := request_keys ents in
  let strict_rows :=
    query_tx_strict g keys (request_norm_keys ents) (request_phonetics ents) (kg_limit st) in
  let relaxed_rows :=
    query_tx_text_only g (request_norm_aliases ents) (request_phonetics ents) (kg_limit st) in
  let reads := matcher_reads st (Reachable g) in
  (forall rows, returned_rows QStrict rows reads <-> rows = strict_rows)
  /\ (executed QTextOnly reads
      <-> strict_rows = [] /\ default true (strict_match st) = false)
  /\ (strict_rows <> [] -> ~ executed QTextOnly reads)
  /\ (executed QTextOnly reads ->
      returned_rows QTextOnly relaxed_rows reads
      /\ matcher_result st (Reachable g) = Some (kg_from_rows st keys relaxed_rows))
  /\ (~ executed QTextOnly reads ->
      matcher_result st (Reachable g) = Some (kg_from_rows st keys strict_rows)).
Proof.
  intros Hk Hp. cbv zeta.
  rewrite matcher_reads_cases, matcher_result_reachable. cbv zeta.
  unfold matcher_rows, executed, returned_rows. cbv zeta.
  destruct (is_nil (request_keys _)) eqn:Hn; [by apply is_nil_spec in Hn|].
  rewrite Hp. cbn [negb orb].
  set (strict_rows := query_tx_strict _ _ _ _ _).
  set (relaxed_rows := query_tx_text_only _ _ _ _).
  destruct (is_nil strict_rows && negb (default true (strict_match st))) eqn:Hb.
  - apply andb_true_iff in Hb as [Hr%is_nil_spec Hs%negb_true_iff].
    split; [|split; [|split; [|split]]].
    + intros rows. rewrite elem_of_cons, list_elem_of_singleton. split.
      * intros [H|H]; congruence.
      * intros ->. by left.
    + split; [done|]. intros _. eexists. right. left.
    + done.
    + intros _. split; [right; left|done].
    + intros H. destruct H. eexists. right. left.
  - assert (Hno : ~ (exists res, (QTextOnly, res) ∈ [(QStrict, Some strict_rows)])).
    { intros [? H]. apply list_elem_of_singleton in H. congruence. }
    split; [|split; [|split; [|split]]].
    + intros rows. rewrite list_elem_of_singleton. split; [congruence|by intros ->].
    + split; [done|]. intros [Hr Hs]. rewrite Hr, Hs in Hb. done.
    + done.
    + done.
    + done.
Qed.

Lemma relaxed_fallback_iff_witness :
  let st := State [ent "ORG" "a rao"] false (Some false) (Some "secret") 25 10 [] [] true in
  request_keys (query_entities st) <> []
  /\ truthy (neo4j_password st) = true
  /\ executed QTextOnly (matcher_reads st (Reachable two_entities))
  /\ kg_ids <$> matcher_result st (Reachable two_entities) = Some ["doc:1"].
Proof.
  cbv zeta.
  set (st := State [ent "ORG" "a rao"] false (Some false) (Some "secret") 25 10 [] [] true).
  assert (H1 : request_keys (query_entities st) <> []) by (vm_compute; discriminate).
  assert (H2 : truthy (neo4j_password st) = true) by reflexivity.
  split; [exact H1|]. split; [exact H2|].
  pose proof (relaxed_fallback_iff st two_entities H1 H2) as H. cbv zeta in H.
  destruct H as (_ & Hiff & _ & Hres & _).
  assert (He : executed QTextOnly (matcher_reads st (Reachable two_entities))).
  { apply Hiff. split; [vm_compute; reflexivity|reflexivity]. }
  split; [exact He|]. destruct (Hres He) as [_ ->]. vm_compute. reflexivity.
Defined.

(** C6 as stated fails when the query has no entity: the matcher
    returns before it looks at the password or the store, and reports
    the graph as available, without a diagnostic. *)
Lemma no_entities_reports_available :
  truthy (neo4j_password no_entities_state) = false
  /\ kg_available <$> matcher_result no_entities_state (Unreachable "connection refused")
     = Some true
  /\ kg_error <$> matcher_result no_entities_state (Unreachable "connection refused")
     = Some None.
Proof. repeat split. Qed.

Lemma merge_without_kg st (kg : kg_result) :
  kg_ids kg = [] ->
  final_ids (merge_ids_node st kg) = slice_to (keep_first (embed_ids st)) (top_k st).
Proof.
  intros Hk. rewrite merge_order, Hk. unfold kg_first. cbn [keep_first app].
  f_equal. apply filter_all. intros y _ H. by apply elem_of_nil in H.
Qed.

Lemma kg_then_merge_result st db :
  kg_then_merge st db = (fun kg => (kg, merge_ids_node st kg)) <$> matcher_result st db.
Proof. unfold kg_then_merge, matcher_result. by destruct (run _).1. Qed.

Lemma merge_reports_kg_available st (kg : kg_result) :
  sc_kg_available (counts (merge_ids_node st kg)) = kg_available kg.
Proof. unfold merge_ids_node. by repeat destruct (add_unseen _ _ _). Qed.

(** C6, amended: when some query entity has a non-empty text, and the
    password is missing or the driver takes the URI and the store is
    unreachable, the matcher returns (it does not raise) no chunk id,
    [kg_available = False] and a diagnostic: the fixed text for a
    missing password, else the message of the store's exception, so
    that the diagnostic is empty only when that message is; the merge
    then gives the vector ids, each once, cut to [top_k], and reports
    [kg_available = False].  With a password and a URI that the driver
    rejects the matcher raises: the driver is made outside the [try]. *)
Theorem kg_unavailable_degrades st db :
  request_keys (query_entities st) <> [] ->
  (truthy (neo4j_password st) = false \/ (exists msg, db = Unreachable msg) ->
   exists kg m diag,
     kg_then_merge st db = Some (kg, m)
     /\ kg_ids kg = []
     /\ kg_available kg = false
     /\ kg_error kg = Some diag
     /\ (truthy (neo4j_password st) = false -> diag = "neo4j_password not provided")
     /\ (truthy (neo4j_password st) = true -> db = Unreachable diag)
     /\ (diag = "" -> db = Unreachable "")
     /\ final_ids m = slice_to (keep_first (embed_ids st)) (top_k st)
     /\ sc_kg_available (counts m) = false)
  /\ (truthy (neo4j_password st) = true -> (exists msg, db = Rejected msg) ->
      kg_then_merge st db = None).
Proof.
  intros Hkeys. rewrite kg_then_merge_result, matcher_result_cases. cbv zeta.
  destruct (is_nil (request_keys (query_entities st))) eqn:Hn;
    [by apply is_nil_spec in Hn|].
  destruct (truthy (neo4j_password st)) eqn:Epw; cbn [negb].
  - split.
    + intros [?|[msg ->]]; [done|]. cbn [fmap option_fmap option_map].
      eexists _, _, msg. split; [reflexivity|]. cbn [kg_ids kg_available kg_error].
      split; [done|]. split; [done|]. split; [done|]. split; [done|]. split; [done|].
      split; [by intros ->|]. split; [by apply merge_without_kg|].
      by rewrite merge_reports_kg_available.
    + by intros _ [msg ->].
  - split; [|done]. intros _. cbn [fmap option_fmap option_map].
    eexists _, _, _. split; [reflexivity|]. cbn [kg_ids kg_available kg_error].
    split; [done|]. split; [done|]. split; [done|]. split; [done|]. split; [done|].
    split; [done|]. split; [by apply merge_without_kg|].
    by rewrite merge_reports_kg_available.
Qed.

Lemma kg_unavailable_degrades_witness :
  let st := State [ent "ORG" "acme"] false (Some true) (Some "secret") 25 2
              ["c1"; "c2"; "c4"] [] true in
  request_keys (query_entities st) <> []
  /\ (exists kg m,
        kg_then_merge st (Unreachable "connection refused") = Some (kg, m)
        /\ kg_ids kg = []
        /\ kg_available kg = false
        /\ kg_error kg = Some "connection refused"
        /\ final_ids m = ["c1"; "c2"]
        /\ sc_kg_available (counts m) = false)
  /\ kg_then_merge st (Rejected "URI scheme 'http' is not supported") = None.
Proof.
  cbv zeta.
  set (st := State [ent "ORG" "acme"] false (Some true) (Some "secret") 25 2
               ["c1"; "c2"; "c4"] [] true).
  assert (H1 : request_keys (query_entities st) <> []) by (vm_compute; discriminate).
  split; [exact H1|]. split.
  - destruct (proj1 (kg_unavailable_degrades st (Unreachable "connection refused") H1))
      as (kg & m & diag & Hr & Hi & Ha & He & _ & Hd & _ & Hf & Hs).
    { right. by eexists. }
    specialize (Hd eq_refl). injection Hd as <-.
    exists kg, m. repeat split; done.
  - apply (proj2 (kg_unavailable_degrades st (Rejected "URI scheme 'http' is not supported") H1));
      [reflexivity|by eexists].
Defined.

Lemma fuzzy_reason_empty : fuzzy_reason ∅ = false.
Proof. unfold fuzzy_reason. by rewrite !bool_decide_eq_false_2 by set_solver. Qed.

Lemma fold_reasons_none (rows : list row) :
  forall (d : gmap string (gset string)) (cid : string),
    d !! cid = None -> cid ∉ List.map row_id rows ->
    fold_left (fun d r => add_to_set d (row_id r) (row_reason r)) rows d !! cid = None.
Proof.
  induction rows as [|r rows IH]; intros d cid Hd Hn; cbn [fold_left]; [done|].
  cbn [List.map] in Hn. apply not_elem_of_cons in Hn as [Hne Hn].
  apply IH; [|done]. unfold add_to_set. by rewrite lookup_insert_ne.
Qed.

Lemma add_unseen_fresh (ids : list string) :
  (add_unseen ids [] ∅).1 = keep_first ids.
Proof.
  rewrite add_unseen_spec. cbn [fst app]. apply filter_all. set_solver.
Qed.

Lemma fold_append_tag (tag : string) (l : list string) :
  forall (d : gmap string (list string)) (cid : string),
    NoDup l -> (forall x, x ∈ l -> d !! x = None) ->
    fold_left (fun d c => append_to_list d c tag) l d !! cid
    = if decide (cid ∈ l) then Some [tag] else d !! cid.
Proof.
  induction l as [|x l IH]; intros d cid Hnd Hd; cbn [fold_left].
  - case_decide as H; [by apply elem_of_nil in H|done].
  - apply NoDup_cons in Hnd as [Hx Hnd].
    rewrite IH; [|done|].
    + unfold append_to_list. rewrite (Hd x) by left. cbn [default app].
      destruct (decide (cid = x)) as [->|Hne].
      * rewrite lookup_insert_eq. repeat case_decide; set_solver.
      * rewrite lookup_insert_ne by done. repeat case_decide; set_solver.
    + intros y Hy. unfold append_to_list. rewrite lookup_insert_ne by set_solver.
      apply Hd. by right.
Qed.

Lemma matcher_result_reasons st db (kg : kg_result) (reasons : gmap string (gset string)) :
  matcher_result st db = Some kg ->
  kg_match_reasons kg = Some reasons ->
  exists rows, kg = kg_from_rows st (request_keys (query_entities st)) rows.
Proof.
  rewrite matcher_result_cases. cbv zeta.
  destruct (is_nil (request_keys (query_entities st))).
  { intros [= <-]. discriminate. }
  destruct (negb (truthy (neo4j_password st))).
  { intros [= <-]. discriminate. }
  destruct db as [msg|msg|g].
  - discriminate.
  - intros [= <-]. discriminate.
  - intros [= <-] _. eexists. reflexivity.
Qed.

Lemma filter_elem {A} (f : A -> bool) (l : list A) (x : A) :
  x ∈ List.filter f l <-> x ∈ l /\ f x = true.
Proof. rewrite !list_elem_of_In. apply filter_In. Qed.

Lemma NoDup_list_filter {A} (f : A -> bool) (l : list A) :
  NoDup l -> NoDup (List.filter f l).
Proof.
  induction 1 as [|x l Hx _ IH]; cbn [List.filter]; [constructor|].
  destruct (f x); [|done]. constructor; [|done].
  rewrite filter_elem. by intros [? _].
Qed.

(** C8, amended: after a matcher run that produced match reasons, a
    chunk gets the auxiliary tag exactly when its reason set contains
    "alias" or "phonetic" and the query had an entity found by the
    ruler ([query_has_ruler]); without such an entity no chunk is
    tagged. *)
Theorem fuzzy_tag_attached st db (kg : kg_result) (m : merge_result)
    (reasons : gmap string (gset string)) (cid : string) :
  kg_then_merge st db = Some (kg, m) ->
  kg_match_reasons kg = Some reasons ->
  provenance_extra m !! cid
  = if query_has_ruler st && fuzzy_reason (default ∅ (reasons !! cid))
    then Some [ruler_tag] else None.
Proof.
  rewrite kg_then_merge_result. intros Hm Hr.
  destruct (matcher_result st db) as [kg'|] eqn:Ekg; [|done].
  injection Hm as -> <-.
  destruct (matcher_result_reasons st db kg reasons Ekg Hr) as [rows ->].
  injection Hr as <-.
  unfold merge_ids_node. repeat destruct (add_unseen _ _ _).
  cbn [provenance_extra kg_ruler_hit_ids kg_from_rows].
  match goal with
  | |- context [default [] (Some ?x)] => change (default [] (Some x)) with x
  end.
  rewrite add_unseen_fresh.
  set (rm := fold_left _ rows ∅).
  destruct (query_has_ruler st); cbn [andb].
  2:{ cbn [fold_left]. apply lookup_empty. }
  rewrite fold_append_tag.
  - rewrite lookup_empty. case_decide as Hin.
    + apply filter_elem in Hin as [_ ->]. done.
    + destruct (fuzzy_reason (default ∅ (rm !! cid))) eqn:Ef; [|done].
      destruct Hin. apply filter_elem. split; [|done].
      apply keep_first_elem. destruct (decide (cid ∈ List.map row_id rows)); [done|].
      unfold rm in Ef. rewrite fold_reasons_none in Ef by done.
      cbn [default] in Ef. by rewrite fuzzy_reason_empty in Ef.
  - apply NoDup_list_filter, keep_first_NoDup.
  - intros. apply lookup_empty.
Qed.

Lemma fuzzy_tag_attached_witness :
  let st := query_state [ent "ORG" "Rao"] 25 true in
  let kg := kg_from_rows st (request_keys (query_entities st)) alias_rows in
  let reasons := add_to_set ∅ "doc:1" "alias" in
  kg_then_merge st (Reachable two_entities) = Some (kg, merge_ids_node st kg)
  /\ kg_match_reasons kg = Some reasons
  /\ provenance_extra (merge_ids_node st kg) !! "doc:1"
     = if query_has_ruler st && fuzzy_reason (default ∅ (reasons !! "doc:1"))
       then Some [ruler_tag] else None.
Proof.
  cbv zeta.
  assert (H1 : kg_then_merge (query_state [ent "ORG" "Rao"] 25 true)
                 (Reachable two_entities)
               = Some (kg_from_rows (query_state [ent "ORG" "Rao"] 25 true)
                         (request_keys [ent "ORG" "Rao"]) alias_rows,
                       merge_ids_node (query_state [ent "ORG" "Rao"] 25 true)
                         (kg_from_rows (query_state [ent "ORG" "Rao"] 25 true)
                            (request_keys [ent "ORG" "Rao"]) alias_rows)))
    by (vm_compute; reflexivity).
  split; [exact H1|]. split; [reflexivity|].
  exact (fuzzy_tag_attached _ _ _ _ _ "doc:1" H1 eq_refl).
Defined.

(** C8 as stated fails when the query has no entity found by the
    ruler: the chunk [doc:1] is matched through an alias and gets no
    tag. *)
Lemma fuzzy_match_untagged :
  let st := query_state [ent "ORG" "Rao"] 25 false in
  kg_match_reasons <$> matcher_result st (Reachable two_entities)
  = Some (Some (add_to_set ∅ "doc:1" "alias"))
  /\ "alias" ∈ default ∅ (add_to_set ∅ "doc:1" "alias" !! "doc:1")
  /\ (fun p => provenance_extra p.2 !! "doc:1")
       <$> kg_then_merge st (Reachable two_entities)
     = Some None.
Proof.
  cbv zeta. split; [vm_compute; reflexivity|]. split.
  - unfold add_to_set. rewrite lookup_insert_eq. set_solver.
  - vm_compute; reflexivity.
Qed.

End Matcher.

(** ** Keyword augmentation *)

Section Keywords.

Implicit Types (kw w s t d pre post : string) (p : option ascii).

Lemma sapp_cons (c : ascii) s t :
  String.append (String c s) t = String c (String.append s t).
Proof. reflexivity. Qed.

Lemma sapp_assoc s1 s2 s3 :
  String.append (String.append s1 s2) s3 = String.append s1 (String.append s2 s3).
Proof. induction s1 as [|c s1 IH]; [done|]. by rewrite !sapp_cons, IH. Qed.

Lemma sapp_length s1 s2 :
  String.length (String.append s1 s2) = String.length s1 + String.length s2.
Proof.
  induction s1 as [|c s1 IH]; [done|]. rewrite sapp_cons. cbn [String.length].
  by rewrite IH.
Qed.

Lemma sapp_inj s1 : forall s2 t1 t2,
  String.length s1 = String.length s2 ->
  String.append s1 t1 = String.append s2 t2 -> s1 = s2 /\ t1 = t2.
Proof.
  induction s1 as [|c s1 IH]; intros [|c' s2] t1 t2 Hl; try done.
  rewrite !sapp_cons. intros [= -> H]. cbn [String.length] in Hl.
  destruct (IH s2 t1 t2) as [-> ->]; [lia|done|done].
Qed.

Lemma last_snoc d c : Str.last (String.append d (String c "")) = Some c.
Proof.
  induction d as [|a d IH]; [done|]. rewrite sapp_cons. cbn [Str.last].
  destruct (String.append d (String c "")) eqn:E; [by destruct d|done].
Qed.

Lemma lower_length w : String.length (Str.lower w) = String.length w.
Proof. induction w as [|c w IH]; [done|]. cbn. by rewrite IH. Qed.

Lemma take_app w t : Str.take (String.length w) (String.append w t) = w.
Proof.
  induction w as [|c w IH]; [by destruct t|].
  rewrite sapp_cons. cbn [String.length Str.take]. by rewrite IH.
Qed.

Lemma taken_app w t : taken (String.append w t) t = w.
Proof.
  unfold taken. rewrite sapp_length.
  replace (String.length w + String.length t - String.length t) with (String.length w) by lia.
  apply take_app.
Qed.

Lemma last_cons (c : ascii) w p :
  match Str.last (String c w) with Some x => Some x | None => p end
  = match Str.last w with Some x => Some x | None => Some c end.
Proof.
  revert c p. induction w as [|a w IH]; intros c p; [done|].
  change (Str.last (String c (String a w))) with (Str.last (String a w)).
  by rewrite (IH a p), (IH a (Some c)).
Qed.

(** What [eat_ci] consumes. *)
Lemma eat_ci_spec kw : forall p s p' t,
  eat_ci kw p s = Some (p', t) <->
  exists w, s = String.append w t /\ Str.lower w = Str.lower kw
            /\ p' = match Str.last w with Some c => Some c | None => p end.
Proof.
  induction kw as [|a kw IH]; intros p s p' t; cbn [eat_ci].
  - split.
    + intros [= <- <-]. exists "". by repeat split.
    + intros (w & -> & Hw & ->). destruct w; [done|discriminate].
  - destruct s as [|c s].
    { split; [done|]. intros ([|c w] & Hs & Hw & _); discriminate. }
    destruct (Chr.lit_ci a c) eqn:Hc.
    + rewrite IH. split.
      * intros (w & -> & Hw & ->). exists (String c w). split; [reflexivity|]. split.
        { unfold Str.lower in *. cbn [Str.map]. rewrite Hw. f_equal.
          unfold Chr.lit_ci in Hc. by apply Ascii.eqb_eq in Hc. }
        by rewrite last_cons.
      * intros ([|c' w] & Hs & Hw & ->); [discriminate|].
        injection Hs as -> ->. unfold Str.lower in Hw. cbn [Str.map] in Hw.
        injection Hw as _ Hw. exists w. split; [done|]. split; [done|].
        by rewrite last_cons.
    + split; [done|]. intros ([|c' w] & Hs & Hw & _); [discriminate|].
      injection Hs as -> ->. unfold Str.lower in Hw. cbn [Str.map] in Hw.
      injection Hw as Hc' _. unfold Chr.lit_ci in Hc.
      rewrite Hc', Ascii.eqb_refl in Hc. discriminate.
Qed.

Lemma exec_LitCI {R : Type} kw : forall n (s : mstate) (k : mstate -> option R),
  exec n (LitCI kw) s k
  = match eat_ci kw (prev s) (rest s) with
    | Some (p', t) => k (MState p' t (caps s))
    | None => None
    end.
Proof.
  induction kw as [|a kw IH]; intros n s k; cbn [LitCI eat_ci].
  - rewrite exec_Eps. by destruct s.
  - rewrite exec_Seq, exec_Cls. destruct (rest s) as [|c t]; [done|].
    destruct (Chr.lit_ci a c); [|done]. by rewrite IH.
Qed.

(** The keyword pattern matches at a position exactly when the keyword
    stands there, up to case, between non-word characters. *)
Lemma match_at_keyword kw p s (m : rmatch) :
  match_at (keyword_pat kw) p s = Some m <->
  exists w post,
    s = String.append w post /\ Str.lower w = Str.lower kw
    /\ is_word_opt p = false /\ is_word_opt (Str.head post) = false
    /\ m = RMatch w [].
Proof.
  unfold match_at, keyword_pat.
  rewrite exec_Seq, exec_NotBehind, exec_Seq, exec_LitCI. cbn [prev rest caps].
  assert (Hcore :
    match eat_ci kw p s with
    | Some (p', t) =>
        exec (S (String.length s)) (NotAhead Chr.is_word) (MState p' t [])
          (fun e => Some (RMatch (taken s (rest e)) (caps e)))
    | None => None
    end = Some m <->
    exists w post, s = String.append w post /\ Str.lower w = Str.lower kw
                   /\ is_word_opt (Str.head post) = false /\ m = RMatch w []).
  { destruct (eat_ci kw p s) as [[p' t]|] eqn:Ee.
    - apply eat_ci_spec in Ee as (w & -> & Hw & _).
      rewrite exec_NotAhead. cbn [rest caps]. rewrite taken_app. split.
      + intros H. exists w, t. split; [done|]. split; [done|].
        destruct t as [|c t]; [by injection H as <-|]. cbn [Str.head is_word_opt].
        destruct (Chr.is_word c); [done|]. by injection H as <-.
      + intros (w' & post & Hs & Hw' & Hpost & ->).
        apply sapp_inj in Hs as [<- <-].
        2:{ rewrite <- (lower_length w), <- (lower_length w'). congruence. }
        destruct t as [|c t]; [done|]. cbn [Str.head is_word_opt] in Hpost.
        by rewrite Hpost.
    - split; [done|]. intros (w & post & -> & Hw & _).
      assert (eat_ci kw p (String.append w post)
              = Some (match Str.last w with Some c => Some c | None => p end, post))
        as Hex by (apply eat_ci_spec; by exists w).
      congruence. }
  destruct p as [c|]; cbn [is_word_opt].
  - destruct (Chr.is_word c).
    + split; [done|]. by intros (? & ? & _ & _ & ? & _).
    + rewrite Hcore. naive_solver.
  - rewrite Hcore. naive_solver.
Qed.

Lemma standalone_here kw d s w :
  standalone_at kw (String.append d s) (String.length d) w <->
  exists post, s = String.append w post /\ Str.lower w = Str.lower kw
               /\ is_word_opt (Str.last d) = false
               /\ is_word_opt (Str.head post) = false.
Proof.
  split.
  - intros (pre & post & Heq & Hlen & Hw & Hpre & Hpost).
    symmetry in Heq. apply sapp_inj in Heq as [-> <-]; [|done]. by exists post.
  - intros (post & -> & Hw & Hd & Hpost). by exists d, post.
Qed.

Lemma standalone_nonempty kw text i w :
  kw <> "" -> standalone_at kw text i w ->
  exists k, String.length w = S k /\ i + S k <= String.length text.
Proof.
  intros Hkw (pre & post & -> & <- & Hw & _).
  assert (String.length w = String.length kw) as Hl
    by (rewrite <- (lower_length w), <- (lower_length kw); congruence).
  destruct kw as [|a kw]; [done|]. cbn [String.length] in Hl.
  exists (String.length kw). split; [done|]. rewrite !sapp_length. lia.
Qed.

(** The first match reported by [re.finditer] for the keyword pattern is
    the first standalone occurrence at or after the start of the scan. *)
Lemma finditer_first kw : kw <> "" -> forall s d,
  match finditer_go (keyword_pat kw) (Str.last d) s (String.length d) 0 with
  | (i, m) :: _ =>
      standalone_at kw (String.append d s) i (m_text m)
      /\ (forall j w, String.length d <= j ->
                      standalone_at kw (String.append d s) j w -> i <= j)
  | [] =>
      forall j w, String.length d <= j -> ~ standalone_at kw (String.append d s) j w
  end.
Proof.
  intros Hkw. induction s as [|c t IH]; intros d.
  - cbn [finditer_go]. intros j w Hj Hst.
    destruct (standalone_nonempty _ _ _ _ Hkw Hst) as (k & _ & Hk).
    rewrite sapp_length in Hk. cbn [String.length] in Hk. lia.
  - cbn [finditer_go].
    specialize (IH (String.append d (String c ""))).
    rewrite last_snoc, sapp_length, sapp_assoc in IH.
    cbn [String.length] in IH. rewrite Nat.add_1_r in IH.
    change (String.append (String c "") t) with (String c t) in IH.
    destruct (match_at (keyword_pat kw) (Str.last d) (String c t)) as [m|] eqn:Em.
    + pose proof Em as Em'.
      apply match_at_keyword in Em' as (w & post & Hs & Hw & Hd & Hpost & ->).
      assert (Hhere : standalone_at kw (String.append d (String c t)) (String.length d) w).
      { apply standalone_here. by exists post. }
      destruct (standalone_nonempty _ _ _ _ Hkw Hhere) as (k & Hk & _).
      cbn [m_text]. rewrite Hk. split; [done|]. by intros j w' Hj _.
    + assert (Hnot : forall w, ~ standalone_at kw (String.append d (String c t))
                                  (String.length d) w).
      { intros w (post & Hs & Hw & Hd & Hpost)%standalone_here.
        assert (match_at (keyword_pat kw) (Str.last d) (String c t) = Some (RMatch w []))
          as Hm by (apply match_at_keyword; by exists w, post).
        congruence. }
      destruct (finditer_go _ _ t _ 0) as [|[i m] ms].
      * intros j w Hj Hst. destruct (decide (j = String.length d)) as [->|Hne].
        { by apply (Hnot w). }
        apply (IH j w); [lia|done].
      * destruct IH as [Hst Hmin]. split; [done|].
        intros j w Hj Hst'. destruct (decide (j = String.length d)) as [->|Hne].
        { by destruct (Hnot w). }
        apply (Hmin j w); [lia|done].
Qed.

Lemma finditer_all (r : re) : forall s p pos skip i (m : rmatch),
  In (i, m) (finditer_go r p s pos skip) ->
  exists p' s', match_at r p' s' = Some m.
Proof.
  induction s as [|c t IH]; intros p pos skip i m; cbn [finditer_go]; [done|].
  destruct skip as [|k]; [|by apply IH].
  destruct (match_at r p (String c t)) as [m'|] eqn:Em; [|by apply IH].
  destruct (String.length (m_text m')); [by apply IH|].
  intros [[= <- <-]|H]; [by eexists _, _|by eapply IH].
Qed.

Lemma standalone_unique kw text i w w' :
  standalone_at kw text i w -> standalone_at kw text i w' -> w = w'.
Proof.
  intros (pre & post & -> & <- & Hw & _) (pre' & post' & Heq & Hlen & Hw' & _).
  apply sapp_inj in Heq as [-> Heq]; [|done].
  apply sapp_inj in Heq as [-> _]; [done|].
  rewrite <- (lower_length w), <- (lower_length w'). congruence.
Qed.

Lemma lower_cases (c a : ascii) : Chr.lower c = a -> c = a \/ c = Chr.upper a.
Proof.
  intros <-.
  assert (Ascii.eqb c (Chr.lower c) || Ascii.eqb c (Chr.upper (Chr.lower c)) = true) as H.
  { apply (class_subset_spec
             (fun c => Ascii.eqb c (Chr.lower c) || Ascii.eqb c (Chr.upper (Chr.lower c)))
             (fun _ => true) c); [by vm_compute|done]. }
  apply orb_true_iff in H as [H|H]; apply Ascii.eqb_eq in H; auto.
Qed.

Lemma variants_complete kw : forall w, Str.lower w = kw -> In w (variants kw).
Proof.
  induction kw as [|a kw IH]; intros [|c w] Hw; try discriminate.
  - by left.
  - unfold Str.lower in Hw. cbn [Str.map] in Hw. injection Hw as Hc Hw.
    cbn [variants]. unfold flat_map_list. rewrite <- flat_map_concat_map.
    apply in_flat_map. exists w. split; [by apply IH|].
    destruct (lower_cases c a Hc) as [->| ->]; [by left|right; by left].
Qed.

(** Every spelling of the keyword has the keyword as its normal form. *)
Lemma court_norm w : Str.lower w = "court" -> _normalize_text (Some w) = "court".
Proof.
  intros Hw%variants_complete.
  assert (forallb (fun w => String.eqb (_normalize_text (Some w)) "court")
            (variants "court") = true) as Hall by (by vm_compute).
  rewrite forallb_forall in Hall. by apply String.eqb_eq, Hall.
Qed.

Lemma keyword_loop_same (label norm : string) : forall ms (ex : gset string) ents,
  (forall i m, In (i, m) ms -> _normalize_text (Some (m_text m)) = norm) ->
  (keyword_loop label ms ex ents).1
  = if bool_decide (norm ∈ ex) then ents
    else match ms with
         | [] => ents
         | (i, m) :: _ => ents ++ [keyword_entity label i (m_text m)]
         end.
Proof.
  induction ms as [|[i m] ms IH]; intros ex ents Hall; cbn [keyword_loop].
  - by destruct (bool_decide _).
  - rewrite (Hall i m) by by left.
    destruct (bool_decide (norm ∈ ex)) eqn:E; [|done].
    rewrite IH, E; [done|]. intros j m' Hin. apply (Hall j m'). by right.
Qed.

Lemma existing_norm_spec (norm : string) (ents : list entity) :
  norm ∈ (list_to_set
            (List.map (fun e => _normalize_text (e_text e))
               (List.filter (fun e => truthy (e_text e)) ents)) : gset string)
  <-> known_norm norm ents.
Proof.
  rewrite elem_of_list_to_set, list_elem_of_In, in_map_iff. unfold known_norm.
  split.
  - intros (e & He & [Hin Ht]%filter_In). exists e. by rewrite list_elem_of_In.
  - intros (e & Hin & Ht & He). exists e. split; [done|].
    apply filter_In. by rewrite <- list_elem_of_In.
Qed.

Lemma court_length w : Str.lower w = "court" -> String.length w = 5.
Proof. intros H. by rewrite <- (lower_length w), H. Qed.

(** The result of the augmentation in terms of the matches of the
    keyword pattern. *)
Lemma augment_court_eval (text : string) (ents : list entity) :
  _augment_entities_with_keywords (Some text) (Some ents)
  = if bool_decide
         ("court" ∈ (list_to_set
                       (List.map (fun e => _normalize_text (e_text e))
                          (List.filter (fun e => truthy (e_text e)) ents)) : gset string))
    then ents
    else match finditer (keyword_pat "court") text with
         | [] => ents
         | (i, m) :: _ => ents ++ [keyword_entity "ORG" i (m_text m)]
         end.
Proof.
  unfold _augment_entities_with_keywords, KEYWORD_ENTITY_MAP.
  change (default [] (Some ents)) with ents.
  change (default "" (Some text)) with text.
  cbn [keywords_loop].
  set (ex := list_to_set _ : gset string).
  assert (Hout : forall p : list entity * gset string,
             (let '(entities, existing_norm) := p in
              keywords_loop [] text existing_norm entities) = p.1) by by intros [? ?].
  rewrite Hout. apply (keyword_loop_same "ORG" "court").
  intros i m (p' & s' & Hm)%finditer_all.
  apply match_at_keyword in Hm as (w & post & _ & Hw & _ & _ & ->).
  by apply court_norm.
Qed.

Lemma finditer_court_first (text : string) :
  match finditer (keyword_pat "court") text with
  | (i, m) :: _ =>
      standalone_at "court" text i (m_text m)
      /\ (forall j w, standalone_at "court" text j w -> i <= j)
  | [] => forall j w, ~ standalone_at "court" text j w
  end.
Proof.
  pose proof (finditer_first "court" ltac:(done) text "") as Hfirst.
  cbn [Str.last String.length] in Hfirst.
  change (String.append "" text) with text in Hfirst.
  fold (finditer (keyword_pat "court") text) in Hfirst.
  destruct (finditer (keyword_pat "court") text) as [|[i0 m0] ms].
  - intros j w. apply Hfirst. lia.
  - destruct Hfirst as [Hst Hmin]. split; [done|].
    intros j w. apply Hmin. lia.
Qed.

(** The appending case. *)
Lemma augment_appends_court (text : string) (ents : list entity) (i : nat) w :
  first_standalone "court" text i w -> ~ known_norm "court" ents ->
  _augment_entities_with_keywords (Some text) (Some ents)
  = ents ++ [Entity (Some "ORG") (Some w) (Some (Z.of_nat i))
               (Some (Z.of_nat (i + 5))) (Some (Qmake 1 1)) None true].
Proof.
  intros [Hst Hmin] Hun. rewrite augment_court_eval.
  rewrite bool_decide_eq_false_2 by by rewrite existing_norm_spec.
  pose proof (finditer_court_first text) as Hfirst.
  destruct (finditer (keyword_pat "court") text) as [|[i0 m0] ms].
  - by destruct (Hfirst i w).
  - destruct Hfirst as [Hst0 Hmin0].
    assert (i = i0) as -> by (apply Nat.le_antisymm; [by eapply Hmin|by eapply Hmin0]).
    rewrite (standalone_unique _ _ _ _ _ Hst Hst0).
    unfold keyword_entity. rewrite (court_length (m_text m0)); [done|].
    by destruct Hst0 as (? & ? & _ & _ & ? & _).
Qed.



Lemma court_spelling_facts w :
  Str.lower w = "court" ->
  Str.strip w = w /\ Str.is_empty w = false
  /\ make_entity_key (Some "ORG") (Some w) = "ORG|court".
Proof.
  intros Hw%variants_complete.
  assert (forallb (fun w => String.eqb (Str.strip w) w && negb (Str.is_empty w)
                            && String.eqb (make_entity_key (Some "ORG") (Some w)) "ORG|court")
            (variants "court") = true) as Hall by (by vm_compute).
  rewrite forallb_forall in Hall. specialize (Hall w Hw).
  apply andb_true_iff in Hall as [[H1 H2]%andb_true_iff H3].
  apply String.eqb_eq in H1, H3. apply negb_true_iff in H2. done.
Qed.

(** The query side: the added entity reaches the query entities, under
    the key ORG|court. *)
Lemma query_entities_get_court (query : string) (ents : list entity) (i : nat) w :
  first_standalone "court" query i w -> ~ known_norm "court" ents ->
  In (QEnt (Some "ORG") (Some w) "ORG|court" None)
     (ner_query_entities query (Some ents)).1.
Proof.
  intros Hfirst Hun. unfold ner_query_entities. cbn [fst].
  change (default [] (Some ents)) with ents.
  rewrite (augment_appends_court query ents i w Hfirst Hun).
  destruct Hfirst as [(? & ? & _ & _ & Hw & _) _].
  destruct (court_spelling_facts w Hw) as (Hs & Hne & Hkey).
  rewrite List.filter_app, List.map_app. apply in_or_app. right.
  cbn [List.filter e_text default from_option id]. rewrite Hs, Hne. cbn [negb List.map].
  left. cbn [e_text e_label e_source default from_option id truthy Str.is_empty negb].
  by rewrite Hs, Hkey.
Qed.

(** The ingestion side: the added entity gives a row of the chunk,
    under the key ORG|court. *)
Lemma ingest_rows_get_court (obj : ner_item) (i : nat) w :
  first_standalone "court" (default "" (i_text obj)) i w ->
  ~ known_norm "court" (default [] (i_entities obj)) ->
  exists r, In r (ingest_rows_of obj)
            /\ r_label r = "ORG" /\ r_entity_text r = w /\ r_entity_key r = "ORG|court".
Proof.
  intros Hfirst Hun. unfold ingest_rows_of.
  rewrite (augment_appends_court _ _ i w Hfirst Hun).
  destruct Hfirst as [(? & ? & _ & _ & Hw & _) _].
  destruct (court_spelling_facts w Hw) as (Hs & Hne & Hkey).
  rewrite List.map_app, List.concat_app.
  cbn [List.map List.concat e_text e_label default from_option id].
  rewrite Hs, Hne. eexists. split; [apply in_or_app; right; left; reflexivity|].
  cbn [r_label r_entity_text r_entity_key]. done.
Qed.

End Keywords.

(** ** Where a match ends and what it captures *)

Lemma str_forallb_take (q : ascii -> bool) (n : nat) : forall s,
  Str.forallb q s = true -> Str.forallb q (Str.take n s) = true.
Proof.
  induction n as [|n IH]; intros [|c s]; cbn [Str.take Str.forallb]; try done.
  intros [Hc Hs]%andb_true_iff. by rewrite Hc, IH.
Qed.

Lemma eat_forallb (q : ascii -> bool) g : forall p s p' t,
  eat g p s = Some (p', t) -> Str.forallb q s = true -> Str.forallb q t = true.
Proof.
  induction g as [|c g IH]; intros p s p' t; cbn [eat].
  - by intros [= _ ->].
  - destruct s as [|d s]; [done|]. destruct (Ascii.eqb c d); [|done].
    cbn [Str.forallb]. intros H [_ Hs]%andb_true_iff. by eapply IH.
Qed.

(** A successful match hands its continuation a position that is not
    before the start, over the same kind of characters. *)
Lemma exec_sound {R : Type} (q : ascii -> bool) n :
  forall r s (k : mstate -> option R) x,
    within q s -> exec n r s k = Some x ->
    exists s', k s' = Some x /\ within q s'
               /\ String.length (rest s') <= String.length (rest s).
Proof.
  induction n as [|n IHn]; intros r;
    induction r as [|p|a IHa b IHb|a IHa b IHb|a IHa|a IHa|i a IHa|i| | |p|p];
    intros s k x Hs;
    rewrite ?exec_Eps, ?exec_Cls, ?exec_Seq, ?exec_Alt, ?exec_Grp, ?exec_Bref,
      ?exec_WordB, ?exec_Eos, ?exec_NotBehind, ?exec_NotAhead, ?exec_Star,
      ?exec_LazyStar;
    try discriminate.
  all: try (intros Hx; by exists s).
  all: try (destruct Hs as [Hq Hc]; destruct (rest s) as [|c t] eqn:Es; [done|];
            destruct (p c); [|done]; intros Hx; eexists; split; [exact Hx|];
            cbn [rest caps String.length]; cbn [Str.forallb] in Hq;
            apply andb_true_iff in Hq as [_ Hq]; repeat split; [done|done|lia]).
  all: try (intros Hx; destruct (IHa s _ x Hs Hx) as (s1 & Hx1 & Hs1 & Hl1);
            destruct (IHb s1 k x Hs1 Hx1) as (s2 & Hx2 & Hs2 & Hl2);
            exists s2; repeat split; [done|apply Hs2|apply Hs2|lia]).
  all: try (destruct (exec _ a s k) eqn:Ea;
            [intros [= <-]; by apply (IHa s k)|by apply IHb]).
  all: try (intros Hx; destruct (IHa s _ x Hs Hx) as (s1 & Hx1 & [Hq1 Hc1] & Hl1);
            eexists; split; [exact Hx1|]; cbn [rest caps]; split; [|done];
            split; [done|]; constructor; [|done]; cbn [snd];
            apply str_forallb_take; apply Hs).
  all: try (destruct (cap i (caps s)) as [g|]; [|done];
            destruct (eat g (prev s) (rest s)) as [[p t]|] eqn:Ee; [|done];
            intros Hx; eexists; split; [exact Hx|]; cbn [rest caps];
            split; [split; [by eapply eat_forallb, Hs|apply Hs]|by eapply eat_length]).
  all: try (destruct (xorb _ _); [|done]; intros Hx; by exists s).
  all: try (destruct (rest s) as [|c [|d t]] eqn:Es; [| |done];
            [intros Hx; exists s; by rewrite Es|];
            destruct (Ascii.eqb c "010"); [|done]; intros Hx; exists s; by rewrite Es).
  all: try (destruct (prev s) as [c|]; [destruct (p c); [done|]|];
            intros Hx; by exists s).
  all: try (destruct (rest s) as [|c t] eqn:Es; [|destruct (p c); [done|]];
            intros Hx; exists s; by rewrite Es).
  - destruct (exec (S n) a s _) eqn:Ea.
    + intros [= <-]. destruct (IHa s _ _ Hs Ea) as (s1 & Hx1 & Hs1 & Hl1).
      destruct (shorter s1 s); [|done].
      destruct (IHn (Star a) s1 k _ Hs1 Hx1) as (s2 & Hx2 & Hs2 & Hl2).
      exists s2. repeat split; [done|apply Hs2|apply Hs2|lia].
    + intros Hx. by exists s.
  - destruct (k s) eqn:Ek.
    + intros [= <-]. by exists s.
    + intros Ea. destruct (IHa s _ _ Hs Ea) as (s1 & Hx1 & Hs1 & Hl1).
      destruct (shorter s1 s); [|done].
      destruct (IHn (LazyStar a) s1 k _ Hs1 Hx1) as (s2 & Hx2 & Hs2 & Hl2).
      exists s2. repeat split; [done|apply Hs2|apply Hs2|lia].
Qed.

Lemma forallb_sapp (q : ascii -> bool) (a b : string) :
  Str.forallb q (String.append a b) = Str.forallb q a && Str.forallb q b.
Proof.
  induction a as [|c a IH]; [done|].
  rewrite sapp_cons. cbn [Str.forallb]. by rewrite IH, andb_assoc.
Qed.

Lemma forallb_always_true (s : string) : Str.forallb (fun _ => true) s = true.
Proof. by induction s. Qed.

Lemma within_always_true (s : mstate) : within (fun _ => true) s.
Proof.
  split; [apply forallb_always_true|].
  apply Forall_forall. intros c _. apply forallb_always_true.
Qed.

Lemma str_take_length (n : nat) : forall s,
  String.length (Str.take n s) = Nat.min n (String.length s).
Proof.
  induction n as [|n IH]; intros [|c s]; cbn [Str.take String.length]; try done.
  by rewrite IH.
Qed.

(** A match of a pattern that [consumes] ends after its start. *)
Lemma exec_consumes {R : Type} n : forall r s (k : mstate -> option R) x,
  consumes r = true -> exec n r s k = Some x ->
  exists s', k s' = Some x /\ String.length (rest s') < String.length (rest s).
Proof.
  intros r. induction r as [|p|a IHa b IHb|a IHa b IHb|a IHa|a IHa|i a IHa|i| | |p|p];
    intros s k x Hr; cbn [consumes] in Hr; try discriminate.
  - rewrite exec_Cls. destruct (rest s) as [|c t] eqn:Es; [done|].
    destruct (p c); [|done]. intros Hx. eexists. split; [exact Hx|]. cbn. lia.
  - rewrite exec_Seq. intros Hx. apply orb_true_iff in Hr as [Hr|Hr].
    + destruct (IHa s _ x Hr Hx) as (s1 & Hx1 & Hl1).
      destruct (exec_sound (fun _ => true) n b s1 k x (within_always_true _) Hx1)
        as (s2 & Hx2 & _ & Hl2).
      exists s2. split; [done|lia].
    + destruct (exec_sound (fun _ => true) n a s _ x (within_always_true _) Hx)
        as (s1 & Hx1 & _ & Hl1).
      destruct (IHb s1 k x Hr Hx1) as (s2 & Hx2 & Hl2).
      exists s2. split; [done|lia].
  - rewrite exec_Alt. apply andb_true_iff in Hr as [Ha Hb].
    destruct (exec n a s k) eqn:Ea.
    + intros [= <-]. by apply (IHa s k).
    + by apply IHb.
  - rewrite exec_Grp. intros Hx. destruct (IHa s _ x Hr Hx) as (s1 & Hx1 & Hl1).
    eexists. split; [exact Hx1|]. done.
Qed.

Lemma match_at_nonempty (r : re) (p : option ascii) (s : string) (m : rmatch) :
  consumes r = true -> match_at r p s = Some m ->
  exists k, String.length (m_text m) = S k.
Proof.
  intros Hr Hm. unfold match_at in Hm.
  destruct (exec_consumes _ _ _ _ _ Hr Hm) as (s' & [= <-] & Hl).
  cbn [m_text rest] in *. unfold taken. rewrite str_take_length.
  exists (String.length s - String.length (rest s') - 1). lia.
Qed.

(** The matched text and the groups are made of characters of the
    subject. *)
Lemma match_at_within (q : ascii -> bool) (r : re) (p : option ascii) (s : string)
    (m : rmatch) :
  Str.forallb q s = true -> match_at r p s = Some m ->
  Str.forallb q (m_text m) = true
  /\ Forall (fun c => Str.forallb q c.2 = true) (m_caps m).
Proof.
  intros Hs Hm. unfold match_at in Hm.
  assert (Hw : within q (MState p s [])) by (split; [done|constructor]).
  destruct (exec_sound q _ _ _ _ _ Hw Hm) as (s' & [= <-] & [Hq Hc] & _).
  cbn [m_text m_caps]. split; [|done]. by apply str_forallb_take.
Qed.

Lemma cap_within (q : ascii -> bool) (i : nat) (cs : list (nat * string)) (g : string) :
  Forall (fun c => Str.forallb q c.2 = true) cs -> cap i cs = Some g ->
  Str.forallb q g = true.
Proof.
  induction 1 as [|[j h] cs Hh _ IH]; cbn [cap]; [done|].
  destruct (i =? j)%nat; [|done]. by intros [= <-].
Qed.

(** A substitution keeps a class of characters when its replacements
    do. *)
Lemma sub_go_within (q : ascii -> bool) (r : re) (repl : rmatch -> string) :
  (forall m, Str.forallb q (m_text m) = true ->
             Forall (fun c => Str.forallb q c.2 = true) (m_caps m) ->
             Str.forallb q (repl m) = true) ->
  forall s p skip, Str.forallb q s = true ->
    Str.forallb q (sub_go r repl p s skip) = true.
Proof.
  intros Hrepl. induction s as [|c t IH]; intros p skip Hs; [done|].
  pose proof Hs as Hs'. cbn [Str.forallb] in Hs'.
  apply andb_true_iff in Hs' as [Hc Ht].
  cbn [sub_go]. destruct skip as [|k]; [|by apply IH].
  destruct (match_at r p (String c t)) as [m|] eqn:Em.
  - destruct (match_at_within q _ _ _ _ Hs Em) as [Hm1 Hm2].
    destruct (String.length (m_text m)).
    + cbn [Str.forallb]. by rewrite Hc, IH.
    + rewrite forallb_sapp, Hrepl, IH by done. done.
  - cbn [Str.forallb]. by rewrite Hc, IH.
Qed.

Lemma sub_within (q : ascii -> bool) (r : re) (repl : rmatch -> string) (s : string) :
  (forall m, Str.forallb q (m_text m) = true ->
             Forall (fun c => Str.forallb q c.2 = true) (m_caps m) ->
             Str.forallb q (repl m) = true) ->
  Str.forallb q s = true -> Str.forallb q (sub r repl s) = true.
Proof. intros. by apply sub_go_within. Qed.

Lemma sub_always_within (q : ascii -> bool) (r : re) (rep s : string) :
  Str.forallb q rep = true -> Str.forallb q s = true ->
  Str.forallb q (sub r (always rep) s) = true.
Proof. intros Hrep Hs. by apply sub_within. Qed.

Lemma group1_within (q : ascii -> bool) (m : rmatch) :
  Forall (fun c => Str.forallb q c.2 = true) (m_caps m) ->
  Str.forallb q (group1 m) = true.
Proof.
  intros Hc. unfold group1, group. destruct (cap 1 (m_caps m)) as [g|] eqn:Eg; [|done].
  by eapply cap_within.
Qed.

(** Deleting the characters of a class is filtering. *)
Lemma sub_cls_filter (p : ascii -> bool) : forall s pr,
  sub_go (Cls p) (always EmptyString) pr s 0 = Str.filter (fun c => negb (p c)) s.
Proof.
  induction s as [|c t IH]; intros pr; [done|].
  cbn [sub_go Str.filter]. unfold match_at. rewrite exec_Cls. cbn [rest].
  destruct (p c); cbn [negb].
  - cbn [m_text]. unfold taken. cbn [String.length].
    replace (S (String.length t) - String.length t) with 1 by lia.
    cbn [Str.take String.length]. unfold always. by rewrite IH.
  - by rewrite IH.
Qed.

Lemma star_total {R : Type} n a s (k : mstate -> option R) :
  (exists x, k s = Some x) -> exists x, exec (S n) (Star a) s k = Some x.
Proof. intros [x Hx]. rewrite exec_Star. destruct (exec _ a s _); eauto. Qed.

Lemma plus_cls_match (p : ascii -> bool) pr c t :
  p c = true -> exists m, match_at (Plus (Cls p)) pr (String c t) = Some m.
Proof.
  intros Hp. unfold match_at, Plus. rewrite exec_Seq, exec_Cls. cbn [rest].
  rewrite Hp. cbn [String.length]. apply star_total. eauto.
Qed.

(** After the runs of a class are replaced, no character of the class
    is left. *)
Lemma sub_go_run_avoids (p : ascii -> bool) (rep : string) :
  avoids p rep = true ->
  forall s pr skip, avoids p (sub_go (Plus (Cls p)) (always rep) pr s skip) = true.
Proof.
  intros Hrep. induction s as [|c t IH]; intros pr skip; [done|].
  cbn [sub_go]. destruct skip as [|k]; [|by apply IH].
  destruct (match_at _ pr (String c t)) as [m|] eqn:Em.
  - destruct (match_at_nonempty (Plus (Cls p)) _ _ _ eq_refl Em) as [k ->].
    unfold avoids, always in *. by rewrite forallb_sapp, Hrep, IH.
  - destruct (p c) eqn:Hp.
    + destruct (plus_cls_match p pr c t Hp) as [m Hm]. congruence.
    + unfold avoids in *. cbn [Str.forallb]. by rewrite Hp, IH.
Qed.

Lemma sub_run_avoids (p : ascii -> bool) (rep s : string) :
  avoids p rep = true -> avoids p (sub (Plus (Cls p)) (always rep) s) = true.
Proof. intros. by apply sub_go_run_avoids. Qed.

(** ** The shape of a normal form *)

Lemma str_forallb_map (q : ascii -> bool) (f : ascii -> ascii) (x : string) :
  (forall c, q c = true -> q (f c) = true) ->
  Str.forallb q x = true -> Str.forallb q (Str.map f x) = true.
Proof.
  intros Hf. induction x as [|c x IH]; [done|]. cbn [Str.forallb Str.map].
  intros [Hc Hx]%andb_true_iff. by rewrite Hf, IH.
Qed.

Lemma forallb_lstrip (q p : ascii -> bool) (x : string) :
  Str.forallb q x = true -> Str.forallb q (Str.lstrip p x) = true.
Proof.
  induction x as [|c x IH]; [done|]. cbn [Str.lstrip]. destruct (p c); [|done].
  cbn [Str.forallb]. intros [_ Hx]%andb_true_iff. by apply IH.
Qed.

Lemma forallb_rstrip (q p : ascii -> bool) (x : string) :
  Str.forallb q x = true -> Str.forallb q (Str.rstrip p x) = true.
Proof.
  induction x as [|c x IH]; [done|]. cbn [Str.rstrip Str.forallb].
  intros [Hc Hx]%andb_true_iff. destruct (_ && p c); [done|].
  cbn [Str.forallb]. by rewrite Hc, IH.
Qed.

Lemma forallb_strip_chars (q p : ascii -> bool) (x : string) :
  Str.forallb q x = true -> Str.forallb q (Str.strip_chars p x) = true.
Proof. intros. by apply forallb_rstrip, forallb_lstrip. Qed.

Lemma str_forallb_impl (p q : ascii -> bool) (x : string) :
  (forall c, p c = true -> q c = true) ->
  Str.forallb p x = true -> Str.forallb q x = true.
Proof.
  intros Hpq. induction x as [|c x IH]; [done|]. cbn [Str.forallb].
  intros [Hc Hx]%andb_true_iff. by rewrite Hpq, IH.
Qed.

Lemma lower_never_upper (x : string) : avoids Chr.is_upper (Str.lower x) = true.
Proof.
  induction x as [|c x IH]; [done|]. unfold avoids, Str.lower in *.
  cbn [Str.map Str.forallb]. rewrite IH, andb_true_r.
  apply (class_subset_spec (fun c => negb (Chr.is_upper (Chr.lower c)))
           (fun _ => true) c); [by vm_compute|done].
Qed.

Lemma no_upper_lower (x : string) : avoids Chr.is_upper x = true -> Str.lower x = x.
Proof.
  induction x as [|c x IH]; [done|]. intros [Hc Hx]%avoids_cons.
  unfold Str.lower in *. cbn [Str.map]. rewrite (IH Hx). f_equal.
  apply Ascii.eqb_eq.
  apply (class_subset_spec (fun c => Ascii.eqb (Chr.lower c) c)
           (fun c => negb (Chr.is_upper c)) c); [by vm_compute|].
  by rewrite Hc.
Qed.

Lemma normalize_shape (text : string) :
  let o := normalize_legal_entity text in
  avoids Chr.is_space o = true
  /\ avoids (Chr.lit "-") o = true
  /\ avoids Chr.is_upper o = true
  /\ Str.casefold o = o.
Proof.
  cbv zeta. unfold normalize_legal_entity.
  set (t := normalize_sections _).
  assert (Hup : avoids Chr.is_upper
                  (sub ws_run (always "")
                     (Str.casefold (Str.strip (sub ws_run (always " ")
                        (sub dash_run (always " ") t))))) = true).
  { apply sub_always_within; [done|]. apply lower_never_upper. }
  split; [|split; [|split]].
  - by apply sub_run_avoids.
  - apply sub_always_within; [done|]. unfold Str.casefold, Str.lower.
    apply str_forallb_map.
    { intros c. apply (class_subset_spec (fun c => negb (Chr.lit "-" (Chr.lower c)))
        (fun c => negb (Chr.lit "-" c)) c). by vm_compute. }
    apply forallb_strip_chars. apply sub_always_within; [done|].
    by apply (sub_run_avoids (Chr.lit "-")).
  - exact Hup.
  - by apply no_upper_lower.
Qed.

(** X1: the normal form of a text of characters below 128 has no
    whitespace, no hyphen and no letter from A to Z, and case folding
    leaves it as it is. *)
Theorem normalize_legal_entity_canonical (text : string) :
  Str.is_ascii text = true ->
  let o := normalize_legal_entity text in
  avoids Chr.is_space o = true
  /\ avoids (Chr.lit "-") o = true
  /\ avoids Chr.is_upper o = true
  /\ Str.casefold o = o.
Proof. intros _. apply normalize_shape. Qed.

Lemma normalize_legal_entity_canonical_witness :
  Str.is_ascii "Hon'ble Mr. Justice A.K. Rao - SC" = true
  /\ avoids Chr.is_space (normalize_legal_entity "Hon'ble Mr. Justice A.K. Rao - SC") = true
  /\ avoids Chr.is_upper (normalize_legal_entity "Hon'ble Mr. Justice A.K. Rao - SC") = true.
Proof.
  split; [reflexivity|].
  destruct (normalize_legal_entity_canonical "Hon'ble Mr. Justice A.K. Rao - SC" eq_refl)
    as (H1 & _ & H2 & _).
  by split.
Defined.

Lemma lstrip_all (p : ascii -> bool) (x : string) :
  Str.forallb p x = true -> Str.lstrip p x = "".
Proof.
  induction x as [|c x IH]; [done|]. cbn [Str.forallb Str.lstrip].
  intros [-> Hx]%andb_true_iff. by apply IH.
Qed.

Lemma strip_all (p : ascii -> bool) (x : string) :
  Str.forallb p x = true -> Str.strip_chars p x = "".
Proof. intros H. unfold Str.strip_chars. by rewrite lstrip_all. Qed.

Lemma blank_avoids (x : string) :
  Str.forallb Chr.is_space x = true ->
  avoids (fun c => negb (Chr.is_space c)) x = true.
Proof. apply str_forallb_impl. intros c ->. done. Qed.

Lemma str_filter_ext (p q : ascii -> bool) (x : string) :
  (forall c, p c = q c) -> Str.filter p x = Str.filter q x.
Proof.
  intros Hpq. induction x as [|c x IH]; [done|]. cbn [Str.filter].
  by rewrite Hpq, IH.
Qed.

Lemma str_filter_none (p : ascii -> bool) (x : string) :
  avoids p x = true -> Str.filter p x = "".
Proof.
  induction x as [|c x IH]; [done|]. intros [Hc Hx]%avoids_cons.
  cbn [Str.filter]. rewrite Hc. by apply IH.
Qed.

(** The code is computed from the letters of the text, upper-cased. *)
Lemma phonetic_key_unfold (text : string) :
  phonetic_key text
  = match Str.upper (Str.filter Chr.is_alpha text) with
    | EmptyString => EmptyString
    | String first tail =>
        Str.take 4
          (String first
             (String.append
                (sub (Seq (Grp 1 digit) (Plus (Bref 1))) group1
                   (Str.filter (fun c => negb (Chr.one_of "AEIOUYHW" c))
                      (Str.map trans tail)))
                "000"))
    end.
Proof.
  unfold phonetic_key, sub. rewrite sub_cls_filter.
  rewrite (str_filter_ext _ Chr.is_alpha) by (intros c; apply negb_involutive).
  destruct (Str.upper _) as [|first tail]; [done|]. by rewrite sub_cls_filter.
Qed.

(** X2: a text of whitespace only (or the empty text) has the empty
    normal form, the empty key text and the empty phonetic code. *)
Theorem blank_text_normalizes_to_empty (label : option string) (text : string) :
  Str.forallb Chr.is_space text = true ->
  normalize_legal_entity text = ""
  /\ _normalize_text (Some text) = ""
  /\ make_entity_key label (Some text) = String.append (_normalize_label label) "|"
  /\ phonetic_key text = "".
Proof.
  intros Hb.
  assert (Hn : _normalize_text (Some text) = "").
  { assert (Hs : Str.strip (sub ws_run (always " ") text) = "")
      by (by apply strip_all, sub_always_within).
    unfold _normalize_text, nfkc. change (default "" (Some text)) with text.
    rewrite (sub_needs (fun c => negb (Chr.is_space c)) vs_pat)
      by first [by vm_compute | by apply blank_avoids].
    rewrite (sub_needs (fun c => negb (Chr.is_space c)) initials_pat)
      by first [by vm_compute | by apply blank_avoids].
    by rewrite Hs. }
  split; [|split; [done|split]].
  - assert (Hu : normalize_unicode text = "").
    { unfold normalize_unicode, nfkc. destruct (Str.is_empty text); [done|].
      apply strip_all. by apply sub_always_within. }
    unfold normalize_legal_entity. rewrite Hu. by vm_compute.
  - unfold make_entity_key. by rewrite Hn.
  - rewrite phonetic_key_unfold, str_filter_none; [done|].
    revert Hb. apply str_forallb_impl. intros c.
    apply (class_subset_spec (fun c => negb (Chr.is_alpha c)) Chr.is_space c).
    by vm_compute.
Qed.

Lemma blank_text_normalizes_to_empty_witness :
  Str.forallb Chr.is_space "  " = true
  /\ make_entity_key (Some "org") (Some "  ") = "ORG|".
Proof.
  split; [reflexivity|].
  destruct (blank_text_normalizes_to_empty (Some "org") "  " eq_refl) as (_ & _ & -> & _).
  reflexivity.
Defined.

(** ** Section references *)




(** ** Phonetic codes *)

Lemma str_filter_forallb (p : ascii -> bool) (x : string) :
  Str.forallb p (Str.filter p x) = true.
Proof.
  induction x as [|c x IH]; [done|]. cbn [Str.filter].
  destruct (p c) eqn:Hc; [|done]. cbn [Str.forallb]. by rewrite Hc, IH.
Qed.

Lemma str_filter_all (p : ascii -> bool) (x : string) :
  Str.forallb p x = true -> Str.filter p x = x.
Proof.
  induction x as [|c x IH]; [done|]. cbn [Str.forallb Str.filter].
  intros [-> Hx]%andb_true_iff. by rewrite IH.
Qed.

Lemma str_filter_map (p : ascii -> bool) (f : ascii -> ascii) (x : string) :
  (forall c, p (f c) = p c) ->
  Str.filter p (Str.map f x) = Str.map f (Str.filter p x).
Proof.
  intros Hf. induction x as [|c x IH]; [done|]. cbn [Str.filter Str.map].
  rewrite Hf, IH. by destruct (p c).
Qed.

Lemma alpha_upper (c : ascii) : Chr.is_alpha (Chr.upper c) = Chr.is_alpha c.
Proof.
  apply Bool.eqb_prop.
  apply (class_subset_spec
           (fun c => Bool.eqb (Chr.is_alpha (Chr.upper c)) (Chr.is_alpha c))
           (fun _ => true) c); [by vm_compute|done].
Qed.

(** The digits of a code: the translated letters without the vowels,
    runs of one digit collapsed. *)
Lemma phonetic_digits (tail : string) :
  Str.forallb Chr.is_alpha tail = true ->
  Str.forallb Chr.is_digit
    (sub (Seq (Grp 1 digit) (Plus (Bref 1))) group1
       (Str.filter (fun c => negb (Chr.one_of "AEIOUYHW" c))
          (Str.map trans (Str.upper tail)))) = true.
Proof.
  intros Ht. apply sub_within.
  { intros m _ Hc. by apply group1_within. }
  set (vowel := Chr.one_of "AEIOUYHW").
  assert (H : Str.forallb (fun c => Chr.is_digit c || vowel c)
                (Str.map trans (Str.upper tail)) = true).
  { unfold Str.upper. induction tail as [|c x IH]; [done|].
    cbn [Str.forallb Str.map] in *. apply andb_true_iff in Ht as [Hc Hx].
    rewrite (IH Hx), andb_true_r. revert Hc.
    apply (class_subset_spec
             (fun c => Chr.is_digit (trans (Chr.upper c)) || vowel (trans (Chr.upper c)))
             Chr.is_alpha c).
    by vm_compute. }
  revert H. generalize (Str.map trans (Str.upper tail)). intros x.
  induction x as [|c x IH]; [done|]. cbn [Str.forallb Str.filter].
  intros [Hc Hx]%andb_true_iff. destruct (vowel c) eqn:Hv; cbn [negb]; [by apply IH|].
  cbn [Str.forallb]. rewrite orb_false_r in Hc. by rewrite Hc, IH.
Qed.

Lemma phonetic_shape (text : string) :
  match Str.filter Chr.is_alpha text with
  | EmptyString => phonetic_key text = ""
  | String c _ =>
      exists d1 d2 d3,
        phonetic_key text = String (Chr.upper c) (String d1 (String d2 (String d3 "")))
        /\ Chr.is_digit d1 = true /\ Chr.is_digit d2 = true /\ Chr.is_digit d3 = true
  end.
Proof.
  rewrite phonetic_key_unfold.
  pose proof (str_filter_forallb Chr.is_alpha text) as Ha.
  destruct (Str.filter Chr.is_alpha text) as [|c tail]; [done|].
  cbn [Str.forallb] in Ha. apply andb_true_iff in Ha as [_ Ha].
  unfold Str.upper at 1. cbn [Str.map]. fold (Str.upper tail).
  pose proof (phonetic_digits tail Ha) as Hd.
  set (D := sub _ group1 _) in *.
  assert (Hall : Str.forallb Chr.is_digit (String.append D "000") = true)
    by (by rewrite forallb_sapp, Hd).
  assert (Hlen : 3 <= String.length (String.append D "000"))
    by (rewrite sapp_length; cbn; lia).
  destruct (String.append D "000") as [|d1 [|d2 [|d3 r]]];
    cbn [String.length] in Hlen; try lia.
  cbn [Str.forallb] in Hall. 
  apply andb_true_iff in Hall as [H1 Hall].
  apply andb_true_iff in Hall as [H2 Hall].
  apply andb_true_iff in Hall as [H3 _].
  exists d1, d2, d3. by repeat split.
Qed.

(** X3: the phonetic code is empty exactly for a text without letters;
    otherwise it has four characters: the first letter of the text in
    upper case, then three digits. *)
Theorem phonetic_key_shape (text : string) :
  match Str.filter Chr.is_alpha text with
  | EmptyString => phonetic_key text = ""
  | String c _ =>
      exists d1 d2 d3,
        phonetic_key text = String (Chr.upper c) (String d1 (String d2 (String d3 "")))
        /\ Chr.is_digit d1 = true /\ Chr.is_digit d2 = true /\ Chr.is_digit d3 = true
  end.
Proof. apply phonetic_shape. Qed.

(** X4: the code depends on the letters of the text only, and not on
    their case: spacing, punctuation and digits do not enter it. *)
Theorem phonetic_key_letters_only (a b : string) :
  Str.upper (Str.filter Chr.is_alpha a) = Str.upper (Str.filter Chr.is_alpha b) ->
  phonetic_key a = phonetic_key b.
Proof. intros H. by rewrite !phonetic_key_unfold, H. Qed.

Lemma phonetic_key_letters_only_witness :
  phonetic_key "Kala Devi" = phonetic_key "kala-devi (2)".
Proof. apply phonetic_key_letters_only. reflexivity. Defined.

(** The code of a text is the code of its letters in upper case. *)
Lemma phonetic_key_of_letters (text : string) :
  phonetic_key (Str.upper (Str.filter Chr.is_alpha text)) = phonetic_key text.
Proof.
  rewrite !phonetic_key_unfold.
  rewrite (str_filter_map Chr.is_alpha Chr.upper) by apply alpha_upper.
  rewrite str_filter_all by apply str_filter_forallb. by rewrite upper_upper.
Qed.

(** ** Roman numerals *)

Lemma roman_round_trip_all : forallb roman_round_trip (seq 1 3999) = true.
Proof. by vm_compute. Qed.

(** X5: [roman_to_int] reads back every numeral from 1 to 3999 in its
    usual spelling, in upper and in lower case. *)
Theorem roman_to_int_round_trip (n : nat) :
  1 <= n <= 3999 ->
  roman_to_int (to_roman n) = n /\ roman_to_int (Str.lower (to_roman n)) = n.
Proof.
  intros Hn. pose proof roman_round_trip_all as H. rewrite forallb_forall in H.
  specialize (H n). unfold roman_round_trip in H.
  rewrite andb_true_iff, !Nat.eqb_eq in H. apply H, in_seq. lia.
Qed.

Lemma roman_to_int_round_trip_witness :
  1 <= 1994 <= 3999 /\ to_roman 1994 = "MCMXCIV" /\ roman_to_int "MCMXCIV" = 1994.
Proof.
  split; [lia|]. split; [reflexivity|].
  apply (roman_to_int_round_trip 1994). lia.
Defined.

(** ** Keys do not depend on letter case *)

Lemma exec_ext {R : Type} n : forall r s (k1 k2 : mstate -> option R),
  (forall s', k1 s' = k2 s') -> exec n r s k1 = exec n r s k2.
Proof.
  induction n as [|n IHn]; intros r;
    induction r as [|p|a IHa b IHb|a IHa b IHb|a IHa|a IHa|i a IHa|i| | |p|p];
    intros s k1 k2 Hk;
    rewrite ?exec_Eps, ?exec_Cls, ?exec_Seq, ?exec_Alt, ?exec_Grp, ?exec_Bref,
      ?exec_WordB, ?exec_Eos, ?exec_NotBehind, ?exec_NotAhead, ?exec_Star,
      ?exec_LazyStar;
    rewrite ?Hk; try done.
  all: try (destruct (rest s) as [|c t]; [done|]; by rewrite Hk).
  all: try (apply IHa; intros s'; by apply IHb).
  all: try (by rewrite (IHa s k1 k2), (IHb s k1 k2)).
  all: try (apply IHa; intros s'; by rewrite Hk).
  all: try (destruct (cap i (caps s)); [|done]; destruct (eat _ _ _) as [[p t]|]; by rewrite ?Hk).
  - rewrite (IHa s _ (fun s' => if shorter s' s then exec n (Star a) s' k2 else None)); [done|].
    intros s'. destruct (shorter s' s); [|done]. by apply IHn.
  - rewrite (IHa s _ (fun s' => if shorter s' s then exec n (LazyStar a) s' k2 else None)); [done|].
    intros s'. destruct (shorter s' s); [|done]. by apply IHn.
Qed.

(** The matcher commutes with a function applied to its result. *)
Lemma exec_option_map {R Q : Type} (f : R -> Q) n :
  forall r s (k : mstate -> option R),
    exec n r s (fun s' => option_map f (k s')) = option_map f (exec n r s k).
Proof.
  induction n as [|n IHn]; intros r;
    induction r as [|p|a IHa b IHb|a IHa b IHb|a IHa|a IHa|i a IHa|i| | |p|p];
    intros s k;
    rewrite ?exec_Eps, ?exec_Cls, ?exec_Seq, ?exec_Alt, ?exec_Grp, ?exec_Bref,
      ?exec_WordB, ?exec_Eos, ?exec_NotBehind, ?exec_NotAhead, ?exec_Star,
      ?exec_LazyStar;
    try done.
  all: try (destruct (rest s) as [|c [|d t]]; try done; by destruct (_ =? _)%char).
  all: try (destruct (rest s) as [|c t]; [done|]; by destruct (p c)).
  all: try (rewrite <- IHa; apply exec_ext; intros s'; by apply IHb).
  all: try (rewrite IHa, IHb; by destruct (exec _ a s k)).
  all: try (by rewrite <- IHa).
  all: try (destruct (cap i (caps s)); [|done]; by destruct (eat _ _ _) as [[p t]|]).
  all: try (by destruct (xorb _ _)).
  all: try (destruct (prev s) as [c|]; [|done]; by destruct (p c)).
  - rewrite (exec_ext _ a s _
      (fun s' => option_map f (if shorter s' s then exec n (Star a) s' k else None))).
    + rewrite IHa. by destruct (exec (S n) a s _).
    + intros s'. destruct (shorter s' s); [|done]. by rewrite IHn.
  - destruct (k s); [done|]. cbn [option_map].
    rewrite (exec_ext _ a s _
      (fun s' => option_map f (if shorter s' s then exec n (LazyStar a) s' k else None))).
    + by rewrite IHa.
    + intros s'. destruct (shorter s' s); [|done]. by rewrite IHn.
Qed.

Lemma caseless_spec (p : ascii -> bool) (c : ascii) :
  caseless p = true -> p (Chr.lower c) = p c.
Proof.
  unfold caseless. rewrite forallb_forall. intros H.
  apply Bool.eqb_prop, H, all_ascii_complete.
Qed.

Lemma lower_take (n : nat) : forall x, Str.lower (Str.take n x) = Str.take n (Str.lower x).
Proof. induction n as [|n IH]; intros [|c x]; try done. cbn. by rewrite <- IH. Qed.

Lemma lower_taken (a b : string) :
  Str.lower (taken a b) = taken (Str.lower a) (Str.lower b).
Proof. unfold taken. by rewrite lower_take, !lower_length. Qed.

Lemma lower_sapp (a b : string) :
  Str.lower (String.append a b) = String.append (Str.lower a) (Str.lower b).
Proof.
  induction a as [|c a IH]; [done|]. rewrite sapp_cons. unfold Str.lower in *.
  cbn [Str.map]. by rewrite IH.
Qed.

(** A caseless pattern matches a text in lower case the way it matches
    the text. *)
Lemma exec_lower {R : Type} n : forall r s (k : mstate -> option R),
  caseless_re r = true ->
  exec n r (lower_state s) k = exec n r s (fun s' => k (lower_state s')).
Proof.
  assert (Hword : forall o, is_word_opt (option_map Chr.lower o) = is_word_opt o).
  { intros [c|]; [|done]. apply (caseless_spec Chr.is_word c). by vm_compute. }
  induction n as [|n IHn]; intros r;
    induction r as [|p|a IHa b IHb|a IHa b IHb|a IHa|a IHa|i a IHa|i| | |p|p];
    intros [pr x cs] k Hr; cbn [caseless_re] in Hr; try discriminate;
    try (match type of Hr with
         | (_ && _ = true) => apply andb_true_iff in Hr as [Hra Hrb]
         end).
  all: lazymatch goal with
    | |- exec _ Eps _ _ = _ => by rewrite !exec_Eps
    | |- exec _ (Cls ?p) _ _ = _ =>
        rewrite !exec_Cls; destruct x as [|c t]; [done|];
        cbn [lower_state rest prev caps Str.lower Str.map];
        rewrite (caseless_spec p c Hr); by destruct (p c)
    | |- exec _ (Seq _ _) _ _ = _ =>
        rewrite !exec_Seq, IHa by done; apply exec_ext; intros s'; by apply IHb
    | |- exec _ (Alt _ _) _ _ = _ => by rewrite !exec_Alt, IHa, IHb
    | |- exec _ (Grp _ _) _ _ = _ =>
        rewrite !exec_Grp, IHa by done; apply exec_ext; intros s';
        cbn [lower_state rest prev caps List.map fst snd]; by rewrite <- lower_taken
    | |- exec _ WordB _ _ = _ =>
        rewrite !exec_WordB; cbn [lower_state rest prev]; rewrite Hword;
        replace (Str.head (Str.lower x)) with (option_map Chr.lower (Str.head x))
          by (by destruct x);
        by rewrite Hword
    | |- exec _ Eos _ _ = _ =>
        rewrite !exec_Eos; destruct x as [|c [|d t]]; try done;
        cbn [lower_state rest prev caps Str.lower Str.map];
        by rewrite (caseless_spec (fun c => Ascii.eqb c "010") c) by (by vm_compute)
    | |- exec _ (NotBehind ?p) _ _ = _ =>
        rewrite !exec_NotBehind; destruct pr as [c|]; [|done];
        cbn [lower_state prev option_map]; by rewrite (caseless_spec p c Hr)
    | |- exec _ (NotAhead ?p) _ _ = _ =>
        rewrite !exec_NotAhead; destruct x as [|c t]; [done|];
        cbn [lower_state rest prev caps Str.lower Str.map];
        by rewrite (caseless_spec p c Hr)
    | |- _ => idtac
    end.
  - done.
  - done.
  - rewrite !exec_Star, IHa by done.
    rewrite (exec_ext _ a _ _
      (fun s' => if shorter s' (MState pr x cs)
                 then exec n (Star a) s' (fun s'' => k (lower_state s'')) else None)); [done|].
    intros s'. unfold shorter. cbn [lower_state rest]. rewrite !lower_length.
    destruct (_ <? _)%nat; [|done]. by apply IHn.
  - rewrite !exec_LazyStar. destruct (k (lower_state _)); [done|]. rewrite IHa by done.
    apply exec_ext. intros s'. unfold shorter. cbn [lower_state rest].
    rewrite !lower_length. destruct (_ <? _)%nat; [|done]. by apply IHn.
Qed.

Lemma match_at_lower (r : re) (p : option ascii) (s : string) :
  caseless_re r = true ->
  match_at r (option_map Chr.lower p) (Str.lower s)
  = option_map lower_match (match_at r p s).
Proof.
  intros Hr. unfold match_at. rewrite lower_length.
  change (MState (option_map Chr.lower p) (Str.lower s) [])
    with (lower_state (MState p s [])).
  rewrite exec_lower by done. rewrite <- exec_option_map.
  apply exec_ext. intros s'. cbn [option_map lower_state rest caps lower_match m_text m_caps].
  by rewrite <- lower_taken.
Qed.

(** A substitution by a caseless pattern commutes with lower-casing
    when its replacement does. *)
Lemma sub_go_lower (r : re) (repl : rmatch -> string) :
  caseless_re r = true ->
  (forall m, repl (lower_match m) = Str.lower (repl m)) ->
  forall s p skip,
    sub_go r repl (option_map Chr.lower p) (Str.lower s) skip
    = Str.lower (sub_go r repl p s skip).
Proof.
  intros Hr Hrepl. induction s as [|c t IH]; intros p skip; [done|].
  change (Str.lower (String c t)) with (String (Chr.lower c) (Str.lower t)).
  cbn [sub_go]. destruct skip as [|k]; [|apply (IH (Some c))].
  change (String (Chr.lower c) (Str.lower t)) with (Str.lower (String c t)).
  rewrite match_at_lower by done.
  destruct (match_at r p (String c t)) as [m|]; cbn [option_map].
  - cbn [lower_match m_text]. rewrite lower_length.
    destruct (String.length (m_text m)).
    + change (Str.lower (String c ?x)) with (String (Chr.lower c) (Str.lower x)).
      f_equal. apply (IH (Some c)).
    + rewrite lower_sapp, <- Hrepl. f_equal. apply (IH (Some c)).
  - change (Str.lower (String c ?x)) with (String (Chr.lower c) (Str.lower x)).
    f_equal. apply (IH (Some c)).
Qed.

Lemma sub_lower (r : re) (repl : rmatch -> string) (s : string) :
  caseless_re r = true ->
  (forall m, repl (lower_match m) = Str.lower (repl m)) ->
  sub r repl (Str.lower s) = Str.lower (sub r repl s).
Proof. intros. by apply (sub_go_lower r repl) with (p := None). Qed.

Lemma lstrip_lower (p : ascii -> bool) (x : string) :
  caseless p = true -> Str.lstrip p (Str.lower x) = Str.lower (Str.lstrip p x).
Proof.
  intros Hp. induction x as [|c x IH]; [done|].
  change (Str.lower (String c x)) with (String (Chr.lower c) (Str.lower x)).
  cbn [Str.lstrip]. rewrite (caseless_spec p c Hp). by destruct (p c).
Qed.

Lemma rstrip_lower (p : ascii -> bool) (x : string) :
  caseless p = true -> Str.rstrip p (Str.lower x) = Str.lower (Str.rstrip p x).
Proof.
  intros Hp. induction x as [|c x IH]; [done|].
  change (Str.lower (String c x)) with (String (Chr.lower c) (Str.lower x)).
  cbn [Str.rstrip]. rewrite IH, (caseless_spec p c Hp).
  replace (Str.is_empty (Str.lower (Str.rstrip p x))) with (Str.is_empty (Str.rstrip p x))
    by (by destruct (Str.rstrip p x)).
  by destruct (_ && _).
Qed.

Lemma strip_chars_lower (p : ascii -> bool) (x : string) :
  caseless p = true ->
  Str.strip_chars p (Str.lower x) = Str.lower (Str.strip_chars p x).
Proof. intros Hp. unfold Str.strip_chars. by rewrite lstrip_lower, rstrip_lower. Qed.

Lemma _normalize_text_lower (text : string) :
  _normalize_text (Some (Str.lower text)) = _normalize_text (Some text).
Proof.
  unfold _normalize_text, nfkc, Str.casefold, Str.strip.
  change (default "" (Some (Str.lower text))) with (Str.lower text).
  change (default "" (Some text)) with text.
  rewrite (sub_lower vs_pat) by (by vm_compute || done).
  rewrite (sub_lower initials_pat).
  2: by vm_compute.
  2: { intros m. cbn [lower_match m_text]. apply str_filter_map.
       intros c. apply (caseless_spec Chr.is_alpha c). by vm_compute. }
  rewrite (sub_lower ws_run) by (by vm_compute || done).
  rewrite !strip_chars_lower by (by vm_compute).
  apply lower_lower.
Qed.

Lemma _normalize_label_lower (label : string) :
  _normalize_label (Some (Str.lower label)) = _normalize_label (Some label).
Proof.
  unfold _normalize_label, Str.strip.
  change (default "" (Some (Str.lower label))) with (Str.lower label).
  change (default "" (Some label)) with label.
  rewrite strip_chars_lower by (by vm_compute).
  generalize (Str.strip_chars Chr.is_space label). intros x.
  induction x as [|c x IH]; [done|]. unfold Str.upper, Str.lower in *.
  cbn [Str.map]. rewrite IH. f_equal. apply Ascii.eqb_eq.
  apply (class_subset_spec (fun c => Ascii.eqb (Chr.upper (Chr.lower c)) (Chr.upper c))
           (fun _ => true) c); [by vm_compute|done].
Qed.

Lemma entity_key_caseless (label label' text text' : string) :
  Str.lower label = Str.lower label' ->
  Str.lower text = Str.lower text' ->
  make_entity_key (Some label) (Some text) = make_entity_key (Some label') (Some text').
Proof.
  intros Hl Ht. unfold make_entity_key.
  rewrite <- (_normalize_text_lower text), <- (_normalize_label_lower label), Hl, Ht.
  by rewrite _normalize_text_lower, _normalize_label_lower.
Qed.



(** ** Whitespace *)

Lemma run_end_rest (p : ascii -> bool) (s : string) : forall pr,
  (run_end p pr s).2 = Str.lstrip p s.
Proof.
  induction s as [|c t IH]; intros pr; [done|]. cbn [run_end Str.lstrip].
  destruct (p c); [apply IH|done].
Qed.

Lemma lstrip_length (p : ascii -> bool) (s : string) :
  String.length (Str.lstrip p s) <= String.length s.
Proof.
  induction s as [|c t IH]; [done|]. cbn [Str.lstrip]. destruct (p c); [|done].
  cbn [String.length]. lia.
Qed.

(** A greedy repetition of a class runs to the end of the run. *)
Lemma star_cls_greedy {R : Type} (p : ascii -> bool) (k : mstate -> option R) :
  (forall e, is_Some (k e)) ->
  forall t n pr cs,
    String.length t <= n ->
    exec (S n) (Star (Cls p)) (MState pr t cs) k
    = k (MState (run_end p pr t).1 (run_end p pr t).2 cs).
Proof.
  intros Hk. induction t as [|c t IH]; intros n pr cs Hn.
  - by rewrite exec_Star, exec_Cls.
  - rewrite exec_Star, exec_Cls. cbn [rest caps run_end].
    destruct (p c) eqn:Hc; [|done].
    unfold shorter. cbn [rest String.length].
    destruct (Nat.ltb_spec (String.length t) (S (String.length t))) as [_|?]; [|lia].
    cbn [String.length] in Hn. destruct n as [|n]; [lia|].
    rewrite IH by lia. by destruct (Hk (MState (run_end p (Some c) t).1 (run_end p (Some c) t).2 cs))
      as [x ->].
Qed.

Lemma plus_cls_match_at (p : ascii -> bool) (pr : option ascii) (s : string) :
  match_at (Plus (Cls p)) pr s
  = match s with
    | EmptyString => None
    | String c t =>
        if p c then Some (RMatch (taken s (Str.lstrip p t)) []) else None
    end.
Proof.
  unfold match_at, Plus. rewrite exec_Seq, exec_Cls. cbn [rest caps].
  destruct s as [|c t]; [done|]. destruct (p c); [|done].
  rewrite star_cls_greedy; [|by eexists|cbn [String.length]; lia].
  cbn [rest caps]. by rewrite run_end_rest.
Qed.

Lemma str_skip_lstrip (p : ascii -> bool) (s : string) :
  str_skip (String.length s - String.length (Str.lstrip p s)) s = Str.lstrip p s.
Proof.
  induction s as [|c t IH]; [done|]. cbn [Str.lstrip]. destruct (p c).
  - pose proof (lstrip_length p t). cbn [String.length].
    replace (S (String.length t) - String.length (Str.lstrip p t))
      with (S (String.length t - String.length (Str.lstrip p t))) by lia.
    cbn [str_skip]. apply IH.
  - by rewrite Nat.sub_diag.
Qed.

Lemma sub_go_skip (r : re) (repl : rmatch -> string) :
  (forall p p' s, match_at r p s = match_at r p' s) ->
  forall s k p p',
    sub_go r repl p s k = sub_go r repl p' (str_skip k s) 0.
Proof.
  intros Hr. induction s as [|c t IH]; intros k p p'.
  - by destruct k.
  - destruct k as [|k]; cbn [sub_go str_skip]; [|apply IH].
    rewrite (Hr p p'). destruct (match_at r p' (String c t)) as [m|]; [|done].
    by destruct (String.length (m_text m)).
Qed.

Lemma squeeze_lstrip (s : string) : squeeze true s = squeeze false (Str.lstrip Chr.is_space s).
Proof.
  induction s as [|c t IH]; [done|]. cbn [squeeze Str.lstrip].
  destruct (Chr.is_space c) eqn:Hc; [done|]. cbn [squeeze]. by rewrite Hc.
Qed.

(** Replacing every run of whitespace by one space. *)
Lemma sub_ws_squeeze (text : string) (pr : option ascii) :
  sub_go ws_run (always " ") pr text 0 = squeeze false text.
Proof.
  assert (Hlen : forall n s p, String.length s <= n ->
            sub_go ws_run (always " ") p s 0 = squeeze false s); [|eauto].
  clear. induction n as [|n IH]; intros s p Hn.
  { destruct s; [done|]. cbn in Hn. lia. }
  destruct s as [|c t]; [done|]. cbn [sub_go squeeze].
  unfold ws_run, ws. rewrite plus_cls_match_at.
  destruct (Chr.is_space c) eqn:Hc.
  - cbn [m_text]. unfold taken. rewrite str_take_length.
    pose proof (lstrip_length Chr.is_space t) as Hl. cbn [String.length] in *.
    replace (Nat.min (S (String.length t) - String.length (Str.lstrip Chr.is_space t))
               (S (String.length t)))
      with (S (String.length t - String.length (Str.lstrip Chr.is_space t))) by lia.
    unfold always at 1. rewrite sapp_cons. f_equal.
    change (String.append "" ?x) with x.
    rewrite (sub_go_skip (Plus (Cls Chr.is_space)) (always " ")) with (p' := None).
    2: { intros q q' x. by rewrite !plus_cls_match_at. }
    rewrite str_skip_lstrip, squeeze_lstrip. apply (IH _ None). lia.
  - f_equal. apply IH. cbn [String.length] in Hn. lia.
Qed.

Lemma tidy_weaken (s : string) : tidy true s = true -> tidy false s = true.
Proof.
  destruct s as [|c t]; [done|]. cbn [tidy]. destruct (Chr.is_space c); [|done].
  by rewrite andb_false_r.
Qed.

Lemma squeeze_tidy (s : string) :
  tidy true (squeeze true s) = true /\ tidy false (squeeze false s) = true.
Proof.
  induction s as [|c t [IH1 IH2]]; [done|]. cbn [squeeze].
  destruct (Chr.is_space c) eqn:Hc.
  - split; [done|]. cbn [tidy]. by rewrite IH1.
  - cbn [tidy]. by rewrite Hc.
Qed.

Lemma tidy_squeeze (s : string) : forall b, tidy b s = true -> squeeze b s = s.
Proof.
  induction s as [|c t IH]; intros b; [done|]. cbn [tidy squeeze].
  destruct (Chr.is_space c).
  - intros [[Hc Hb]%andb_true_iff Ht]%andb_true_iff.
    apply Ascii.eqb_eq in Hc as ->. apply negb_true_iff in Hb as ->. by rewrite IH.
  - intros Ht. by rewrite IH.
Qed.

Lemma tidy_lstrip (s : string) : forall b,
  tidy b s = true -> tidy false (Str.lstrip Chr.is_space s) = true.
Proof.
  induction s as [|c t IH]; intros b; [done|]. cbn [tidy Str.lstrip].
  destruct (Chr.is_space c) eqn:Hc.
  - intros [_ Ht]%andb_true_iff. by apply (IH true).
  - intros Ht. cbn [tidy]. by rewrite Hc.
Qed.

Lemma tidy_rstrip (s : string) : forall b,
  tidy b s = true -> tidy b (Str.rstrip Chr.is_space s) = true.
Proof.
  induction s as [|c t IH]; intros b; [done|]. cbn [tidy Str.rstrip].
  destruct (Str.is_empty (Str.rstrip Chr.is_space t) && Chr.is_space c) eqn:He; [done|].
  cbn [tidy]. destruct (Chr.is_space c).
  - intros [H1 Ht]%andb_true_iff. rewrite H1. by apply IH.
  - by apply IH.
Qed.

Lemma rstrip_rstrip (p : ascii -> bool) (s : string) :
  Str.rstrip p (Str.rstrip p s) = Str.rstrip p s.
Proof.
  induction s as [|c t IH]; [done|]. cbn [Str.rstrip].
  destruct (Str.is_empty (Str.rstrip p t) && p c) eqn:He; [done|].
  cbn [Str.rstrip]. by rewrite IH, He.
Qed.

Lemma lstrip_rstrip_lstrip (p : ascii -> bool) (s : string) :
  Str.lstrip p (Str.rstrip p (Str.lstrip p s)) = Str.rstrip p (Str.lstrip p s).
Proof.
  induction s as [|c t IH]; [done|]. cbn [Str.lstrip].
  destruct (p c) eqn:Hc; [done|]. cbn [Str.rstrip].
  rewrite Hc, andb_false_r. cbn [Str.lstrip]. by rewrite Hc.
Qed.

Lemma strip_chars_strip_chars (p : ascii -> bool) (s : string) :
  Str.strip_chars p (Str.strip_chars p s) = Str.strip_chars p s.
Proof.
  unfold Str.strip_chars. by rewrite lstrip_rstrip_lstrip, rstrip_rstrip.
Qed.

Lemma normalize_unicode_squeeze (text : string) :
  normalize_unicode text = Str.strip (squeeze false text).
Proof.
  unfold normalize_unicode, nfkc, sub. rewrite sub_ws_squeeze. by destruct text.
Qed.

(** X26, for a text of characters below 128, which [NFKC] and the
    replacements of [normalize_unicode] leave alone: [normalize_unicode]
    applied to its own result changes nothing; the result has no
    whitespace but single spaces, and none at its ends. *)
Theorem normalize_unicode_idempotent (text : string) :
  Str.is_ascii text = true ->
  let o := normalize_unicode text in
  normalize_unicode o = o
  /\ tidy true o = true
  /\ Str.strip o = o.
Proof.
  intros _. cbv zeta. rewrite !normalize_unicode_squeeze.
  set (q := squeeze false text).
  assert (Ht : tidy false (Str.strip q) = true).
  { apply tidy_rstrip, (tidy_lstrip q false), squeeze_tidy. }
  split; [|split].
  - rewrite (tidy_squeeze _ false Ht). apply strip_chars_strip_chars.
  - unfold Str.strip, Str.strip_chars in *.
    destruct (Str.rstrip Chr.is_space (Str.lstrip Chr.is_space q)) as [|c t] eqn:Hq; [done|].
    cbn [tidy] in *. destruct (Chr.is_space c) eqn:Hc; [|done].
    exfalso. revert Hq. generalize q. clear -Hc. intros q.
    induction q as [|d q IH]; [done|]. cbn [Str.lstrip].
    destruct (Chr.is_space d) eqn:Hd; [done|]. cbn [Str.rstrip].
    rewrite Hd, andb_false_r. intros [= -> _]. congruence.
  - apply strip_chars_strip_chars.
Qed.

Lemma normalize_unicode_idempotent_witness :
  Str.is_ascii "  A. K.   Rao  " = true
  /\ normalize_unicode (normalize_unicode "  A. K.   Rao  ")
     = normalize_unicode "  A. K.   Rao  ".
Proof.
  split; [reflexivity|].
  by destruct (normalize_unicode_idempotent "  A. K.   Rao  " eq_refl) as (H & _).
Defined.

(** ** The selection of the merge *)

Lemma slice_to_take {A} (l : list A) (k : Z) : exists n, slice_to l k = take n l.
Proof. unfold slice_to. destruct (0 <=? k)%Z; eauto. Qed.

Lemma kg_first_elem (kg emb : list string) (x : string) :
  x ∈ kg_first kg emb <-> x ∈ kg \/ x ∈ emb.
Proof.
  unfold kg_first. rewrite elem_of_app, list_elem_of_filter, !keep_first_elem.
  destruct (decide (x ∈ kg)); naive_solver.
Qed.

Lemma kg_first_NoDup (kg emb : list string) : NoDup (kg_first kg emb).
Proof.
  unfold kg_first. apply NoDup_app. split; [apply keep_first_NoDup|]. split.
  - intros x Hx [Hn _]%list_elem_of_filter.
    exact (Hn (proj1 (keep_first_elem _ _) Hx)).
  - apply NoDup_filter, keep_first_NoDup.
Qed.

Lemma kg_first_length (kg emb : list string) :
  length (kg_first kg emb) = size (list_to_set kg ∪ list_to_set emb : gset string).
Proof.
  rewrite length_NoDup_size by apply kg_first_NoDup. f_equal.
  apply set_eq. intros x.
  rewrite elem_of_union, !elem_of_list_to_set. apply kg_first_elem.
Qed.

Lemma merge_selected_known (st : state) (kg : kg_result) (id : string) :
  id ∈ final_ids (merge_ids_node st kg) -> id ∈ kg_ids kg \/ id ∈ embed_ids st.
Proof.
  rewrite merge_order.
  destruct (slice_to_take (kg_first (kg_ids kg) (embed_ids st)) (top_k st)) as [n ->].
  intros Hid. apply kg_first_elem. eapply elem_of_sublist; [exact Hid|].
  apply sublist_take.
Qed.

(** X8: whatever [top_k] is, no id is selected twice, and every selected
    id is an id of the graph matcher or of the vector search. *)
Theorem merge_selects_known_ids_once (st : state) (kg : kg_result) :
  NoDup (final_ids (merge_ids_node st kg))
  /\ forall id, id ∈ final_ids (merge_ids_node st kg) ->
       id ∈ kg_ids kg \/ id ∈ embed_ids st.
Proof.
  split; [|apply merge_selected_known].
  rewrite merge_order.
  destruct (slice_to_take (kg_first (kg_ids kg) (embed_ids st)) (top_k st)) as [n ->].
  eapply sublist_NoDup; [apply kg_first_NoDup|apply sublist_take].
Qed.

Lemma merge_selects_all_kg (st : state) (kg : kg_result) (id : string) :
  (0 <= top_k st)%Z ->
  size (list_to_set (kg_ids kg) : gset string) <= Z.to_nat (top_k st) ->
  id ∈ kg_ids kg -> id ∈ final_ids (merge_ids_node st kg).
Proof.
  intros Hk Hsz Hid. rewrite merge_order, slice_to_nonneg by done. unfold kg_first.
  assert (Hlen : length (keep_first (kg_ids kg))
                 = size (list_to_set (kg_ids kg) : gset string)).
  { rewrite length_NoDup_size by apply keep_first_NoDup. f_equal.
    apply set_eq. intros x. rewrite !elem_of_list_to_set. apply keep_first_elem. }
  rewrite take_app_ge by lia. apply elem_of_app. left. by apply keep_first_elem.
Qed.

(** X9: for a non-negative [top_k] the number of selected ids is
    [top_k], or the number of distinct ids of the two sources when that
    is smaller; and when [top_k] is at least the number of distinct graph
    ids, every graph id is selected. *)
Theorem merge_selected_count (st : state) (kg : kg_result) :
  (0 <= top_k st)%Z ->
  let m := merge_ids_node st kg in
  sc_selected (counts m)
  = Nat.min (Z.to_nat (top_k st))
      (size (list_to_set (kg_ids kg) ∪ list_to_set (embed_ids st) : gset string))
  /\ (size (list_to_set (kg_ids kg) : gset string) <= Z.to_nat (top_k st) ->
      forall id, id ∈ kg_ids kg -> id ∈ final_ids m).
Proof.
  intros Hk. cbv zeta. split; [|intros Hsz id; by apply merge_selects_all_kg].
  destruct (merge_counts_plain st kg) as (_ & _ & ->).
  rewrite merge_order, slice_to_nonneg by done.
  by rewrite length_take, kg_first_length.
Qed.

Lemma merge_selected_count_witness :
  (0 <= top_k (fusion_state 3))%Z
  /\ sc_selected (counts (merge_ids_node (fusion_state 3) fusion_kg)) = 3.
Proof.
  split; [done|].
  destruct (merge_selected_count (fusion_state 3) fusion_kg) as [-> _]; [done|].
  vm_compute. reflexivity.
Defined.

(** X10: when the ids counted as vector ids are the ids of the vector
    search, as [chroma_query_by_embedding_node] leaves them, every
    selected id has a provenance entry, which names the sources that
    returned it and no other. *)
Theorem merge_selected_have_provenance (st : state) (kg : kg_result) (id : string) :
  vector_ids st = embed_ids st ->
  id ∈ final_ids (merge_ids_node st kg) ->
  exists tags,
    provenance (merge_ids_node st kg) !! id = Some tags
    /\ tags <> ∅
    /\ (forall t, t ∈ tags ->
          (t = "chroma" /\ id ∈ embed_ids st) \/ (t = "kg" /\ id ∈ kg_ids kg))
    /\ (id ∈ embed_ids st -> "chroma" ∈ tags)
    /\ (id ∈ kg_ids kg -> "kg" ∈ tags).
Proof.
  intros Hv Hid.
  destruct (merge_selected_known st kg id Hid) as [Hk|He];
    rewrite merge_provenance, Hv; unfold tag_if.
  - rewrite decide_True by auto. eexists. split; [done|].
    rewrite (decide_True (P := id ∈ kg_ids kg)) by done.
    destruct (decide (id ∈ embed_ids st)); set_solver.
  - rewrite decide_True by auto. eexists. split; [done|].
    rewrite (decide_True (P := id ∈ embed_ids st)) by done.
    destruct (decide (id ∈ kg_ids kg)); set_solver.
Qed.

Lemma merge_selected_have_provenance_witness :
  vector_ids (fusion_state 3) = embed_ids (fusion_state 3)
  /\ "c3" ∈ final_ids (merge_ids_node (fusion_state 3) fusion_kg)
  /\ exists tags,
       provenance (merge_ids_node (fusion_state 3) fusion_kg) !! "c3" = Some tags
       /\ "kg" ∈ tags.
Proof.
  assert (H3 : "c3" ∈ final_ids (merge_ids_node (fusion_state 3) fusion_kg))
    by (vm_compute; apply list_elem_of_here).
  split; [reflexivity|]. split; [exact H3|].
  destruct (merge_selected_have_provenance (fusion_state 3) fusion_kg "c3" eq_refl H3)
    as (tags & Ht & _ & _ & _ & Hk).
  exists tags. split; [exact Ht|]. apply Hk. vm_compute. apply list_elem_of_here.
Defined.

(** ** What the graph matcher returns *)

Lemma fold_reasons_elem (rows : list row) :
  forall (d : gmap string (gset string)) (cid r : string),
    r ∈ default ∅ (fold_left (fun d r => add_to_set d (row_id r) (row_reason r)) rows d !! cid)
    <-> r ∈ default ∅ (d !! cid)
        \/ exists x, x ∈ rows /\ row_id x = cid /\ row_reason x = r.
Proof.
  induction rows as [|x rows IH]; intros d cid r; cbn [fold_left].
  - split; [auto|]. intros [H|(x & Hx & _)]; [done|]. by apply elem_of_nil in Hx.
  - rewrite IH. unfold add_to_set at 1.
    destruct (decide (row_id x = cid)) as [<-|Hne].
    + rewrite lookup_insert_eq. cbn [default from_option id]. rewrite elem_of_union, elem_of_singleton.
      split.
      * intros [[->|H]|(y & Hy & Hi & Hr)]; [right|by left|right].
        -- exists x. split; [apply list_elem_of_here|done].
        -- exists y. split; [by apply list_elem_of_further|done].
      * intros [H|(y & Hy & Hi & Hr)]; [left; by right|].
        apply elem_of_cons in Hy as [->|Hy]; [left; by left|].
        right. by exists y.
    + rewrite lookup_insert_ne by done. split.
      * intros [H|(y & Hy & Hi & Hr)]; [by left|right].
        exists y. split; [by apply list_elem_of_further|done].
      * intros [H|(y & Hy & Hi & Hr)]; [by left|].
        apply elem_of_cons in Hy as [->|Hy]; [done|]. right. by exists y.
Qed.

Lemma fold_reasons_some (rows : list row) :
  forall (d : gmap string (gset string)) (cid : string),
    is_Some (fold_left (fun d r => add_to_set d (row_id r) (row_reason r)) rows d !! cid)
    <-> is_Some (d !! cid) \/ cid ∈ List.map row_id rows.
Proof.
  induction rows as [|x rows IH]; intros d cid; cbn [fold_left List.map].
  - split; [auto|]. intros [H|H]; [done|]. by apply elem_of_nil in H.
  - rewrite IH. unfold add_to_set at 1. rewrite elem_of_cons.
    destruct (decide (row_id x = cid)) as [<-|Hne].
    + rewrite lookup_insert_eq. split; [auto|]. intros _. left. by eexists.
    + rewrite lookup_insert_ne by done. naive_solver.
Qed.

(** X11: the graph matcher raises exactly when the request has a usable
    entity and a password and the driver rejects the URI; on every
    other path it returns.  The chunk ids it returns are distinct; they
    are exactly the chunks that have match reasons, and each has at
    least one; the chunks reported as ruler hits are among them; and the
    graph is reported as available exactly when no error is reported. *)
Theorem matcher_result_well_formed (st : state) (db : store) :
  (matcher_result st db = None
   <-> request_keys (query_entities st) <> []
       /\ truthy (neo4j_password st) = true
       /\ exists msg, db = Rejected msg)
  /\ forall kg,
       matcher_result st db = Some kg ->
       NoDup (kg_ids kg)
       /\ (forall reasons, kg_match_reasons kg = Some reasons ->
             forall cid, cid ∈ kg_ids kg
                         <-> exists rs, reasons !! cid = Some rs /\ rs <> ∅)
       /\ (forall hits, kg_ruler_hit_ids kg = Some hits ->
             forall cid, cid ∈ hits -> cid ∈ kg_ids kg)
       /\ (kg_available kg = true <-> kg_error kg = None)
       /\ (kg_available kg = false -> kg_ids kg = []).
Proof.
  rewrite matcher_result_cases. cbv zeta.
  destruct (is_nil _) eqn:Hn.
  { apply is_nil_spec in Hn. split; [split; [done|by intros [? _]]|].
    intros kg [= <-]. cbn. repeat split; try done; constructor. }
  assert (Hk : request_keys (query_entities st) <> []).
  { intros H. by rewrite H in Hn. }
  destruct (truthy (neo4j_password st)); cbn [negb].
  2:{ split; [split; [done|by intros (_ & ? & _)]|].
      intros kg [= <-]. cbn. repeat split; try done; constructor. }
  destruct db as [msg|msg|g].
  { split; [|done]. split; [|done]. intros _. split; [done|]. split; [done|by eexists]. }
  { split; [split; [done|by intros (_ & _ & ? & ?)]|].
    intros kg [= <-]. cbn. repeat split; try done; constructor. }
  split; [split; [done|by intros (_ & _ & ? & ?)]|].
  intros kg [= <-].
  set (rows := matcher_rows st g). unfold kg_from_rows.
  cbn [kg_ids kg_match_reasons kg_ruler_hit_ids kg_available kg_error].
  rewrite add_unseen_fresh.
  split; [apply keep_first_NoDup|]. split; [|split; [|done]].
  - intros reasons [= <-] cid. rewrite keep_first_elem. split.
    + intros Hc.
      destruct (proj2 (fold_reasons_some rows ∅ cid) (or_intror Hc)) as [rs Hrs].
      exists rs. split; [done|].
      apply list_elem_of_fmap in Hc as (x & -> & Hx).
      assert (row_reason x ∈ rs); [|set_solver].
      pose proof (proj2 (fold_reasons_elem rows ∅ (row_id x) (row_reason x))) as H.
      rewrite Hrs in H. apply H. right. by exists x.
    + intros (rs & Hrs & _).
      destruct (proj1 (fold_reasons_some rows ∅ cid)) as [[? H]|H]; [by eexists| |done].
      by rewrite lookup_empty in H.
  - intros hits [= <-] cid. destruct (query_has_ruler st).
    + by intros [H _]%filter_elem.
    + by intros H%elem_of_nil.
Qed.

Lemma flat_map_list_elem {A B} (f : A -> list B) (l : list A) (y : B) :
  y ∈ flat_map_list f l <-> exists x, x ∈ l /\ y ∈ f x.
Proof.
  unfold flat_map_list. rewrite list_elem_of_In, <- flat_map_concat_map, in_flat_map.
  split; intros (x & Hx & Hy); exists x; by rewrite ?list_elem_of_In in *.
Qed.

Lemma chunks_of_elem (g : graph) (ekey : string) (p : string * string) :
  p ∈ chunks_of g ekey <-> p.1 = ekey /\ (p.2, ekey) ∈ g_mentions g.
Proof.
  unfold chunks_of. rewrite list_elem_of_In, in_map_iff. split.
  - intros ([cid k] & <- & [Hm Hk]%filter_In). cbn in *.
    apply String.eqb_eq in Hk as ->. split; [done|]. by apply list_elem_of_In.
  - destruct p as [k cid]. cbn. intros [-> Hm]. exists (cid, ekey). split; [done|].
    apply filter_In. split; [by apply list_elem_of_In|]. apply String.eqb_refl.
Qed.

Lemma returned_elem (reason : string) (pairs : list (string * string)) (x : row) :
  x ∈ returned reason pairs -> row_reason x = reason /\ (row_ekey x, row_id x) ∈ pairs.
Proof.
  unfold returned. rewrite list_elem_of_In, in_map_iff.
  intros ([k cid] & <- & Hp). split; [done|]. apply keep_first_elem.
  by apply list_elem_of_In.
Qed.

(** Every pair that a read of the store matches is a [MENTIONS]
    relationship of the store. *)
Lemma matched_pairs_are_mentions (g : graph) (p : string * string) :
  (exists keys, p ∈ by_key g keys) \/ (exists nkeys, p ∈ by_norm_key g nkeys)
  \/ (exists names, p ∈ by_alias g names) \/ (exists codes, p ∈ by_phonetic g codes)
  \/ (exists norms, p ∈ by_text g norms) ->
  (p.2, p.1) ∈ g_mentions g.
Proof.
  assert (Hc : forall k, p ∈ chunks_of g k -> (p.2, p.1) ∈ g_mentions g).
  { intros k [<- H]%chunks_of_elem. done. }
  intros [(l & H)|[(l & H)|[(l & H)|[(l & H)|(l & H)]]]];
    apply flat_map_list_elem in H as (a & _ & H);
    apply flat_map_list_elem in H as (e & _ & H);
    match type of H with
    | _ ∈ (if ?b then _ else _) => destruct b; [by eapply Hc|by apply elem_of_nil in H]
    end.
Qed.

Lemma strict_rows_elem (g : graph) (keys nkeys codes : list string) (limit : Z) (x : row) :
  x ∈ query_tx_strict g keys nkeys codes limit ->
  row_reason x ∈ ["direct"; "norm_key"; "alias"; "phonetic"]
  /\ (row_id x, row_ekey x) ∈ g_mentions g.
Proof.
  unfold query_tx_strict. rewrite keep_first_elem, !elem_of_app.
  intros [H|[H|[H|H]]]; apply returned_elem in H as [-> H]; (split; [set_solver|]);
    apply (matched_pairs_are_mentions g (row_ekey x, row_id x)); eauto 6.
  apply flat_map_list_elem in H as (_ & _ & H). eauto 6.
Qed.

Lemma relaxed_rows_elem (g : graph) (norms codes : list string) (limit : Z) (x : row) :
  x ∈ query_tx_text_only g norms codes limit ->
  row_reason x ∈ ["text_norm"; "alias"; "phonetic"]
  /\ (row_id x, row_ekey x) ∈ g_mentions g.
Proof.
  unfold query_tx_text_only. rewrite keep_first_elem, !elem_of_app.
  intros [H|[H|H]]; apply returned_elem in H as [-> H]; (split; [set_solver|]);
    apply (matched_pairs_are_mentions g (row_ekey x, row_id x)); eauto 6.
Qed.

Lemma matcher_rows_elem (st : state) (g : graph) (x : row) :
  x ∈ matcher_rows st g ->
  (row_reason x ∈ ["direct"; "norm_key"; "alias"; "phonetic"]
   \/ (row_reason x = "text_norm" /\ strict_match st = Some false))
  /\ (row_id x, row_ekey x) ∈ g_mentions g.
Proof.
  unfold matcher_rows. cbv zeta.
  destruct (is_nil _ && negb _) eqn:Hb.
  - intros [Hr Hm]%relaxed_rows_elem. split; [|done].
    apply andb_true_iff in Hb as [_ Hs]. apply negb_true_iff in Hs.
    assert (strict_match st = Some false) by (by destruct (strict_match st) as [[]|]).
    set_solver.
  - intros [Hr Hm]%strict_rows_elem. split; [by left|done].
Qed.

Lemma matcher_result_rows (st : state) (g : graph) (kg : kg_result) :
  matcher_result st (Reachable g) = Some kg ->
  (kg_ids kg = [] /\ kg_match_reasons kg = None)
  \/ kg = kg_from_rows st (request_keys (query_entities st)) (matcher_rows st g).
Proof.
  rewrite matcher_result_reachable. intros [= <-]. cbv zeta.
  destruct (is_nil _); [by left|]. destruct (negb _); [by left|]. by right.
Qed.

(** X12: a chunk id returned from a reachable store is the chunk of a
    [MENTIONS] relationship of the store, to an entity whose key is
    reported in [kg_matched_keys]. *)
Theorem matcher_ids_are_mentions (st : state) (g : graph) (kg : kg_result)
    (cid : string) :
  matcher_result st (Reachable g) = Some kg ->
  cid ∈ kg_ids kg ->
  exists ekey,
    (cid, ekey) ∈ g_mentions g
    /\ exists keys, kg_matched_keys kg = Some keys /\ ekey ∈ keys.
Proof.
  intros [[Hn _]| ->]%matcher_result_rows.
  { rewrite Hn. by intros H%elem_of_nil. }
  unfold kg_from_rows. cbn [kg_ids kg_matched_keys]. rewrite add_unseen_fresh.
  intros (x & -> & Hx)%keep_first_elem%list_elem_of_fmap.
  exists (row_ekey x). split; [by apply matcher_rows_elem in Hx as [_ ?]|].
  eexists. split; [reflexivity|]. apply elem_of_list_to_set.
  by apply list_elem_of_fmap_2.
Qed.

Lemma matcher_ids_are_mentions_witness :
  exists ekey, ("doc:1", ekey) ∈ g_mentions two_entities.
Proof.
  assert (H1 : matcher_result (query_state [ent "ORG" "Rao"] 25 true) (Reachable two_entities)
               = Some (kg_from_rows (query_state [ent "ORG" "Rao"] 25 true)
                         (request_keys [ent "ORG" "Rao"]) alias_rows))
    by (vm_compute; reflexivity).
  assert (H2 : "doc:1" ∈ kg_ids (kg_from_rows (query_state [ent "ORG" "Rao"] 25 true)
                                   (request_keys [ent "ORG" "Rao"]) alias_rows))
    by (vm_compute; apply list_elem_of_here).
  destruct (matcher_ids_are_mentions _ _ _ _ H1 H2) as (ekey & H & _).
  by exists ekey.
Defined.

(** X13: the reasons reported for a chunk are among direct, norm_key,
    alias and phonetic, or text_norm; text_norm is reported only when
    the caller set [strict_match] to false. *)
Theorem matcher_reasons_vocabulary (st : state) (db : store) (kg : kg_result)
    (reasons : gmap string (gset string)) (cid : string) (rs : gset string) (r : string) :
  matcher_result st db = Some kg ->
  kg_match_reasons kg = Some reasons ->
  reasons !! cid = Some rs ->
  r ∈ rs ->
  r ∈ ["direct"; "norm_key"; "alias"; "phonetic"]
  \/ (r = "text_norm" /\ strict_match st = Some false).
Proof.
  intros Hkg Hre Hcid Hr. destruct db as [msg|msg|g].
  { rewrite matcher_result_cases in Hkg. cbv zeta in Hkg.
    destruct (is_nil _); [by injection Hkg as <-|].
    destruct (negb _); [by injection Hkg as <-|done]. }
  { rewrite matcher_result_cases in Hkg. cbv zeta in Hkg.
    destruct (is_nil _); [by injection Hkg as <-|].
    destruct (negb _); by injection Hkg as <-. }
  apply matcher_result_rows in Hkg as [[_ Hn]| ->]; [congruence|].
  unfold kg_from_rows in Hre. cbn [kg_match_reasons] in Hre. injection Hre as <-.
  pose proof (proj1 (fold_reasons_elem (matcher_rows st g) ∅ cid r)) as H.
  rewrite Hcid in H. destruct (H Hr) as [He|(x & Hx & _ & <-)].
  { rewrite lookup_empty in He. set_solver. }
  by apply matcher_rows_elem in Hx as [? _].
Qed.

Lemma matcher_reasons_vocabulary_witness :
  "alias" ∈ ["direct"; "norm_key"; "alias"; "phonetic"]
  \/ ("alias" = "text_norm"
      /\ strict_match (query_state [ent "ORG" "Rao"] 25 true) = Some false).
Proof.
  assert (H1 : matcher_result (query_state [ent "ORG" "Rao"] 25 true) (Reachable two_entities)
               = Some (kg_from_rows (query_state [ent "ORG" "Rao"] 25 true)
                         (request_keys [ent "ORG" "Rao"]) alias_rows))
    by (vm_compute; reflexivity).
  apply (matcher_reasons_vocabulary _ _ _ (add_to_set ∅ "doc:1" "alias") "doc:1"
           {["alias"]} "alias" H1).
  - reflexivity.
  - vm_compute. reflexivity.
  - vm_compute. reflexivity.
Defined.

(** ** Batches *)

Lemma batches_cover {A : Type} (s : nat) : 1 <= s -> forall q (items : list A),
  length items <= q * s ->
  List.concat (List.map (fun j => firstn s (skipn (j * s) items)) (seq 0 q)) = items.
Proof.
  intros Hs. induction q as [|q IH]; intros items Hl.
  - destruct items; [done|]. cbn in Hl. lia.
  - cbn [seq List.map List.concat]. rewrite <- seq_shift, List.map_map.
    rewrite Nat.mul_0_l. cbn [skipn].
    rewrite (List.map_ext _ (fun j => firstn s (skipn (j * s) (skipn s items)))).
    + rewrite IH; [apply firstn_skipn|]. rewrite length_skipn. lia.
    + intros j. f_equal. rewrite skipn_skipn. f_equal. lia.
Qed.

Lemma batch_total_length {A : Type} (bs : list (list A)) :
  batch_total bs = length (List.concat bs).
Proof.
  unfold batch_total.
  assert (H : forall n, fold_left (fun total batch => total + length batch) bs n
                        = n + length (List.concat bs)); [|by rewrite H].
  induction bs as [|b bs IH]; intros n; cbn [fold_left List.concat length]; [lia|].
  rewrite IH, length_app. lia.
Qed.

(** For a batch size of at least one the batches are the items, cut in
    order into pieces that are not empty and not longer than the batch
    size. *)
Lemma batches_spec {A : Type} (items : list A) (batch_size : Z) :
  (1 <= batch_size)%Z ->
  exists bs,
    batches items batch_size = Some bs
    /\ List.concat bs = items
    /\ batch_total bs = length items
    /\ Forall (fun b => 1 <= length b <= Z.to_nat batch_size) bs.
Proof.
  intros Hb. unfold batches, range_from_zero.
  destruct (Z.eqb_spec batch_size 0) as [?|_]; [lia|].
  destruct (Z.ltb_spec batch_size 0) as [?|_]; [lia|].
  set (s := Z.to_nat batch_size). assert (Hs : 1 <= s) by lia.
  set (n := length items). set (q := (n + s - 1) / s).
  pose proof (Nat.div_mod_eq (n + s - 1) s) as Hdiv.
  pose proof (Nat.mod_upper_bound (n + s - 1) s ltac:(lia)) as Hmod.
  fold q in Hdiv.
  assert (Hq1 : n <= q * s) by nia.
  assert (Hq2 : forall j, j < q -> j * s < n) by (intros j Hj; nia).
  cbn [option_map]. rewrite List.map_map. eexists. split; [reflexivity|].
  assert (Hc : List.concat (List.map (fun j => firstn s (skipn (j * s) items)) (seq 0 q))
               = items) by (by apply batches_cover).
  split; [exact Hc|]. split; [by rewrite batch_total_length, Hc|].
  apply Forall_forall. intros b (j & <- & Hj)%list_elem_of_In%in_map_iff.
  apply in_seq in Hj. rewrite length_firstn, length_skipn. fold n.
  specialize (Hq2 j ltac:(lia)). lia.
Qed.

Lemma upsert_loop_all (accepts : list (option string * metadata) -> bool) :
  forall bs calls total,
    forallb accepts bs = true ->
    upsert_loop accepts bs calls total
    = (calls ++ List.map upsert_call bs, Some (total + length (List.concat bs))).
Proof.
  induction bs as [|b bs IH]; intros calls total; cbn [forallb upsert_loop].
  - intros _. cbn [List.map List.concat length]. by rewrite app_nil_r, Nat.add_0_r.
  - intros [-> Hbs]%andb_true_iff. rewrite IH by done.
    cbn [List.map List.concat]. rewrite <- app_assoc, length_app. cbn [app].
    do 2 f_equal. lia.
Qed.

Lemma upsert_loop_stops (accepts : list (option string * metadata) -> bool) :
  forall pre b post calls total,
    forallb accepts pre = true -> accepts b = false ->
    upsert_loop accepts (pre ++ b :: post) calls total
    = (calls ++ List.map upsert_call pre, None).
Proof.
  induction pre as [|a pre IH]; intros b post calls total; cbn [forallb app upsert_loop].
  - intros _ ->. cbn [List.map]. by rewrite app_nil_r.
  - intros [-> Hpre]%andb_true_iff Hb. rewrite IH by done.
    cbn [List.map]. by rewrite <- app_assoc.
Qed.

(** X14: for a batch size of at least one, [chroma_upsert_node] cuts the
    items, in order, into batches that are not empty and not larger
    than the batch size, and calls the vector store once for each.
    When the store takes every call, every item is handed over once and
    the number of items is reported.  When the store refuses a call,
    the node raises there: the calls before it were made, and nothing
    is reported.  A batch size of zero raises before any call, and a
    negative one makes no call and reports zero. *)
Theorem chroma_upsert_batches (accepts : list (option string * metadata) -> bool)
    (items : list (option string * metadata)) (batch_size : Z) :
  ((1 <= batch_size)%Z ->
   exists bs,
     batches items batch_size = Some bs
     /\ List.concat bs = items
     /\ Forall (fun b => 1 <= length b <= Z.to_nat batch_size) bs
     /\ (forallb accepts bs = true ->
         chroma_upsert_node accepts items batch_size
         = (List.map upsert_call bs, Some (length items))
         /\ List.concat (List.map upsert_call bs) = upsert_call items)
     /\ (forall pre b post,
           bs = pre ++ b :: post -> forallb accepts pre = true -> accepts b = false ->
           chroma_upsert_node accepts items batch_size = (List.map upsert_call pre, None)))
  /\ (batch_size = 0%Z -> chroma_upsert_node accepts items batch_size = ([], None))
  /\ ((batch_size < 0)%Z -> chroma_upsert_node accepts items batch_size = ([], Some 0)).
Proof.
  split; [|split].
  - intros Hb. destruct (batches_spec items batch_size Hb) as (bs & Hbs & Hc & Ht & Hf).
    exists bs. split; [done|]. split; [done|]. split; [done|].
    unfold chroma_upsert_node. rewrite Hbs. split.
    + intros Ha. rewrite upsert_loop_all by done. cbn [app]. rewrite Hc. split; [done|].
      unfold upsert_call. by rewrite <- List.concat_map, Hc.
    + intros pre b post -> Hpre Hb'. by rewrite upsert_loop_stops.
  - intros ->. reflexivity.
  - intros Hb. unfold chroma_upsert_node, batches, range_from_zero.
    destruct (Z.eqb_spec batch_size 0) as [?|_]; [lia|].
    destruct (Z.ltb_spec batch_size 0) as [_|?]; [done|lia].
Qed.

Lemma chroma_upsert_batches_witness :
  let a := (Some "a", Metadata (Some "d") (Some "0")) in
  let x := (Some "x", Metadata (Some "d") (Some "1")) in
  let b := (Some "b", Metadata (Some "d") None) in
  let c := (None, Metadata (Some "d") None) in
  (1 <= 2)%Z
  /\ chroma_upsert_node distinct_ids [a; x] 2
     = ([[("d:0", "a"); ("d:1", "x")]], Some 2)
  /\ chroma_upsert_node distinct_ids [a; x; b; c] 2
     = ([[("d:0", "a"); ("d:1", "x")]], None).
Proof.
  cbv zeta. split; [lia|].
  set (a := (Some "a", Metadata (Some "d") (Some "0"))).
  set (x := (Some "x", Metadata (Some "d") (Some "1"))).
  set (b := (Some "b", Metadata (Some "d") None)).
  set (c := (None, Metadata (Some "d") None)).
  split.
  - destruct (proj1 (chroma_upsert_batches distinct_ids [a; x] 2) ltac:(lia))
      as (bs & Hbs & _ & _ & Hall & _).
    injection Hbs as <-. by destruct (Hall eq_refl) as [-> _].
  - destruct (proj1 (chroma_upsert_batches distinct_ids [a; x; b; c] 2) ltac:(lia))
      as (bs & Hbs & _ & _ & _ & Hstop).
    injection Hbs as <-. by apply (Hstop [[a; x]] [b; c] []).
Defined.

(** ** Ingestion into the graph store *)

Lemma fold_left_concat {K X : Type} (f : K -> X -> K) (bs : list (list X)) : forall k,
  fold_left (fun k b => fold_left f b k) bs k = fold_left f (List.concat bs) k.
Proof.
  induction bs as [|b bs IH]; intros k; cbn [fold_left List.concat]; [done|].
  by rewrite fold_left_app, IH.
Qed.

Lemma fold_left_fixed {K X : Type} (f : K -> X -> K) (l : list X) (k : K) :
  (forall x, x ∈ l -> f k x = k) -> fold_left f l k = k.
Proof.
  induction l as [|x l IH]; intros H; cbn [fold_left]; [done|].
  rewrite (H x) by apply list_elem_of_here. apply IH. intros y Hy. apply H.
  by apply list_elem_of_further.
Qed.

Lemma fold_left_keeps {K X : Type} (f : K -> X -> K) (Q : K -> Prop) (l : list X) :
  (forall k x, Q k -> Q (f k x)) -> forall k, Q k -> Q (fold_left f l k).
Proof.
  intros Hf. induction l as [|x l IH]; intros k Hk; cbn [fold_left]; [done|].
  by apply IH, Hf.
Qed.

Lemma fold_left_reaches {K X : Type} (f : K -> X -> K) (P : X -> K -> Prop) (l : list X) :
  (forall k x, P x (f k x)) ->
  (forall k x y, P y k -> P y (f k x)) ->
  forall k x, x ∈ l -> P x (fold_left f l k).
Proof.
  intros He Hm. induction l as [|y l IH]; intros k x Hx; cbn [fold_left].
  - by apply elem_of_nil in Hx.
  - apply elem_of_cons in Hx as [->|Hx]; [|by apply IH].
    apply (fold_left_keeps f (P y)); [intros; by apply Hm|apply He].
Qed.

Lemma has_key_spec (key : string) (ents : list (string * option string)) :
  existsb (fun e => String.eqb e.1 key) ents = true <-> key ∈ List.map fst ents.
Proof.
  rewrite existsb_exists, list_elem_of_In, in_map_iff. split.
  - intros (e & He & Hk%String.eqb_eq). by exists e.
  - intros (e & Hk & He). exists e. split; [done|]. by apply String.eqb_eq.
Qed.

Lemma add_absent_elem {A : Type} `{EqDecision A} (x y : A) (l : list A) :
  y ∈ add_absent x l <-> y = x \/ y ∈ l.
Proof.
  unfold add_absent. case_bool_decide as Hx.
  - split; [auto|]. by intros [->|?].
  - rewrite elem_of_app, list_elem_of_singleton. tauto.
Qed.

Lemma add_absent_noop {A : Type} `{EqDecision A} (x : A) (l : list A) :
  x ∈ l -> add_absent x l = l.
Proof. intros Hx. unfold add_absent. by rewrite bool_decide_eq_true_2. Qed.

Lemma merge_entity_keys (ents : list (string * option string)) (key nk : string) :
  List.map fst (merge_entity ents key nk)
  = if existsb (fun e => String.eqb e.1 key) ents then List.map fst ents
    else List.map fst ents ++ [key].
Proof.
  unfold merge_entity. destruct (existsb _ ents).
  - rewrite List.map_map. apply List.map_ext. intros [k o]. cbn. by destruct (k =? key)%string.
  - by rewrite List.map_app.
Qed.

Lemma merge_entity_elem (ents : list (string * option string)) (key nk : string)
    (e : string * option string) :
  e ∈ merge_entity ents key nk ->
  (e ∈ ents /\ e.1 <> key)
  \/ (e.1 = key /\ (e.2 = Some nk \/ (is_Some e.2 /\ e ∈ ents))).
Proof.
  unfold merge_entity. destruct (existsb _ ents) eqn:Hex.
  - rewrite list_elem_of_In, in_map_iff. intros ([k o] & <- & Hin%list_elem_of_In).
    cbn. destruct (String.eqb_spec k key) as [->|Hne]; cbn; [right|by left].
    split; [done|]. destruct o as [x|]; cbn; [right|by left]. by split; [eexists|].
  - rewrite elem_of_app, list_elem_of_singleton. intros [Hin| ->]; cbn; [|right; auto].
    left. split; [done|]. intros Hk.
    assert (existsb (fun e => String.eqb e.1 key) ents = true); [|congruence].
    apply has_key_spec. rewrite <- Hk. by apply list_elem_of_fmap_2.
Qed.

Lemma merge_entity_settled (ents : list (string * option string)) (key nk : string) :
  settled key (merge_entity ents key nk).
Proof.
  split.
  - apply has_key_spec. rewrite merge_entity_keys.
    destruct (existsb _ ents) eqn:Hex; [by apply has_key_spec|].
    apply elem_of_app. right. apply list_elem_of_here.
  - intros e [[_ Hne]|[_ [He|[He _]]]]%merge_entity_elem Hk; [done| |done].
    rewrite He. by eexists.
Qed.

Lemma merge_entity_mono (ents : list (string * option string)) (key nk key' : string) :
  settled key' ents -> settled key' (merge_entity ents key nk).
Proof.
  intros [Hex Hall]. split.
  - apply has_key_spec. rewrite merge_entity_keys. apply has_key_spec in Hex.
    destruct (existsb _ ents); [done|]. apply elem_of_app. by left.
  - intros e [[Hin _]|[_ [He|[He _]]]]%merge_entity_elem Hk; [by apply Hall| |done].
    rewrite He. by eexists.
Qed.

Lemma merge_entity_noop (ents : list (string * option string)) (key nk : string) :
  settled key ents -> merge_entity ents key nk = ents.
Proof.
  intros [Hex Hall]. unfold merge_entity. rewrite Hex.
  rewrite <- (List.map_id ents) at 2. apply List.map_ext_in.
  intros [k o] Hin%list_elem_of_In. cbn.
  destruct (String.eqb_spec k key) as [->|]; [|done].
  destruct (Hall _ Hin eq_refl) as [x Hx]. cbn in Hx. by rewrite Hx.
Qed.

Lemma merge_entity_below (ents : list (string * option string)) (key nk : string)
    (e : string * option string) :
  e ∈ ents ->
  exists o, (e.1, o) ∈ merge_entity ents key nk /\ (is_Some e.2 -> o = e.2).
Proof.
  intros Hin. unfold merge_entity. destruct (existsb _ ents).
  - destruct e as [k o]. cbn. destruct (String.eqb_spec k key) as [->|Hne].
    + exists (Some (default nk o)). split.
      * apply list_elem_of_In, in_map_iff. exists (key, o). cbn.
        rewrite String.eqb_refl. split; [done|]. by apply list_elem_of_In.
      * by intros [x ->].
    + exists o. split; [|done]. apply list_elem_of_In, in_map_iff. exists (k, o). cbn.
      destruct (String.eqb_spec k key); [done|]. split; [done|]. by apply list_elem_of_In.
  - exists e.2. split; [|done]. apply elem_of_app. left. by destruct e.
Qed.

Lemma merge_row_has (k : kg) (sp : ingest_span) : has_span sp (merge_row k sp).
Proof.
  split; cbn; [apply merge_entity_settled|]. apply add_absent_elem. by left.
Qed.

Lemma merge_row_mono (k : kg) (sp sp' : ingest_span) :
  has_span sp' k -> has_span sp' (merge_row k sp).
Proof.
  intros [Hs Hm]. split; cbn; [by apply merge_entity_mono|].
  apply add_absent_elem. by right.
Qed.

Lemma merge_row_noop (k : kg) (sp : ingest_span) : has_span sp k -> merge_row k sp = k.
Proof.
  intros [Hs Hm]. unfold merge_row. cbv zeta.
  rewrite merge_entity_noop, add_absent_noop by done. by destruct k.
Qed.

Lemma merge_alias_entities (k : kg) (a : alias_row) :
  k_entities (merge_alias k a) = k_entities k /\ k_mentions (merge_alias k a) = k_mentions k.
Proof. unfold merge_alias. by destruct (existsb _ _). Qed.

Lemma merge_alias_span (k : kg) (a : alias_row) (sp : ingest_span) :
  has_span sp k -> has_span sp (merge_alias k a).
Proof.
  unfold has_span. destruct (merge_alias_entities k a) as [-> ->]. done.
Qed.

Lemma merge_alias_has (k : kg) (a : alias_row) : has_alias a (merge_alias k a).
Proof.
  unfold has_alias. destruct (merge_alias_entities k a) as [-> _].
  intros Hex. unfold merge_alias. rewrite Hex. cbn. split; intros ->.
  - apply add_absent_elem. by left.
  - apply add_absent_elem. by left.
Qed.

Lemma merge_alias_mono (k : kg) (a a' : alias_row) :
  has_alias a' k -> has_alias a' (merge_alias k a).
Proof.
  unfold has_alias. destruct (merge_alias_entities k a) as [-> _].
  intros H Hex. destruct (H Hex) as [H1 H2]. clear H Hex. unfold merge_alias.
  destruct (existsb (fun e => String.eqb e.1 (a_entity_key a)) (k_entities k)); [|done].
  cbn. split; intros Ht.
  - destruct (truthy (a_alias a)); [apply add_absent_elem; right|]; by apply H1.
  - destruct (truthy (a_alias_phonetic a)); [apply add_absent_elem; right|]; by apply H2.
Qed.

Lemma merge_alias_noop (k : kg) (a : alias_row) : has_alias a k -> merge_alias k a = k.
Proof.
  unfold has_alias, merge_alias. intros H.
  destruct (existsb _ (k_entities k)); [|done]. destruct (H eq_refl) as [H1 H2].
  destruct (truthy (a_alias a)); destruct (truthy (a_alias_phonetic a));
    rewrite ?add_absent_noop by auto; by destruct k.
Qed.

(** With a password, a reachable store and a batch size of at least
    one, the node writes every row and every alias row, and reports the
    number of rows. *)
Lemma ingest_node_eval (items : list ner_item) (password : option string)
    (batch_size : Z) (k : kg) :
  truthy password = true -> (1 <= batch_size)%Z ->
  neo4j_ingest_node items password batch_size (KgUp k)
  = (inl (length (ingest_rows items)), KgUp (ingested_store items k)).
Proof.
  intros Hp Hb. unfold neo4j_ingest_node, ingested_store, ingest_rows, ingest_aliases.
  rewrite Hp. cbn [negb]. cbv zeta.
  set (entries := flat_map_list ingest_entries_of items).
  destruct (is_nil (List.map fst entries)) eqn:Hn.
  - apply is_nil_spec in Hn. rewrite Hn.
    assert (entries = []) as -> by (by destruct entries). done.
  - destruct (batches_spec (List.map fst entries) batch_size Hb) as (bs & -> & Hc & Ht & _).
    rewrite fold_left_concat, Hc, Ht. do 2 f_equal.
    destruct (is_nil (flat_map_list snd entries)) eqn:Ha; [|done].
    apply is_nil_spec in Ha. by rewrite Ha.
Qed.

Lemma ingest_entries_rows (obj : ner_item) :
  List.map (fun x => sp_row x.1) (ingest_entries_of obj) = ingest_rows_of obj.
Proof.
  unfold ingest_entries_of, ingest_rows_of, flat_map_list. cbv zeta.
  rewrite List.concat_map, List.map_map. f_equal. apply List.map_ext. intros e.
  by destruct (Str.is_empty _).
Qed.

Lemma ingest_rows_rows (items : list ner_item) :
  List.map sp_row (ingest_rows items) = flat_map_list ingest_rows_of items.
Proof.
  unfold ingest_rows, flat_map_list. rewrite List.map_map, List.concat_map, List.map_map.
  f_equal. apply List.map_ext. intros obj. apply ingest_entries_rows.
Qed.

Lemma ingested_store_has_rows (items : list ner_item) (k : kg) (sp : ingest_span) :
  sp ∈ ingest_rows items -> has_span sp (ingested_store items k).
Proof.
  intros Hsp. unfold ingested_store.
  apply (fold_left_keeps merge_alias (has_span sp)).
  { intros k' a. apply merge_alias_span. }
  apply (fold_left_reaches merge_row has_span); [apply merge_row_has| |done].
  intros k' x y. apply merge_row_mono.
Qed.

Lemma length_flat_map_filter {A B : Type} (c : A -> bool) (h : A -> B) (l : list A) :
  length (flat_map_list (fun e => if c e then [] else [h e]) l)
  = length (List.filter (fun e => negb (c e)) l).
Proof.
  unfold flat_map_list. induction l as [|e l IH]; [done|].
  cbn [List.map List.concat List.filter]. rewrite length_app, IH.
  by destruct (c e).
Qed.

Lemma length_flat_map_ext {A B C : Type} (f : A -> list B) (g : A -> list C) (l : list A) :
  (forall x, length (f x) = length (g x)) ->
  length (flat_map_list f l) = length (flat_map_list g l).
Proof.
  intros H. unfold flat_map_list. induction l as [|x l IH]; [done|].
  cbn [List.map List.concat]. by rewrite !length_app, H, IH.
Qed.

(** X15: with a password, a reachable store and a batch size of at
    least one, [neo4j_ingest_node] returns; the number it reports as
    ingested is the number of entities, those added for a keyword
    included, whose text is not blank, over all items; and the store
    then holds, for each of them, the entity under its key, with a
    [norm_key], and the mention of the entity by the chunk at its
    offsets. *)
Theorem ingest_outcome (items : list ner_item) (password : option string)
    (batch_size : Z) (k : kg) :
  truthy password = true -> (1 <= batch_size)%Z ->
  exists k',
    neo4j_ingest_node items password batch_size (KgUp k)
    = (inl (length
              (flat_map_list
                 (fun obj =>
                    List.filter
                      (fun e => negb (Str.is_empty (Str.strip (default "" (e_text e)))))
                      (_augment_entities_with_keywords (Some (default "" (i_text obj)))
                         (Some (default [] (i_entities obj)))))
                 items)),
       KgUp k')
    /\ forall sp, sp ∈ ingest_rows items -> has_span sp k'.
Proof.
  intros Hp Hb. exists (ingested_store items k). rewrite ingest_node_eval by done.
  split; [|intros sp; apply ingested_store_has_rows].
  do 2 f_equal. unfold ingest_rows. rewrite length_map.
  apply length_flat_map_ext. intros obj. unfold ingest_entries_of. cbv zeta.
  apply (length_flat_map_filter
           (fun e => Str.is_empty (Str.strip (default "" (e_text e))))).
Qed.

Lemma ingest_outcome_witness :
  let items := [NerItem (Some "The Court heard Rao") "d" "0"
                  (Some [Entity (Some "PERSON") (Some "Rao") (Some 16%Z) (Some 19%Z)
                           None None false;
                         Entity (Some "DATE") (Some "  ") None None None None false])] in
  truthy (Some "secret") = true /\ (1 <= 1000)%Z
  /\ (neo4j_ingest_node items (Some "secret") 1000 (KgUp (Kg [] [] [] []))).1 = inl 2.
Proof.
  cbv zeta. split; [reflexivity|]. split; [lia|].
  set (items := [NerItem _ _ _ _]).
  destruct (ingest_outcome items (Some "secret") 1000 (Kg [] [] [] []) eq_refl ltac:(lia))
    as (k' & -> & _).
  cbn [fst]. vm_compute. reflexivity.
Defined.

Lemma ingested_store_has_aliases (items : list ner_item) (k : kg) (a : alias_row) :
  a ∈ ingest_aliases items -> has_alias a (ingested_store items k).
Proof.
  intros Ha. unfold ingested_store.
  apply (fold_left_reaches merge_alias has_alias); [apply merge_alias_has| |done].
  intros k' x y. apply merge_alias_mono.
Qed.

Lemma ingested_store_fixed (items : list ner_item) (k : kg) :
  ingested_store items (ingested_store items k) = ingested_store items k.
Proof.
  set (k1 := ingested_store items k). unfold ingested_store at 1.
  rewrite (fold_left_fixed merge_row (ingest_rows items) k1).
  - apply fold_left_fixed. intros a Ha. by apply merge_alias_noop, ingested_store_has_aliases.
  - intros sp Hsp. by apply merge_row_noop, ingested_store_has_rows.
Qed.

(** X16: ingesting the same items a second time changes nothing: the
    same number is reported, and the entities, mentions, alias names and
    phonetic codes of the store are those after the first time. *)
Theorem ingest_idempotent (items : list ner_item) (password : option string)
    (batch_size : Z) (k : kg) :
  truthy password = true -> (1 <= batch_size)%Z ->
  exists n k1,
    neo4j_ingest_node items password batch_size (KgUp k) = (inl n, KgUp k1)
    /\ neo4j_ingest_node items password batch_size (KgUp k1) = (inl n, KgUp k1).
Proof.
  intros Hp Hb. exists (length (ingest_rows items)), (ingested_store items k).
  by rewrite !ingest_node_eval, ingested_store_fixed.
Qed.

Lemma ingest_idempotent_witness :
  let items := [NerItem (Some "The Court heard Rao") "d" "0"
                  (Some [Entity (Some "PERSON") (Some "Rao") (Some 16%Z) (Some 19%Z)
                           None None false])] in
  truthy (Some "secret") = true /\ (1 <= 1)%Z
  /\ exists n k1,
       neo4j_ingest_node items (Some "secret") 1 (KgUp (Kg [] [] [] [])) = (inl n, KgUp k1)
       /\ neo4j_ingest_node items (Some "secret") 1 (KgUp k1) = (inl n, KgUp k1).
Proof.
  cbv zeta. split; [reflexivity|]. split; [lia|].
  apply ingest_idempotent; [reflexivity|lia].
Defined.

(** ** Nothing is lost by an ingestion *)

Lemma kg_below_refl (k : kg) : kg_below k k.
Proof.
  split; [|done]. intros e He. exists e.2. split; [by destruct e|done].
Qed.

Lemma kg_below_trans (k1 k2 k3 : kg) : kg_below k1 k2 -> kg_below k2 k3 -> kg_below k1 k3.
Proof.
  intros (E1 & M1 & A1 & P1) (E2 & M2 & A2 & P2). split; [|split; [|split]]; auto.
  intros e He. destruct (E1 e He) as (o & Ho & Hs).
  destruct (E2 _ Ho) as (o' & Ho' & Hs'). cbn in *. exists o'. split; [done|].
  intros Hsome. specialize (Hs Hsome). subst o. by apply Hs'.
Qed.

Lemma merge_row_below (k : kg) (sp : ingest_span) : kg_below k (merge_row k sp).
Proof.
  split; [|split; [|done]]; cbn.
  - intros e He. by apply merge_entity_below.
  - intros m Hm. apply add_absent_elem. by right.
Qed.

Lemma merge_alias_below (k : kg) (a : alias_row) : kg_below k (merge_alias k a).
Proof.
  unfold merge_alias. destruct (existsb _ _); [|apply kg_below_refl].
  split; [|split; [|split]]; cbn; try done.
  - intros e He. exists e.2. split; [by destruct e|done].
  - intros x Hx. destruct (truthy (a_alias a)); [|done]. apply add_absent_elem. by right.
  - intros x Hx. destruct (truthy (a_alias_phonetic a)); [|done].
    apply add_absent_elem. by right.
Qed.

Lemma merge_row_unique (k : kg) (sp : ingest_span) : kg_unique k -> kg_unique (merge_row k sp).
Proof.
  unfold kg_unique. cbn. rewrite merge_entity_keys. intros Hk.
  destruct (existsb _ _) eqn:Hex; [done|]. apply NoDup_app. split; [done|]. split.
  - intros x Hx ->%list_elem_of_singleton.
    assert (existsb (fun e => String.eqb e.1 (r_entity_key (sp_row sp))) (k_entities k) = true);
      [by apply has_key_spec|congruence].
  - apply NoDup_singleton.
Qed.

Lemma merge_alias_unique (k : kg) (a : alias_row) :
  kg_unique k -> kg_unique (merge_alias k a).
Proof. unfold kg_unique. by destruct (merge_alias_entities k a) as [-> _]. Qed.

(** X17: whatever its outcome, an ingestion into a reachable store
    loses nothing: every entity is still there, with the [norm_key] it
    had, and so is every mention, alias name and phonetic code; and
    entity keys that were unique stay unique. *)
Theorem ingest_keeps_store (items : list ner_item) (password : option string)
    (batch_size : Z) (k : kg) :
  exists k',
    (neo4j_ingest_node items password batch_size (KgUp k)).2 = KgUp k'
    /\ kg_below k k'
    /\ (kg_unique k -> kg_unique k').
Proof.
  unfold neo4j_ingest_node. destruct (negb (truthy password)).
  { exists k. split; [done|]. split; [apply kg_below_refl|done]. }
  cbv zeta. destruct (is_nil _).
  { exists k. split; [done|]. split; [apply kg_below_refl|done]. }
  destruct (batches _ batch_size) as [bs|].
  2: { exists k. split; [done|]. split; [apply kg_below_refl|done]. }
  eexists. split; [reflexivity|]. rewrite fold_left_concat.
  set (k1 := fold_left merge_row _ k).
  assert (H1 : kg_below k k1 /\ (kg_unique k -> kg_unique k1)).
  { split.
    - apply (fold_left_keeps merge_row (kg_below k)); [|apply kg_below_refl].
      intros k' x Hk'. eapply kg_below_trans; [exact Hk'|apply merge_row_below].
    - apply (fold_left_keeps merge_row kg_unique). intros k' x. apply merge_row_unique. }
  destruct H1 as [Hb Hu]. destruct (is_nil _); [done|]. split.
  - apply (fold_left_keeps merge_alias (kg_below k)); [|done].
    intros k' x Hk'. eapply kg_below_trans; [exact Hk'|apply merge_alias_below].
  - intros Hk. apply (fold_left_keeps merge_alias kg_unique); [|by apply Hu].
    intros k' x. apply merge_alias_unique.
Qed.

Lemma ingest_keeps_store_witness :
  let k := Kg [("ORG|acme", None)] [("d:9", "ORG|acme", 0%Z, 4%Z)] [] [] in
  kg_unique k
  /\ exists k',
       (neo4j_ingest_node [NerItem (Some "Acme") "d" "0"
                             (Some [Entity (Some "ORG") (Some "Acme") None None None None false])]
          (Some "secret") 10 (KgUp k)).2 = KgUp k'
       /\ kg_below k k' /\ kg_unique k'.
Proof.
  cbv zeta.
  assert (Hu : kg_unique (Kg [("ORG|acme", None)] [("d:9", "ORG|acme", 0%Z, 4%Z)] [] [])).
  { unfold kg_unique. cbn. apply NoDup_singleton. }
  split; [exact Hu|].
  destruct (ingest_keeps_store
              [NerItem (Some "Acme") "d" "0"
                 (Some [Entity (Some "ORG") (Some "Acme") None None None None false])]
              (Some "secret") 10
              (Kg [("ORG|acme", None)] [("d:9", "ORG|acme", 0%Z, 4%Z)] [] []))
    as (k' & H1 & H2 & H3).
  exists k'. split; [exact H1|]. split; [exact H2|]. exact (H3 Hu).
Defined.

(** ** From ingestion to retrieval *)

Lemma augment_keeps (text : string) (ents : list entity) (e : entity) :
  e ∈ ents -> e ∈ _augment_entities_with_keywords (Some text) (Some ents).
Proof.
  intros He. rewrite augment_court_eval. destruct (bool_decide _); [done|].
  destruct (finditer _ text) as [|[i m] ?]; [done|]. apply elem_of_app. by left.
Qed.

Lemma is_empty_spec (s : string) : Str.is_empty s = true <-> s = "".
Proof. by destruct s. Qed.

Lemma ingest_rows_elem (items : list ner_item) (obj : ner_item) (e : entity) :
  obj ∈ items ->
  e ∈ default [] (i_entities obj) ->
  Str.strip (default "" (e_text e)) <> "" ->
  exists sp,
    sp ∈ ingest_rows items
    /\ r_chunk_uid (sp_row sp) = String.append (i_doc_id obj) (String.append ":" (i_chunk_id obj))
    /\ r_entity_key (sp_row sp)
       = make_entity_key (Some (default "" (e_label e)))
           (Some (Str.strip (default "" (e_text e)))).
Proof.
  intros Hobj He Ht.
  pose proof (augment_keeps (default "" (i_text obj)) _ e He) as Ha.
  eexists (IngestSpan (IngestRow _ _ _ _ _ _ _ _) _ _). split; [|split; reflexivity].
  unfold ingest_rows. apply list_elem_of_In, in_map_iff. eexists (_, _).
  split; [reflexivity|]. apply list_elem_of_In, flat_map_list_elem.
  exists obj. split; [done|]. unfold ingest_entries_of. cbv zeta.
  apply flat_map_list_elem. exists e. split; [exact Ha|].
  destruct (Str.is_empty _) eqn:Hem; [by apply is_empty_spec in Hem|].
  apply list_elem_of_here.
Qed.

Lemma returned_intro (reason : string) (pairs : list (string * string))
    (p : string * string) :
  p ∈ pairs -> exists n, (p.1, p.2, reason, n) ∈ returned reason pairs.
Proof.
  intros Hp. eexists. unfold returned. apply list_elem_of_In, in_map_iff.
  exists p. split; [reflexivity|]. by apply list_elem_of_In, keep_first_elem.
Qed.

Lemma by_key_intro (g : graph) (keys : list string) (key cid : string) :
  key ∈ keys -> key ∈ List.map fst (g_entities g) -> (cid, key) ∈ g_mentions g ->
  (key, cid) ∈ by_key g keys.
Proof.
  intros Hk (e & He & Hin)%list_elem_of_In%in_map_iff Hm. unfold by_key.
  apply flat_map_list_elem. exists key. split; [done|].
  apply flat_map_list_elem. exists e. split; [by apply list_elem_of_In|].
  rewrite He, String.eqb_refl. by apply chunks_of_elem.
Qed.

(** A chunk that mentions an entity whose key is asked for is
    returned. *)
Lemma matcher_finds_direct (st : state) (g : graph) (q : qent) (cid : string) :
  truthy (neo4j_password st) = true ->
  q ∈ query_entities st -> truthy (q_text q) = true ->
  make_entity_key (q_label q) (q_text q) ∈ List.map fst (g_entities g) ->
  (cid, make_entity_key (q_label q) (q_text q)) ∈ g_mentions g ->
  exists kg, matcher_result st (Reachable g) = Some kg /\ cid ∈ kg_ids kg.
Proof.
  intros Hp Hq Ht He Hm. set (key := make_entity_key (q_label q) (q_text q)) in *.
  assert (Hk : key ∈ request_keys (query_entities st)).
  { unfold request_keys, usable. apply list_elem_of_In, in_map_iff. exists q.
    split; [done|]. apply filter_In. split; [by apply list_elem_of_In|done]. }
  rewrite matcher_result_reachable. eexists. split; [reflexivity|]. cbv zeta.
  destruct (is_nil _) eqn:Hn.
  { apply is_nil_spec in Hn. rewrite Hn in Hk. by apply elem_of_nil in Hk. }
  rewrite Hp. cbn [negb]. unfold kg_from_rows. cbn [kg_ids]. rewrite add_unseen_fresh.
  apply keep_first_elem.
  destruct (returned_intro "direct" _ _ (by_key_intro g _ key cid Hk He Hm)) as [n Hn'].
  cbn [fst snd] in Hn'.
  assert (Hs : (key, cid, "direct", n)
               ∈ query_tx_strict g (request_keys (query_entities st))
                   (request_norm_keys (query_entities st))
                   (request_phonetics (query_entities st)) (kg_limit st)).
  { unfold query_tx_strict. apply keep_first_elem, elem_of_app. by left. }
  unfold matcher_rows. cbv zeta.
  destruct (is_nil (query_tx_strict _ _ _ _ _)) eqn:Hr.
  { apply is_nil_spec in Hr. rewrite Hr in Hs. by apply elem_of_nil in Hs. }
  cbn [andb]. by apply (list_elem_of_fmap_2 row_id) in Hs.
Qed.

Lemma ingested_chunk_found (items : list ner_item) (password : option string)
    (batch_size : Z) (k : kg) (obj : ner_item) (e : entity) (st : state) (q : qent) :
  truthy password = true -> (1 <= batch_size)%Z ->
  obj ∈ items ->
  e ∈ default [] (i_entities obj) ->
  Str.strip (default "" (e_text e)) <> "" ->
  truthy (neo4j_password st) = true ->
  q ∈ query_entities st -> truthy (q_text q) = true ->
  make_entity_key (q_label q) (q_text q)
  = make_entity_key (Some (default "" (e_label e))) (Some (Str.strip (default "" (e_text e)))) ->
  exists n k' kg,
    neo4j_ingest_node items password batch_size (KgUp k) = (inl n, KgUp k')
    /\ matcher_result st (Reachable (graph_of k')) = Some kg
    /\ String.append (i_doc_id obj) (String.append ":" (i_chunk_id obj)) ∈ kg_ids kg.
Proof.
  intros Hp Hb Hobj He Ht Hsp Hq Hqt Hkey.
  destruct (ingest_rows_elem items obj e Hobj He Ht) as (sp & Hin & Huid & Hk).
  destruct (ingested_store_has_rows items k sp Hin) as [[Hex _] Hm].
  rewrite Huid, Hk, <- Hkey in *.
  destruct (matcher_finds_direct st (graph_of (ingested_store items k)) q
              (String.append (i_doc_id obj) (String.append ":" (i_chunk_id obj))))
    as (kg & Hkg & Hid); try done.
  - by apply has_key_spec.
  - cbn [graph_of g_mentions]. apply list_elem_of_In, in_map_iff.
    eexists. split; [|by apply list_elem_of_In]. done.
  - exists (length (ingest_rows items)), (ingested_store items k), kg.
    by rewrite ingest_node_eval.
Qed.

(** X18: after an ingestion, the graph matcher returns the chunk of an
    ingested entity for every query entity that has the key of that
    entity, whatever else the store and the query contain. *)
Theorem ingest_then_query (items : list ner_item) (password : option string)
    (batch_size : Z) (k : kg) (obj : ner_item) (e : entity) (st : state) (q : qent) :
  truthy password = true -> (1 <= batch_size)%Z ->
  obj ∈ items ->
  e ∈ default [] (i_entities obj) ->
  Str.strip (default "" (e_text e)) <> "" ->
  truthy (neo4j_password st) = true ->
  q ∈ query_entities st -> truthy (q_text q) = true ->
  make_entity_key (q_label q) (q_text q)
  = make_entity_key (Some (default "" (e_label e))) (Some (Str.strip (default "" (e_text e)))) ->
  exists n k' kg,
    neo4j_ingest_node items password batch_size (KgUp k) = (inl n, KgUp k')
    /\ matcher_result st (Reachable (graph_of k')) = Some kg
    /\ String.append (i_doc_id obj) (String.append ":" (i_chunk_id obj)) ∈ kg_ids kg.
Proof. apply ingested_chunk_found. Qed.

Lemma ingest_then_query_witness :
  let rao := Entity (Some "PERSON") (Some " A. Rao ") (Some 0%Z) (Some 6%Z) None None false in
  let obj := NerItem (Some "A. Rao appeared") "case7" "3" (Some [rao]) in
  let q := ent "person" "a rao" in
  let st := query_state [q] 25 false in
  exists n k' kg,
    neo4j_ingest_node [obj] (Some "secret") 1000 (KgUp (Kg [] [] [] [])) = (inl n, KgUp k')
    /\ matcher_result st (Reachable (graph_of k')) = Some kg
    /\ "case7:3" ∈ kg_ids kg.
Proof.
  cbv zeta.
  apply (ingest_then_query _ _ _ _
           (NerItem (Some "A. Rao appeared") "case7" "3"
              (Some [Entity (Some "PERSON") (Some " A. Rao ") (Some 0%Z) (Some 6%Z)
                       None None false]))
           (Entity (Some "PERSON") (Some " A. Rao ") (Some 0%Z) (Some 6%Z) None None false)
           _ (ent "person" "a rao")).
  - reflexivity.
  - lia.
  - apply list_elem_of_here.
  - apply list_elem_of_here.
  - vm_compute. discriminate.
  - reflexivity.
  - apply list_elem_of_here.
  - reflexivity.
  - vm_compute. reflexivity.
Defined.

(** ** From the extractor to the selection *)

Lemma query_entities_elem (query : string) (ents : list entity) (e : entity) :
  e ∈ ents ->
  Str.strip (default "" (e_text e)) <> "" ->
  exists q,
    q ∈ (ner_query_entities query (Some ents)).1
    /\ q_label q = Some (default "" (e_label e))
    /\ q_text q = Some (Str.strip (default "" (e_text e))).
Proof.
  intros He Ht.
  exists (QEnt (Some (default "" (e_label e))) (Some (Str.strip (default "" (e_text e))))
            (make_entity_key (Some (default "" (e_label e)))
               (Some (Str.strip (default "" (e_text e)))))
            (e_source e)).
  split; [|split; reflexivity].
  unfold ner_query_entities. cbv zeta. cbn [fst].
  apply list_elem_of_In, in_map_iff. exists e. split.
  - by destruct (e_label e) as [[|? ?]|].
  - apply filter_In. split.
    + apply list_elem_of_In. change (default [] (Some ents)) with ents.
      by apply augment_keeps.
    + destruct (Str.is_empty _) eqn:Hem; [by apply is_empty_spec in Hem|done].
Qed.

(** X25: from the extractor to the selection.  When the extractor finds
    an entity in a chunk and, in the query, an entity with the same
    label and text up to letter case and surrounding whitespace, then
    after the ingestion of the chunk the graph matcher returns the chunk
    for the query; and the merge selects it when [top_k] is at least the
    number of chunks that the matcher returns. *)
Theorem ingested_entity_is_retrieved (items : list ner_item) (password : option string)
    (batch_size : Z) (k : kg) (obj : ner_item) (e : entity)
    (st : state) (query : string) (qents : list entity) (e' : entity) :
  truthy password = true -> (1 <= batch_size)%Z ->
  obj ∈ items -> e ∈ default [] (i_entities obj) ->
  Str.strip (default "" (e_text e)) <> "" ->
  truthy (neo4j_password st) = true ->
  query_entities st = (ner_query_entities query (Some qents)).1 ->
  e' ∈ qents ->
  Str.lower (default "" (e_label e')) = Str.lower (default "" (e_label e)) ->
  Str.lower (Str.strip (default "" (e_text e')))
  = Str.lower (Str.strip (default "" (e_text e))) ->
  exists n k' kg m,
    neo4j_ingest_node items password batch_size (KgUp k) = (inl n, KgUp k')
    /\ kg_then_merge st (Reachable (graph_of k')) = Some (kg, m)
    /\ String.append (i_doc_id obj) (String.append ":" (i_chunk_id obj)) ∈ kg_ids kg
    /\ ((0 <= top_k st)%Z ->
        size (list_to_set (kg_ids kg) : gset string) <= Z.to_nat (top_k st) ->
        String.append (i_doc_id obj) (String.append ":" (i_chunk_id obj)) ∈ final_ids m).
Proof.
  intros Hp Hb Hobj He Ht Hsp Hq He' Hl Hlt.
  assert (Ht' : Str.strip (default "" (e_text e')) <> "").
  { intros H0. rewrite H0 in Hlt. destruct (Str.strip (default "" (e_text e))); [done|].
    discriminate Hlt. }
  destruct (query_entities_elem query qents e' He' Ht') as (q & Hin & Hql & Hqt).
  rewrite <- Hq in Hin.
  destruct (ingested_chunk_found items password batch_size k obj e st q)
    as (n & k' & kg & Hi & Hm & Hid); try done.
  - rewrite Hqt. cbn. by destruct (Str.strip (default "" (e_text e'))).
  - rewrite Hql, Hqt. by apply entity_key_caseless.
  - exists n, k', kg, (merge_ids_node st kg). split; [done|]. split.
    + by rewrite kg_then_merge_result, Hm.
    + split; [done|]. intros Hk Hsz. by apply merge_selects_all_kg.
Qed.

Lemma ingested_entity_is_retrieved_witness :
  let rao := Entity (Some "PERSON") (Some " A. Rao ") (Some 0%Z) (Some 6%Z) None None false in
  let obj := NerItem (Some "A. Rao appeared") "case7" "3" (Some [rao]) in
  let e' := Entity (Some "person") (Some "a. rao") None None None None false in
  let st := State (ner_query_entities "did a. rao appear" (Some [e'])).1 false (Some true)
              (Some "secret") 25 10 ["case9:0"] ["case9:0"] true in
  exists n k' kg m,
    neo4j_ingest_node [obj] (Some "secret") 1000 (KgUp (Kg [] [] [] [])) = (inl n, KgUp k')
    /\ kg_then_merge st (Reachable (graph_of k')) = Some (kg, m)
    /\ "case7:3" ∈ kg_ids kg
    /\ ((0 <= top_k st)%Z ->
        size (list_to_set (kg_ids kg) : gset string) <= Z.to_nat (top_k st) ->
        "case7:3" ∈ final_ids m).
Proof.
  cbv zeta.
  apply (ingested_entity_is_retrieved
           [NerItem (Some "A. Rao appeared") "case7" "3"
              (Some [Entity (Some "PERSON") (Some " A. Rao ") (Some 0%Z) (Some 6%Z)
                       None None false])]
           (Some "secret") 1000 (Kg [] [] [] [])
           (NerItem (Some "A. Rao appeared") "case7" "3"
              (Some [Entity (Some "PERSON") (Some " A. Rao ") (Some 0%Z) (Some 6%Z)
                       None None false]))
           (Entity (Some "PERSON") (Some " A. Rao ") (Some 0%Z) (Some 6%Z) None None false)
           (State (ner_query_entities "did a. rao appear"
                     (Some [Entity (Some "person") (Some "a. rao") None None None None
                              false])).1
              false (Some true) (Some "secret") 25 10 ["case9:0"] ["case9:0"] true)
           "did a. rao appear"
           [Entity (Some "person") (Some "a. rao") None None None None false]
           (Entity (Some "person") (Some "a. rao") None None None None false)).
  - reflexivity.
  - lia.
  - apply list_elem_of_here.
  - apply list_elem_of_here.
  - vm_compute. discriminate.
  - reflexivity.
  - reflexivity.
  - apply list_elem_of_here.
  - vm_compute. reflexivity.
  - vm_compute. reflexivity.
Defined.

(** ** Retrieval through the normal form and through the sound *)

Lemma fold_left_keeps_in {K X : Type} (f : K -> X -> K) (Q : K -> Prop) (l : list X) :
  (forall k x, x ∈ l -> Q k -> Q (f k x)) -> forall k, Q k -> Q (fold_left f l k).
Proof.
  induction l as [|y l IH]; intros Hf k Hk; cbn [fold_left]; [done|].
  apply IH.
  - intros k' x Hx. apply Hf. by apply list_elem_of_further.
  - apply Hf; [apply list_elem_of_here|done].
Qed.

(** A row returned by the strict query gives its chunk, with its
    reason. *)
Lemma matcher_returns_row (st : state) (g : graph) (x : row) :
  truthy (neo4j_password st) = true ->
  request_keys (query_entities st) <> [] ->
  x ∈ query_tx_strict g (request_keys (query_entities st))
        (request_norm_keys (query_entities st))
        (request_phonetics (query_entities st)) (kg_limit st) ->
  exists kg reasons rs,
    matcher_result st (Reachable g) = Some kg
    /\ row_id x ∈ kg_ids kg
    /\ kg_match_reasons kg = Some reasons
    /\ reasons !! row_id x = Some rs
    /\ row_reason x ∈ rs.
Proof.
  intros Hp Hk Hx. rewrite matcher_result_reachable. cbv zeta.
  destruct (is_nil _) eqn:Hn; [by apply is_nil_spec in Hn|].
  rewrite Hp. cbn [negb].
  assert (Hrows : matcher_rows st g
                  = query_tx_strict g (request_keys (query_entities st))
                      (request_norm_keys (query_entities st))
                      (request_phonetics (query_entities st)) (kg_limit st)).
  { unfold matcher_rows. cbv zeta.
    destruct (is_nil (query_tx_strict _ _ _ _ _)) eqn:Hr; [|done].
    apply is_nil_spec in Hr. rewrite Hr in Hx. by apply elem_of_nil in Hx. }
  rewrite Hrows. unfold kg_from_rows.
  cbn [kg_ids kg_match_reasons]. rewrite add_unseen_fresh.
  set (rows := query_tx_strict _ _ _ _ _) in *.
  assert (Hid : row_id x ∈ List.map row_id rows) by (by apply (list_elem_of_fmap_2 row_id)).
  destruct (proj2 (fold_reasons_some rows ∅ (row_id x)) (or_intror Hid)) as [rs Hrs].
  eexists _, _, rs. split; [reflexivity|]. split; [by apply keep_first_elem|].
  split; [reflexivity|]. split; [exact Hrs|].
  pose proof (proj2 (fold_reasons_elem rows ∅ (row_id x) (row_reason x))) as H.
  rewrite Hrs in H. apply H. right. by exists x.
Qed.

Lemma usable_elem (ents : list qent) (q : qent) :
  q ∈ ents -> truthy (q_text q) = true -> q ∈ usable ents.
Proof. intros Hq Ht. unfold usable. by apply filter_elem. Qed.

Lemma request_keys_nonempty (ents : list qent) (q : qent) :
  q ∈ ents -> truthy (q_text q) = true -> request_keys ents <> [].
Proof.
  intros Hq Ht Hn.
  assert (H : make_entity_key (q_label q) (q_text q) ∈ request_keys ents).
  { unfold request_keys. apply (list_elem_of_fmap_2 (fun e => make_entity_key (q_label e) (q_text e))).
    by apply usable_elem. }
  rewrite Hn in H. by apply elem_of_nil in H.
Qed.

Lemma ingest_aliases_elem (items : list ner_item) (obj : ner_item) (e : entity)
    (a : alias_row) :
  obj ∈ items ->
  e ∈ default [] (i_entities obj) ->
  Str.strip (default "" (e_text e)) <> "" ->
  a ∈ entity_alias_rows
        (make_entity_key (Some (default "" (e_label e)))
           (Some (Str.strip (default "" (e_text e)))))
        (Str.strip (default "" (e_text e)))
        (normalize_legal_entity (Str.strip (default "" (e_text e)))) ->
  a ∈ ingest_aliases items.
Proof.
  intros Hobj He Ht Ha.
  pose proof (augment_keeps (default "" (i_text obj)) _ e He) as Haug.
  unfold ingest_aliases. apply flat_map_list_elem. eexists (_, _). split; [|exact Ha].
  apply flat_map_list_elem. exists obj. split; [done|]. unfold ingest_entries_of. cbv zeta.
  apply flat_map_list_elem. exists e. split; [exact Haug|].
  destruct (Str.is_empty _) eqn:Hem; [by apply is_empty_spec in Hem|].
  apply list_elem_of_here.
Qed.

(** After the ingestion the entity of a row has the [norm_key] of the
    row, when the entity is new and the rows with its key agree on the
    [norm_key]. *)
Lemma ingested_norm_key (items : list ner_item) (k : kg) (sp : ingest_span) :
  sp ∈ ingest_rows items ->
  r_entity_key (sp_row sp) ∉ List.map fst (k_entities k) ->
  (forall sp', sp' ∈ ingest_rows items ->
     r_entity_key (sp_row sp') = r_entity_key (sp_row sp) ->
     r_entity_norm_key (sp_row sp') = r_entity_norm_key (sp_row sp)) ->
  (r_entity_key (sp_row sp), Some (r_entity_norm_key (sp_row sp)))
    ∈ k_entities (ingested_store items k).
Proof.
  intros Hsp Hnew Hsame.
  set (key := r_entity_key (sp_row sp)) in *.
  set (nk := r_entity_norm_key (sp_row sp)) in *.
  set (Q := fun k' : kg => forall e, e ∈ k_entities k' -> e.1 = key -> e.2 = Some nk).
  assert (HQ : Q (ingested_store items k)).
  { unfold ingested_store. apply (fold_left_keeps merge_alias Q).
    { intros k' a. unfold Q. by destruct (merge_alias_entities k' a) as [-> _]. }
    apply (fold_left_keeps_in merge_row Q).
    - intros k' x Hx Hk' e [[Hin Hne]|[Hk1 [He|[_ Hin]]]]%merge_entity_elem Hek.
      + by apply Hk'.
      + rewrite He. f_equal. apply Hsame; [done|]. by rewrite <- Hk1.
      + by apply Hk'.
    - intros e He Hek. exfalso. apply Hnew. rewrite <- Hek. by apply list_elem_of_fmap_2. }
  destruct (ingested_store_has_rows items k sp Hsp) as [[Hex _] _].
  apply has_key_spec in Hex. apply list_elem_of_fmap in Hex as ([k1 o] & Hk1 & Hin).
  cbn in Hk1. fold key in Hk1. subst k1. by rewrite <- (HQ _ Hin eq_refl).
Qed.

(** X27: an ingested entity is found through its normal form: when the
    entity is new to the store and the rows of the ingestion agree on its
    [norm_key], a query entity with a label that has the same normalized
    key for its normal form gets the chunk, with the reason norm_key. *)
Theorem ingest_then_query_by_norm_key (items : list ner_item) (password : option string)
    (batch_size : Z) (k : kg) (obj : ner_item) (e : entity) (st : state) (q : qent)
    (label : string) :
  let text := Str.strip (default "" (e_text e)) in
  let key := make_entity_key (Some (default "" (e_label e))) (Some text) in
  let norm_key :=
    make_entity_key (Some (default "" (e_label e))) (Some (normalize_legal_entity text)) in
  truthy password = true -> (1 <= batch_size)%Z ->
  obj ∈ items -> e ∈ default [] (i_entities obj) -> text <> "" ->
  key ∉ List.map fst (k_entities k) ->
  (forall sp, sp ∈ ingest_rows items -> r_entity_key (sp_row sp) = key ->
              r_entity_norm_key (sp_row sp) = norm_key) ->
  truthy (neo4j_password st) = true ->
  q ∈ query_entities st -> truthy (q_text q) = true -> q_label q = Some label ->
  normalize_legal_entity (text_of q) <> "" ->
  make_entity_key (Some label) (Some (normalize_legal_entity (text_of q))) = norm_key ->
  exists n k' kg reasons rs,
    neo4j_ingest_node items password batch_size (KgUp k) = (inl n, KgUp k')
    /\ matcher_result st (Reachable (graph_of k')) = Some kg
    /\ String.append (i_doc_id obj) (String.append ":" (i_chunk_id obj)) ∈ kg_ids kg
    /\ kg_match_reasons kg = Some reasons
    /\ reasons !! String.append (i_doc_id obj) (String.append ":" (i_chunk_id obj)) = Some rs
    /\ "norm_key" ∈ rs.
Proof.
  cbv zeta. intros Hp Hb Hobj He Ht Hnew Hsame Hsp Hq Hqt Hql Hnt Hnk.
  destruct (ingest_rows_elem items obj e Hobj He Ht) as (sp & Hin & Huid & Hk).
  assert (Hnks : r_entity_norm_key (sp_row sp)
                 = make_entity_key (Some (default "" (e_label e)))
                     (Some (normalize_legal_entity (Str.strip (default "" (e_text e))))))
    by (by apply Hsame).
  pose proof (ingested_norm_key items k sp Hin) as Hent.
  rewrite Hk, Hnks in Hent. specialize (Hent Hnew).
  destruct (ingested_store_has_rows items k sp Hin) as [_ Hm]. rewrite Huid, Hk in Hm.
  set (uid := String.append (i_doc_id obj) (String.append ":" (i_chunk_id obj))) in *.
  set (key := make_entity_key (Some (default "" (e_label e)))
                (Some (Str.strip (default "" (e_text e))))) in *.
  set (g := graph_of (ingested_store items k)).
  assert (Hpair : (key, uid) ∈ by_norm_key g (request_norm_keys (query_entities st))).
  { unfold by_norm_key. apply flat_map_list_elem. eexists. split.
    - unfold request_norm_keys. apply flat_map_list_elem. exists q.
      split; [by apply usable_elem|]. cbv zeta.
      destruct (Str.is_empty _) eqn:Hem; [by apply is_empty_spec in Hem|].
      rewrite Hql. apply list_elem_of_here.
    - apply flat_map_list_elem. eexists (key, _). split.
      + apply Hent. intros sp' Hsp' Hk'. by apply Hsame.
      + cbn [fst snd]. rewrite Hnk, bool_decide_eq_true_2 by done.
        apply chunks_of_elem. split; [done|]. cbn [fst snd graph_of g g_mentions].
        apply list_elem_of_In, in_map_iff. eexists. split; [|by apply list_elem_of_In].
        done. }
  destruct (returned_intro "norm_key" _ _ Hpair) as [c Hrow]. cbn [fst snd] in Hrow.
  destruct (matcher_returns_row st g (key, uid, "norm_key", c))
    as (kg & reasons & rs & H1 & H2 & H3 & H4 & H5); [done| |..].
  - by eapply request_keys_nonempty.
  - unfold query_tx_strict. apply keep_first_elem, elem_of_app. right.
    apply elem_of_app. by left.
  - exists (length (ingest_rows items)), (ingested_store items k), kg, reasons, rs.
    by rewrite ingest_node_eval.
Qed.

(** X28: an ingested entity is found through its sound, whatever the
    labels: a query entity whose normal form has the phonetic code of the
    normal form of the ingested entity gets the chunk, with the reason
    phonetic, also when [strict_match] is set. *)
Theorem ingest_then_query_by_sound (items : list ner_item) (password : option string)
    (batch_size : Z) (k : kg) (obj : ner_item) (e : entity) (st : state) (q : qent) :
  let text := Str.strip (default "" (e_text e)) in
  truthy password = true -> (1 <= batch_size)%Z ->
  obj ∈ items -> e ∈ default [] (i_entities obj) -> text <> "" ->
  truthy (neo4j_password st) = true ->
  q ∈ query_entities st -> truthy (q_text q) = true ->
  normalize_legal_entity (text_of q) <> "" ->
  phonetic_key (normalize_legal_entity (text_of q)) <> "" ->
  phonetic_key (normalize_legal_entity (text_of q)) = phonetic_key (normalize_legal_entity text) ->
  exists n k' kg reasons rs,
    neo4j_ingest_node items password batch_size (KgUp k) = (inl n, KgUp k')
    /\ matcher_result st (Reachable (graph_of k')) = Some kg
    /\ String.append (i_doc_id obj) (String.append ":" (i_chunk_id obj)) ∈ kg_ids kg
    /\ kg_match_reasons kg = Some reasons
    /\ reasons !! String.append (i_doc_id obj) (String.append ":" (i_chunk_id obj)) = Some rs
    /\ "phonetic" ∈ rs.
Proof.
  cbv zeta. intros Hp Hb Hobj He Ht Hsp Hq Hqt Hnt Hph Hsame.
  destruct (ingest_rows_elem items obj e Hobj He Ht) as (sp & Hin & Huid & Hk).
  destruct (ingested_store_has_rows items k sp Hin) as [[Hex _] Hm]. rewrite Huid, Hk in *.
  set (uid := String.append (i_doc_id obj) (String.append ":" (i_chunk_id obj))) in *.
  set (text := Str.strip (default "" (e_text e))) in *.
  set (key := make_entity_key (Some (default "" (e_label e))) (Some text)) in *.
  set (ph := phonetic_key (normalize_legal_entity text)) in *.
  assert (Ha : AliasRow key None (Some ph) ∈ ingest_aliases items).
  { apply (ingest_aliases_elem items obj e); [done..|].
    unfold entity_alias_rows. cbv zeta. rewrite !elem_of_app. do 4 right.
    fold text ph. destruct (Str.is_empty ph) eqn:Hem.
    - apply is_empty_spec in Hem. rewrite Hsame in Hph. by rewrite Hem in Hph.
    - apply list_elem_of_here. }
  destruct (ingested_store_has_aliases items k _ Ha Hex) as [_ Hcode].
  cbn [a_alias_phonetic a_entity_key] in Hcode.
  assert (Htr : truthy (Some ph) = true).
  { cbn. destruct ph; [|done]. by rewrite Hsame in Hph. }
  specialize (Hcode Htr). change (default "" (Some ph)) with ph in Hcode.
  set (g := graph_of (ingested_store items k)).
  assert (Hpair : (key, uid)
                  ∈ flat_map_list (fun _ => by_phonetic g (request_phonetics (query_entities st)))
                      (request_keys (query_entities st))).
  { apply flat_map_list_elem. exists (make_entity_key (q_label q) (q_text q)). split.
    { unfold request_keys.
      apply (list_elem_of_fmap_2 (fun e => make_entity_key (q_label e) (q_text e))).
      by apply usable_elem. }
    unfold by_phonetic. apply flat_map_list_elem. exists ph. split.
    - unfold request_phonetics. apply flat_map_list_elem. exists q.
      split; [by apply usable_elem|]. cbv zeta.
      destruct (Str.is_empty (normalize_legal_entity _)) eqn:Hem;
        [by apply is_empty_spec in Hem|].
      destruct (Str.is_empty (phonetic_key _)) eqn:Hem2; [by apply is_empty_spec in Hem2|].
      rewrite Hsame. apply list_elem_of_here.
    - apply flat_map_list_elem. exists (ph, key). split; [done|].
      cbn [fst snd]. rewrite String.eqb_refl. apply chunks_of_elem. split; [done|].
      cbn [fst snd graph_of g g_mentions].
      apply list_elem_of_In, in_map_iff. eexists. split; [|by apply list_elem_of_In].
      done. }
  destruct (returned_intro "phonetic" _ _ Hpair) as [c Hrow]. cbn [fst snd] in Hrow.
  destruct (matcher_returns_row st g (key, uid, "phonetic", c))
    as (kg & reasons & rs & H1 & H2 & H3 & H4 & H5); [done| |..].
  - by eapply request_keys_nonempty.
  - unfold query_tx_strict. apply keep_first_elem, elem_of_app. right.
    apply elem_of_app. right. apply elem_of_app. by right.
  - exists (length (ingest_rows items)), (ingested_store items k), kg, reasons, rs.
    by rewrite ingest_node_eval.
Qed.

Lemma ingest_then_query_by_norm_key_witness :
  let e := Entity (Some "PERSON") (Some "Dr. Rao") (Some 0%Z) (Some 7%Z) None None false in
  let obj := NerItem (Some "Dr. Rao appeared") "case7" "3" (Some [e]) in
  let st := query_state [ent "PERSON" "Rao"] 25 false in
  make_entity_key (Some "PERSON") (Some "Rao") <> make_entity_key (Some "PERSON") (Some "Dr. Rao")
  /\ exists n k' kg reasons rs,
       neo4j_ingest_node [obj] (Some "secret") 1000 (KgUp (Kg [] [] [] [])) = (inl n, KgUp k')
       /\ matcher_result st (Reachable (graph_of k')) = Some kg
       /\ "case7:3" ∈ kg_ids kg
       /\ kg_match_reasons kg = Some reasons
       /\ reasons !! "case7:3" = Some rs
       /\ "norm_key" ∈ rs.
Proof.
  cbv zeta. split; [vm_compute; discriminate|].
  apply (ingest_then_query_by_norm_key
           [NerItem (Some "Dr. Rao appeared") "case7" "3"
              (Some [Entity (Some "PERSON") (Some "Dr. Rao") (Some 0%Z) (Some 7%Z)
                       None None false])]
           (Some "secret") 1000 (Kg [] [] [] [])
           (NerItem (Some "Dr. Rao appeared") "case7" "3"
              (Some [Entity (Some "PERSON") (Some "Dr. Rao") (Some 0%Z) (Some 7%Z)
                       None None false]))
           (Entity (Some "PERSON") (Some "Dr. Rao") (Some 0%Z) (Some 7%Z) None None false)
           (query_state [ent "PERSON" "Rao"] 25 false) (ent "PERSON" "Rao") "PERSON").
  - reflexivity.
  - lia.
  - apply list_elem_of_here.
  - apply list_elem_of_here.
  - vm_compute. discriminate.
  - cbn [k_entities List.map]. apply not_elem_of_nil.
  - intros sp Hsp%list_elem_of_In _. vm_compute in Hsp.
    destruct Hsp as [<-|[]]. vm_compute. reflexivity.
  - reflexivity.
  - apply list_elem_of_here.
  - reflexivity.
  - reflexivity.
  - vm_compute. discriminate.
  - vm_compute. reflexivity.
Defined.

Lemma ingest_then_query_by_sound_witness :
  let e := Entity (Some "PERSON") (Some "Kala Devi") (Some 0%Z) (Some 9%Z) None None false in
  let obj := NerItem (Some "Kala Devi appeared") "case7" "3" (Some [e]) in
  let st := query_state [ent "ORG" "Kaladevy"] 25 false in
  strict_match st = Some true
  /\ exists n k' kg reasons rs,
       neo4j_ingest_node [obj] (Some "secret") 1000 (KgUp (Kg [] [] [] [])) = (inl n, KgUp k')
       /\ matcher_result st (Reachable (graph_of k')) = Some kg
       /\ "case7:3" ∈ kg_ids kg
       /\ kg_match_reasons kg = Some reasons
       /\ reasons !! "case7:3" = Some rs
       /\ "phonetic" ∈ rs.
Proof.
  cbv zeta. split; [reflexivity|].
  apply (ingest_then_query_by_sound
           [NerItem (Some "Kala Devi appeared") "case7" "3"
              (Some [Entity (Some "PERSON") (Some "Kala Devi") (Some 0%Z) (Some 9%Z)
                       None None false])]
           (Some "secret") 1000 (Kg [] [] [] [])
           (NerItem (Some "Kala Devi appeared") "case7" "3"
              (Some [Entity (Some "PERSON") (Some "Kala Devi") (Some 0%Z) (Some 9%Z)
                       None None false]))
           (Entity (Some "PERSON") (Some "Kala Devi") (Some 0%Z) (Some 9%Z) None None false)
           (query_state [ent "ORG" "Kaladevy"] 25 false) (ent "ORG" "Kaladevy")).
  - reflexivity.
  - lia.
  - apply list_elem_of_here.
  - apply list_elem_of_here.
  - vm_compute. discriminate.
  - reflexivity.
  - apply list_elem_of_here.
  - reflexivity.
  - vm_compute. discriminate.
  - vm_compute. discriminate.
  - vm_compute. reflexivity.
Defined.

(** ** One chunk, two identifiers *)

(** X19: the id of a chunk in the vector store and its id in the graph
    store are the same exactly when the metadata of the chunk has a
    [doc_id]; without one the two stores know the chunk under different
    ids, and the merge counts it as two chunks.  The rows of an item
    carry the graph id. *)
Theorem vector_and_graph_ids (meta : metadata) :
  (gen_id meta = chunk_uid meta <-> is_Some (md_doc_id meta))
  /\ (md_doc_id meta = None -> md_chunk_id meta = None ->
      gen_id meta = "doc:0" /\ chunk_uid meta = "unknown:0")
  /\ (forall text ents r,
        r ∈ ingest_rows_of (ner_item_of text meta ents) -> r_chunk_uid r = chunk_uid meta).
Proof.
  split; [|split].
  - unfold gen_id, chunk_uid. destruct (md_doc_id meta) as [d|]; cbn [default].
    + split; [by eexists|done].
    + split; [|by intros [? [=]]]. cbv zeta. cbn [default from_option].
      rewrite !sapp_cons. discriminate.
  - unfold gen_id, chunk_uid. by intros -> ->.
  - intros text ents r. unfold ingest_rows_of. cbv zeta.
    rewrite list_elem_of_In, <- flat_map_concat_map, in_flat_map.
    intros (e & _ & Hr). destruct (Str.is_empty _); [done|].
    by destruct Hr as [<-|[]].
Qed.

Lemma vector_and_graph_ids_witness :
  gen_id (Metadata None None) = "doc:0" /\ chunk_uid (Metadata None None) = "unknown:0"
  /\ gen_id (Metadata (Some "case7") (Some "3")) = chunk_uid (Metadata (Some "case7") (Some "3")).
Proof.
  destruct (vector_and_graph_ids (Metadata None None)) as (_ & H & _).
  destruct (vector_and_graph_ids (Metadata (Some "case7") (Some "3"))) as (H' & _ & _).
  destruct (H eq_refl eq_refl) as [-> ->]. split; [reflexivity|]. split; [reflexivity|].
  apply H'. by eexists.
Defined.

(** ** Keyword augmentation, applied twice *)

(** X20: augmenting entities that are already augmented with the same
    text adds nothing. *)
Theorem augment_idempotent (text : string) (ents : list entity) :
  _augment_entities_with_keywords (Some text)
    (Some (_augment_entities_with_keywords (Some text) (Some ents)))
  = _augment_entities_with_keywords (Some text) (Some ents).
Proof.
  rewrite (augment_court_eval text ents).
  destruct (bool_decide _) eqn:Hk.
  { rewrite augment_court_eval. by rewrite Hk. }
  pose proof (finditer_court_first text) as Hf.
  destruct (finditer (keyword_pat "court") text) as [|[i m] ms] eqn:Hfi.
  { rewrite augment_court_eval. by rewrite Hk, Hfi. }
  destruct Hf as [(pre & post & _ & _ & Hlow & _) _].
  rewrite augment_court_eval. rewrite bool_decide_eq_true_2; [done|].
  apply existing_norm_spec. exists (keyword_entity "ORG" i (m_text m)).
  split; [apply elem_of_app; right; apply list_elem_of_here|]. cbn. split.
  - destruct (m_text m); [discriminate Hlow|done].
  - by apply court_norm.
Qed.

(** ** The aliases of an ingested entity *)

Lemma phonetic_key_length (text : string) :
  phonetic_key text = "" \/ String.length (phonetic_key text) = 4.
Proof.
  pose proof (phonetic_shape text) as H.
  destruct (Str.filter Chr.is_alpha text); [by left|].
  destruct H as (d1 & d2 & d3 & -> & _). by right.
Qed.

(** X21: every alias row of an entity names that entity and carries
    either an alias name or a phonetic code; an alias name is not empty
    and has no whitespace and no letter from A to Z, and a phonetic
    code has four characters. *)
Theorem alias_rows_shape (entity_key entity_text : string) (a : alias_row) :
  a ∈ entity_alias_rows entity_key entity_text (normalize_legal_entity entity_text) ->
  a_entity_key a = entity_key
  /\ ((exists name,
         a_alias a = Some name /\ a_alias_phonetic a = None
         /\ name <> ""
         /\ avoids Chr.is_space name = true
         /\ avoids Chr.is_upper name = true)
      \/ (exists code,
            a_alias a = None /\ a_alias_phonetic a = Some code
            /\ String.length code = 4)).
Proof.
  assert (Hname : forall x,
            avoids Chr.is_space x = true -> avoids Chr.is_upper x = true ->
            a ∈ (if Str.is_empty x then [] else [AliasRow entity_key (Some x) None]) ->
            a_entity_key a = entity_key
            /\ ((exists name,
                   a_alias a = Some name /\ a_alias_phonetic a = None
                   /\ name <> "" /\ avoids Chr.is_space name = true
                   /\ avoids Chr.is_upper name = true)
                \/ (exists code,
                      a_alias a = None /\ a_alias_phonetic a = Some code
                      /\ String.length code = 4))).
  { intros x Hs Hu. destruct (Str.is_empty x) eqn:He; [by intros ?%elem_of_nil|].
    intros ->%list_elem_of_singleton. split; [done|]. left. exists x.
    repeat split; try done. intros ->. done. }
  assert (Hnorm : forall t,
            a ∈ (if Str.is_empty (normalize_legal_entity t) then []
                 else [AliasRow entity_key (Some (normalize_legal_entity t)) None]) ->
            a_entity_key a = entity_key
            /\ ((exists name,
                   a_alias a = Some name /\ a_alias_phonetic a = None
                   /\ name <> "" /\ avoids Chr.is_space name = true
                   /\ avoids Chr.is_upper name = true)
                \/ (exists code,
                      a_alias a = None /\ a_alias_phonetic a = Some code
                      /\ String.length code = 4))).
  { intros t. destruct (normalize_shape t) as (Hs & _ & Hu & _). by apply Hname. }
  unfold entity_alias_rows. cbv zeta. rewrite !elem_of_app.
  intros [H|[H|[H|[H|H]]]].
  - by apply (Hnorm entity_text).
  - set (c := sub digits_at_end (always "") (normalize_legal_entity entity_text)) in *.
    destruct (normalize_shape entity_text) as (Hs & _ & Hu & _).
    apply (Hname c); [by apply sub_always_within|by apply sub_always_within|].
    destruct (Str.is_empty c); [by apply elem_of_nil in H|].
    cbn [negb andb] in H. destruct (negb _); [done|by apply elem_of_nil in H].
  - apply flat_map_list_elem in H as (p & _ & H). by apply (Hnorm p).
  - by apply (Hnorm (Str.join " " (List.map Str.strip (split versus_pat_ci entity_text)))).
  - destruct (Str.is_empty (phonetic_key _)) eqn:He; [by apply elem_of_nil in H|].
    apply list_elem_of_singleton in H as ->. split; [done|]. right.
    eexists. split; [done|]. split; [done|].
    destruct (phonetic_key_length (normalize_legal_entity entity_text)) as [Hp|Hp]; [|done].
    by rewrite Hp in He.
Qed.

Lemma alias_rows_shape_witness :
  AliasRow "PERSON|rao" (Some "rao") None
    ∈ entity_alias_rows "PERSON|rao" "Rao4" (normalize_legal_entity "Rao4")
  /\ a_entity_key (AliasRow "PERSON|rao" (Some "rao") None) = "PERSON|rao".
Proof.
  assert (H : AliasRow "PERSON|rao" (Some "rao") None
                ∈ entity_alias_rows "PERSON|rao" "Rao4" (normalize_legal_entity "Rao4"))
    by (vm_compute; apply list_elem_of_here).
  split; [exact H|]. by destruct (alias_rows_shape _ _ _ H) as [-> _].
Defined.

(** ** Output paths *)

Lemma str_skip_app (a b : string) : str_skip (String.length a) (String.append a b) = b.
Proof. induction a as [|c a IH]; [by destruct b|]. by rewrite sapp_cons. Qed.

Lemma endswith_app (a b : string) : endswith (String.append a b) b = true.
Proof.
  unfold endswith. rewrite sapp_length.
  replace (String.length a + String.length b - String.length b) with (String.length a) by lia.
  rewrite str_skip_app, String.eqb_refl, andb_true_r. apply Nat.leb_le. lia.
Qed.

Lemma output_path_for_jsonl (root : string -> string) (suffix input_path : string)
    (output_path : option string) :
  endswith (Str.lower (output_path_for root suffix input_path output_path)) ".jsonl" = true.
Proof.
  unfold output_path_for. cbv zeta.
  set (p := if truthy output_path then _ else _).
  destruct (endswith (Str.lower p) ".jsonl") eqn:He; [done|].
  rewrite lower_sapp. apply endswith_app.
Qed.

Lemma output_path_for_given (root : string -> string) (suffix input_path p : string) :
  p <> "" -> endswith (Str.lower p) ".jsonl" = true ->
  output_path_for root suffix input_path (Some p) = p.
Proof.
  intros Hp He. unfold output_path_for. cbv zeta.
  replace (truthy (Some p)) with true by (by destruct p).
  change (default "" (Some p)) with p. by rewrite He.
Qed.

(** X22: the path that [save_node], [save_json_simple_node] and
    [save_embeddings_node] write to ends in [.jsonl], in some letter
    case, whatever paths they are given; and a given output path that
    ends so is used as it is. *)
Theorem output_paths_end_in_jsonl (root : string -> string) (input_path : string)
    (input_path' output_path : option string) :
  (endswith (Str.lower (save_node_path root input_path output_path)) ".jsonl" = true
   /\ endswith (Str.lower (save_json_simple_node_path root input_path' output_path)) ".jsonl"
      = true
   /\ endswith (Str.lower (save_embeddings_node_path root input_path' output_path)) ".jsonl"
      = true)
  /\ (forall p, output_path = Some p -> p <> "" ->
        endswith (Str.lower p) ".jsonl" = true ->
        save_node_path root input_path output_path = p
        /\ save_json_simple_node_path root input_path' output_path = p
        /\ save_embeddings_node_path root input_path' output_path = p).
Proof.
  split.
  - repeat split; apply output_path_for_jsonl.
  - intros p -> Hp He. repeat split; by apply output_path_for_given.
Qed.

Lemma output_paths_end_in_jsonl_witness :
  save_node_path (fun p => Str.take (String.length p - 5) p) "brief.docx" None
  = "brief.chunks.jsonl"
  /\ save_node_path (fun p => Str.take (String.length p - 5) p) "brief.docx" (Some "out/A.JSONL")
     = "out/A.JSONL".
Proof.
  split; [reflexivity|].
  destruct (output_paths_end_in_jsonl (fun p => Str.take (String.length p - 5) p)
              "brief.docx" None (Some "out/A.JSONL")) as [_ H].
  destruct (H "out/A.JSONL" eq_refl) as (-> & _ & _); [discriminate|reflexivity|reflexivity].
Defined.

(** ** The texts of the selected chunks *)

Lemma fold_insert_absent (got : list (string * option string)) (id : string) :
  forall d : gmap string (option string),
    id ∉ List.map fst got ->
    fold_left (fun d r => <[r.1 := r.2]> d) got d !! id = d !! id.
Proof.
  induction got as [|r got IH]; intros d Hid; cbn [fold_left]; [done|].
  cbn [List.map] in Hid. apply not_elem_of_cons in Hid as [Hne Hid].
  rewrite IH by done. by rewrite lookup_insert_ne.
Qed.

Lemma fold_insert_present (got : list (string * option string)) (id : string)
    (doc : option string) :
  forall d : gmap string (option string),
    NoDup (List.map fst got) -> (id, doc) ∈ got ->
    fold_left (fun d r => <[r.1 := r.2]> d) got d !! id = Some doc.
Proof.
  induction got as [|r got IH]; intros d Hnd Hin; cbn [fold_left].
  { by apply elem_of_nil in Hin. }
  cbn [List.map] in Hnd. apply NoDup_cons in Hnd as [Hr Hnd].
  apply elem_of_cons in Hin as [<-|Hin]; [|by apply IH].
  cbn [fst snd] in *. rewrite fold_insert_absent by done. by rewrite lookup_insert_eq.
Qed.

Lemma coll_get_elem (coll : list (string * option string)) (ids : list string)
    (r : string * option string) :
  r ∈ coll_get coll ids <-> r ∈ coll /\ r.1 ∈ ids.
Proof.
  unfold coll_get. rewrite filter_elem. by rewrite bool_decide_eq_true.
Qed.

Lemma coll_get_NoDup (coll : list (string * option string)) (ids : list string) :
  NoDup (List.map fst coll) -> NoDup (List.map fst (coll_get coll ids)).
Proof.
  unfold coll_get. induction coll as [|r coll IH]; cbn [List.map List.filter]; [done|].
  intros [Hr Hnd]%NoDup_cons. destruct (bool_decide _); [|by apply IH].
  cbn [List.map]. apply NoDup_cons. split; [|by apply IH].
  intros (x & Hx & [Hin _]%filter_elem)%list_elem_of_fmap. apply Hr.
  rewrite Hx. by apply list_elem_of_fmap_2.
Qed.

Lemma combine_map_self {A B : Type} (f : A -> B) (l : list A) :
  combine l (List.map f l) = List.map (fun i => (i, f i)) l.
Proof. induction l as [|x l IH]; [done|]. cbn. by rewrite IH. Qed.

(** X23: fetching the texts raises exactly when some id is selected and
    the vector store cannot be opened.  Otherwise the response has one
    document for each selected id, in the order of selection, with the
    provenance of the id; its snippet is the start of the stored text, at
    most 400 characters, and empty for an id that the vector store does
    not have. *)
Theorem retrieve_docs_cover (m : merge_result) (coll : list (string * option string)) :
  (fetch_docs_by_ids_node (final_ids m) None = None <-> final_ids m <> [])
  /\ exists docs,
       fetch_docs_by_ids_node (final_ids m) (Some coll) = Some docs
       /\ List.map rd_id (retrieve_docs m docs) = final_ids m
       /\ forall i id, final_ids m !! i = Some id ->
            exists d,
              retrieve_docs m docs !! i = Some d
              /\ rd_id d = id
              /\ String.length (rd_snippet d) <= 400
              /\ rd_provenance d = provenance m !! id
              /\ rd_provenance_extra d = provenance_extra m !! id
              /\ (id ∉ List.map fst coll -> rd_snippet d = "")
              /\ (NoDup (List.map fst coll) ->
                  forall doc, (id, doc) ∈ coll ->
                              rd_snippet d = Str.take 400 (default "" doc)).
Proof.
  split.
  { unfold fetch_docs_by_ids_node. by destruct (final_ids m). }
  set (lookup := fun i : string =>
         default (Some "")
           (fold_left (fun d r => <[r.1 := r.2]> d) (coll_get coll (final_ids m))
              (∅ : gmap string (option string)) !! i)).
  exists (List.map lookup (final_ids m)). split.
  { unfold fetch_docs_by_ids_node. by destruct (final_ids m). }
  unfold retrieve_docs.
  rewrite combine_map_self, !List.map_map. cbn [rd_id fst]. split; [apply List.map_id|].
  intros i id Hi. eexists. split.
  { change (List.map ?f ?l) with (f <$> l). rewrite list_lookup_fmap, Hi. reflexivity. }
  cbn [rd_id rd_snippet rd_provenance rd_provenance_extra fst snd].
  split; [done|]. split; [rewrite str_take_length; lia|]. split; [done|]. split; [done|].
  assert (Hid : id ∈ final_ids m) by (by eapply list_elem_of_lookup_2).
  split.
  - intros Hn. unfold lookup. rewrite fold_insert_absent; [by rewrite lookup_empty|].
    intros (r & -> & [Hr _]%coll_get_elem)%list_elem_of_fmap. apply Hn.
    by apply list_elem_of_fmap_2.
  - intros Hnd doc Hdoc. unfold lookup.
    rewrite (fold_insert_present _ id doc); [done|by apply coll_get_NoDup|].
    by apply coll_get_elem.
Qed.

Lemma retrieve_docs_cover_witness :
  let m := merge_ids_node (fusion_state 3) fusion_kg in
  let coll := [("c1", Some "first text"); ("c2", None)] in
  final_ids m <> []
  /\ fetch_docs_by_ids_node (final_ids m) None = None
  /\ exists docs,
       fetch_docs_by_ids_node (final_ids m) (Some coll) = Some docs
       /\ List.map rd_id (retrieve_docs m docs) = ["c3"; "c1"; "c2"].
Proof.
  cbv zeta.
  destruct (retrieve_docs_cover (merge_ids_node (fusion_state 3) fusion_kg)
              [("c1", Some "first text"); ("c2", None)]) as [H1 (docs & H2 & H3 & _)].
  assert (Hne : final_ids (merge_ids_node (fusion_state 3) fusion_kg) <> [])
    by (vm_compute; discriminate).
  split; [exact Hne|]. split; [by apply H1|].
  exists docs. split; [exact H2|]. rewrite H3. vm_compute. reflexivity.
Defined.

(** ** The entities of a record *)

Lemma overlaps_sym (a b c d : nat) : overlaps a b c d = overlaps c d a b.
Proof. unfold overlaps. by rewrite orb_comm. Qed.

Lemma spans_ok_add (ents_out : list ner_entity) (taken : list (nat * nat)) (e : ner_entity) :
  spans_ok ents_out taken ->
  existsb (fun t => overlaps (n_start e) (n_end e) t.1 t.2) taken = false ->
  Str.strip (n_text e) <> "" ->
  n_normalized e = normalize_legal_entity (n_text e) ->
  n_source e <> "" ->
  spans_ok (ents_out ++ [e]) (taken ++ [(n_start e, n_end e)]).
Proof.
  intros (Ht & Hd & He) Hex H1 H2 H3. split; [|split].
  - by rewrite List.map_app, Ht.
  - intros i j a b Hij Ha Hb.
    apply lookup_app_Some in Hb as [Hb|[Hl Hb]].
    + apply lookup_app_Some in Ha as [Ha|[Hl _]]; [by eapply Hd|].
      apply lookup_lt_Some in Hb. lia.
    + apply list_lookup_singleton_Some in Hb as [Hj <-].
      apply lookup_app_Some in Ha as [Ha|[Hl' _]]; [|lia].
      rewrite overlaps_sym. cbn [fst snd].
      assert (Hall : forall t, In t taken ->
                       overlaps (n_start e) (n_end e) t.1 t.2 = false).
      { intros t Hin. destruct (overlaps _ _ t.1 t.2) eqn:Ho; [|done].
        assert (existsb (fun t => overlaps (n_start e) (n_end e) t.1 t.2) taken = true);
          [|congruence].
        apply existsb_exists. by exists t. }
      apply Hall. by eapply list_elem_of_In, list_elem_of_lookup_2.
  - intros x [Hx| ->%list_elem_of_singleton]%elem_of_app; [by apply He|done].
Qed.

Lemma ner_loop_ok (original_text : string) (ents : list (string * nat * nat * option string)) :
  forall ents_out taken,
    spans_ok ents_out taken ->
    spans_ok (ner_loop original_text ents ents_out taken).1
             (ner_loop original_text ents ents_out taken).2.
Proof.
  induction ents as [|[[[label st] en] sv] ents IH]; intros out taken Hok; [done|].
  cbn [ner_loop]. cbv zeta.
  destruct (Str.is_empty (Str.strip (slice original_text st en))) eqn:Hb; [by apply IH|].
  destruct (existsb _ taken) eqn:Hex; [by apply IH|].
  apply IH.
  apply (spans_ok_add out taken
           (NerEntity (slice original_text st en) label st en None
              (normalize_legal_entity (slice original_text st en))
              (if truthy sv then default "" sv else "ner"))); try done.
  - cbn [n_text]. intros Hs. by rewrite Hs in Hb.
  - cbn [n_source]. destruct sv as [[|c s]|]; done.
Qed.

Lemma dict_get_in {V : Type} (d : list (string * V)) (key : string) (v : V) :
  dict_get d key = Some v -> exists k, In (k, v) d.
Proof.
  induction d as [|[k x] d IH]; cbn [dict_get]; [done|].
  destruct (String.eqb k key).
  - intros [= ->]. exists k. by left.
  - intros (k' & Hk)%IH. exists k'. by right.
Qed.

Lemma gazetteer_loop_ok (original_text : string) (matches : list (nat * nat)) :
  forall ents_out taken,
    spans_ok ents_out taken ->
    spans_ok (gazetteer_loop original_text matches ents_out taken).1
             (gazetteer_loop original_text matches ents_out taken).2.
Proof.
  induction matches as [|[st en] matches IH]; intros out taken Hok; [done|].
  cbn [gazetteer_loop]. cbv zeta.
  destruct (dict_get GAZETTEER _) as [[name label]|] eqn:Hg; [|by apply IH].
  destruct (existsb _ taken) eqn:Hex; [by apply IH|].
  apply IH.
  apply (spans_ok_add out taken
           (NerEntity name label st en (Some (Qmake 1 1))
              (normalize_legal_entity name) "dictionary")); try done.
  cbn [n_text]. apply dict_get_in in Hg as (k & Hk).
  repeat (destruct Hk as [[= <- <- <-]|Hk]; [by vm_compute|]). done.
Qed.

(** X24: the entities that the runner writes for a record have spans
    of which no two overlap, whatever the pipeline and the phrase
    matcher propose; each has a text that is not blank, so that the
    ingestion passes none of them over, the normal form of that text,
    and a source. *)
Theorem record_entities_disjoint (original_text : string)
    (ents : list (string * nat * nat * option string)) (matches : list (nat * nat)) :
  let out := record_entities original_text ents matches in
  (forall i j a b, i < j -> out !! i = Some a -> out !! j = Some b ->
     overlaps (n_start a) (n_end a) (n_start b) (n_end b) = false)
  /\ (forall e, e ∈ out ->
        Str.strip (n_text e) <> ""
        /\ n_normalized e = normalize_legal_entity (n_text e)
        /\ n_source e <> "").
Proof.
  cbv zeta. unfold record_entities.
  assert (H0 : spans_ok [] []).
  { split; [done|]. split; [by intros [] [] ? ? ? ?|]. by intros e ?%elem_of_nil. }
  pose proof (ner_loop_ok original_text ents [] [] H0) as H1.
  destruct (ner_loop original_text ents [] []) as [out1 taken1].
  pose proof (gazetteer_loop_ok original_text matches out1 taken1 H1) as (Ht & Hd & He).
  split; [|done]. intros i j a b Hij Ha Hb.
  apply (Hd i j (n_start a, n_end a) (n_start b, n_end b) Hij); rewrite Ht;
    change (List.map ?f ?l) with (f <$> l); rewrite list_lookup_fmap.
  - by rewrite Ha.
  - by rewrite Hb.
Qed.

Lemma record_entities_disjoint_witness :
  let out := record_entities "Rao cited s. 302 IPC"
               [("PERSON", 0, 3, None); ("PROVISION", 10, 16, Some "ruler");
                ("STATUTE", 13, 20, None)]
               [(17, 20)] in
  List.map n_text out = ["Rao"; "s. 302"; "Indian Penal Code, 1860"]
  /\ forall e, e ∈ out -> Str.strip (n_text e) <> "".
Proof.
  cbv zeta. split; [vm_compute; reflexivity|].
  intros e He.
  by destruct (record_entities_disjoint "Rao cited s. 302 IPC"
                 [("PERSON", 0, 3, None); ("PROVISION", 10, 16, Some "ruler");
                  ("STATUTE", 13, 20, None)] [(17, 20)]) as [_ H]; apply H in He as [? _].
Defined.

(** ** Names of several words *)

Lemma alpha_not_space (c : ascii) : Chr.is_alpha c = true -> Chr.is_space c = false.
Proof.
  intros Hc. apply negb_true_iff. revert Hc.
  apply (class_subset_spec (fun c => negb (Chr.is_space c)) Chr.is_alpha c). by vm_compute.
Qed.

Lemma space_not_alpha (c : ascii) : Chr.is_space c = true -> Chr.is_alpha c = false.
Proof.
  intros Hc. destruct (Chr.is_alpha c) eqn:Ha; [|done].
  apply alpha_not_space in Ha. congruence.
Qed.

Lemma space_not_word (c : ascii) : Chr.is_space c = true -> Chr.is_word c = false.
Proof.
  intros Hc. apply negb_true_iff. revert Hc.
  apply (class_subset_spec (fun c => negb (Chr.is_word c)) Chr.is_space c). by vm_compute.
Qed.

Lemma alpha_is_word (c : ascii) : Chr.is_alpha c = true -> Chr.is_word c = true.
Proof. apply (class_subset_spec Chr.is_word Chr.is_alpha c). by vm_compute. Qed.

Lemma letter_or_space_no_dot (c : ascii) : letter_or_space c = true -> Chr.lit "." c = false.
Proof.
  intros Hc. apply negb_true_iff. revert Hc.
  apply (class_subset_spec (fun c => negb (Chr.lit "." c)) letter_or_space c). by vm_compute.
Qed.

Lemma letter_or_space_no_edge (c : ascii) : Chr.is_alpha c = true -> edge_punct c = false.
Proof.
  intros Hc. apply negb_true_iff. revert Hc.
  apply (class_subset_spec (fun c => negb (edge_punct c)) Chr.is_alpha c). by vm_compute.
Qed.

Lemma spaces_head_not_alpha (t : string) :
  Str.forallb Chr.is_space t = true ->
  match t with EmptyString => True | String d _ => Chr.is_alpha d = false end.
Proof.
  destruct t as [|d t]; [done|]. cbn [Str.forallb].
  intros [Hd _]%andb_true_iff. by apply space_not_alpha.
Qed.

Lemma spaces_head_not_word (t : string) :
  Str.forallb Chr.is_space t = true -> is_word_opt (Str.head t) = false.
Proof.
  destruct t as [|d t]; [done|]. cbn [Str.forallb Str.head is_word_opt].
  intros [Hd _]%andb_true_iff. by apply space_not_word.
Qed.

Lemma trail_spaces (s : string) : Str.forallb Chr.is_space s = true -> trail s = s.
Proof. destruct s as [|c t]; [done|]. cbn [trail]. by intros ->. Qed.

Lemma trail_is_spaces (s : string) : Str.forallb Chr.is_space (trail s) = true.
Proof.
  induction s as [|c t IH]; [done|]. cbn [trail].
  by destruct (Str.forallb Chr.is_space (String c t)) eqn:He.
Qed.

Lemma trail_letter (c : ascii) (t : string) :
  Chr.is_alpha c = true -> trail (String c t) = trail t.
Proof.
  intros Hc. cbn [trail Str.forallb]. by rewrite (alpha_not_space c Hc).
Qed.

Lemma trail_lstrip (t : string) :
  Str.forallb Chr.is_space t = false -> trail (Str.lstrip Chr.is_space t) = trail t.
Proof.
  induction t as [|d t IH]; [done|]. intros Ht. cbn [Str.lstrip].
  destruct (Chr.is_space d) eqn:Hd; [|done].
  cbn [Str.forallb] in Ht. rewrite Hd in Ht. cbn [andb] in Ht.
  rewrite IH by done. cbn [trail Str.forallb]. by rewrite Hd, Ht.
Qed.

Lemma trail_length (s : string) : String.length (trail s) <= String.length s.
Proof.
  induction s as [|c t IH]; [done|]. cbn [trail]. destruct (Str.forallb _ _); [done|].
  cbn [String.length]. lia.
Qed.

Lemma str_skip_trail (s : string) :
  str_skip (String.length s - String.length (trail s)) s = trail s.
Proof.
  induction s as [|c t IH]; [done|]. cbn [trail].
  destruct (Str.forallb Chr.is_space (String c t)); [by rewrite Nat.sub_diag|].
  pose proof (trail_length t). cbn [String.length].
  replace (S (String.length t) - String.length (trail t))
    with (S (String.length t - String.length (trail t))) by lia.
  cbn [str_skip]. apply IH.
Qed.

Lemma filter_taken_trail (s : string) :
  Str.filter Chr.is_alpha (taken s (trail s)) = Str.filter Chr.is_alpha s.
Proof.
  induction s as [|c t IH]; [done|]. cbn [trail].
  destruct (Str.forallb Chr.is_space (String c t)) eqn:He.
  - unfold taken. rewrite Nat.sub_diag. cbn [Str.take].
    change (Str.filter Chr.is_alpha "") with "".
    symmetry. apply str_filter_none. unfold avoids.
    revert He. apply str_forallb_impl. intros d Hd. by rewrite space_not_alpha.
  - pose proof (trail_length t). unfold taken in *. cbn [String.length].
    replace (S (String.length t) - String.length (trail t))
      with (S (String.length t - String.length (trail t))) by lia.
    cbn [Str.take Str.filter]. by rewrite IH.
Qed.

Lemma lstrip_lang (t : string) :
  Str.forallb letter_or_space t = true -> Str.forallb Chr.is_space t = false ->
  exists c u, Str.lstrip Chr.is_space t = String c u /\ Chr.is_alpha c = true
              /\ Str.forallb letter_or_space u = true
              /\ String.length u < String.length t.
Proof.
  induction t as [|d t IH]; [done|]. cbn [Str.forallb Str.lstrip].
  intros [Hd Ht]%andb_true_iff Hs. destruct (Chr.is_space d) eqn:Hsd.
  - cbn [andb] in Hs. destruct (IH Ht Hs) as (c & u & -> & Hc & Hu & Hl).
    exists c, u. cbn [String.length]. repeat split; try done. lia.
  - exists d, t. unfold letter_or_space in Hd. rewrite Hsd, orb_false_r in Hd.
    cbn [String.length]. repeat split; try done. lia.
Qed.

(** Whitespace, greedy first. *)
Lemma star_ws_first {R : Type} (k : mstate -> option R) (x : R) (cs : list (nat * string)) :
  forall t n p,
    String.length t <= n ->
    k (MState (run_end Chr.is_space p t).1 (Str.lstrip Chr.is_space t) cs) = Some x ->
    exec (S n) (Star ws) (MState p t cs) k = Some x.
Proof.
  induction t as [|d t IH]; intros n p Hn Hk.
  - rewrite exec_Star. unfold ws. rewrite exec_Cls. cbn [rest]. exact Hk.
  - rewrite exec_Star. unfold ws. rewrite exec_Cls. cbn [rest caps].
    cbn [run_end Str.lstrip] in Hk. destruct (Chr.is_space d); [|exact Hk].
    unfold shorter. cbn [rest String.length].
    destruct (Nat.ltb_spec (String.length t) (S (String.length t))) as [_|?]; [|lia].
    cbn [String.length] in Hn. destruct n as [|n]; [lia|].
    fold ws. by rewrite (IH n (Some d)) by (done || lia).
Qed.

(** Whitespace to the end, with a continuation that fails after
    whitespace. *)
Lemma star_ws_back {R : Type} (k : mstate -> option R) (cs : list (nat * string)) :
  (forall q u, Chr.is_space q = true -> Str.forallb Chr.is_space u = true ->
               k (MState (Some q) u cs) = None) ->
  forall t n p,
    Str.forallb Chr.is_space t = true -> String.length t <= n ->
    exec (S n) (Star ws) (MState p t cs) k = k (MState p t cs).
Proof.
  intros Hk. induction t as [|d t IH]; intros n p Ht Hn.
  - rewrite exec_Star. unfold ws. by rewrite exec_Cls.
  - cbn [Str.forallb] in Ht. apply andb_true_iff in Ht as [Hd Ht].
    rewrite exec_Star. unfold ws. rewrite exec_Cls. cbn [rest caps]. rewrite Hd.
    unfold shorter. cbn [rest String.length].
    destruct (Nat.ltb_spec (String.length t) (S (String.length t))) as [_|?]; [|lia].
    cbn [String.length] in Hn. destruct n as [|n]; [lia|].
    fold ws. rewrite (IH n (Some d)) by (done || lia). by rewrite Hk.
Qed.

Lemma item_exec {R : Type} (k : mstate -> option R) n pr c t cs :
  Chr.is_alpha c = true -> Str.forallb letter_or_space t = true ->
  exec n initials_item (MState pr (String c t) cs) k
  = exec n (Star ws) (MState (Some c) t cs) k.
Proof.
  intros Hc Ht. unfold initials_item, alpha, Opt.
  rewrite exec_Seq, exec_Cls. cbn [rest caps]. rewrite Hc.
  rewrite exec_Seq, exec_Alt. cbn [Lit]. rewrite exec_Seq, exec_Cls. cbn [rest].
  destruct t as [|d t]; [by rewrite exec_Eps|].
  cbn [Str.forallb] in Ht. apply andb_true_iff in Ht as [Hd _].
  by rewrite (letter_or_space_no_dot d Hd), exec_Eps.
Qed.

Lemma item_fails {R : Type} (k : mstate -> option R) n pr t cs :
  Str.forallb Chr.is_space t = true ->
  exec n initials_item (MState pr t cs) k = None.
Proof.
  intros Ht%spaces_head_not_alpha. unfold initials_item, alpha.
  rewrite exec_Seq, exec_Cls. cbn [rest].
  destruct t as [|d t]; [done|]. by rewrite Ht.
Qed.

(** One round from a letter, when what follows the round runs to the
    last letter. *)
Lemma item_then (s0 : string) (k : mstate -> option rmatch) n pr c t cs :
  (forall p c' u, Chr.is_alpha c' = true -> Str.forallb letter_or_space u = true ->
                  String.length u < String.length t ->
                  k (MState p (String c' u) cs) = Some (RMatch (taken s0 (trail u)) cs)) ->
  (forall q u, Chr.is_space q = true -> Str.forallb Chr.is_space u = true ->
               k (MState (Some q) u cs) = None) ->
  Chr.is_alpha c = true -> Str.forallb letter_or_space t = true ->
  String.length t <= n ->
  exec (S n) initials_item (MState pr (String c t) cs) k
  = if Str.forallb Chr.is_space t then k (MState (Some c) t cs)
    else Some (RMatch (taken s0 (trail t)) cs).
Proof.
  intros Hletter Hspace Hc Ht Hn. rewrite item_exec by done.
  destruct (Str.forallb Chr.is_space t) eqn:Hsp.
  - by apply star_ws_back.
  - destruct (lstrip_lang t Ht Hsp) as (c' & u & Hl & Hc' & Hu & Hlen).
    apply star_ws_first; [done|]. rewrite Hl, Hletter by done.
    by rewrite <- (trail_letter c' u Hc'), <- Hl, trail_lstrip.
Qed.

(** The rounds after the second one, at the end of the letters. *)
Lemma rounds_at_end (s0 : string) n m pr t cs :
  Str.forallb Chr.is_space t = true ->
  exec (S n) (Star initials_item) (MState pr t cs)
    (fun e => exec m WordB e (fun e => Some (RMatch (taken s0 (rest e)) (caps e))))
  = if is_word_opt pr then Some (RMatch (taken s0 t) cs) else None.
Proof.
  intros Ht. rewrite exec_Star, item_fails by done.
  rewrite exec_WordB. cbn [prev rest caps]. rewrite (spaces_head_not_word t Ht).
  by destruct (is_word_opt pr).
Qed.

(** The rounds after the second one run to the last letter. *)
Lemma rounds_to_last_letter (s0 : string) m : forall len n pr c t cs,
  String.length t < len -> len < n ->
  Chr.is_alpha c = true -> Str.forallb letter_or_space t = true ->
  exec n (Star initials_item) (MState pr (String c t) cs)
    (fun e => exec m WordB e (fun e => Some (RMatch (taken s0 (rest e)) (caps e))))
  = Some (RMatch (taken s0 (trail t)) cs).
Proof.
  induction len as [|len IH]; intros n pr c t cs Hl Hn Hc Ht; [lia|].
  destruct n as [|n]; [lia|]. destruct n as [|n]; [lia|].
  rewrite exec_Star. rewrite (item_then s0); [| | |done|done|lia].
  - destruct (Str.forallb Chr.is_space t) eqn:Hsp; [|done].
    unfold shorter. cbn [rest String.length].
    destruct (Nat.ltb_spec (String.length t) (S (String.length t))) as [_|?]; [|lia].
    rewrite rounds_at_end by done. cbn [is_word_opt].
    by rewrite (alpha_is_word c Hc), trail_spaces.
  - intros p c' u Hc' Hu Hlu. unfold shorter. cbn [rest String.length].
    destruct (Nat.ltb_spec (S (String.length u)) (S (String.length t))) as [_|?]; [|lia].
    apply (IH (S n)); (done || lia).
  - intros q u Hq Hu. destruct (shorter _ _); [|done].
    rewrite rounds_at_end by done. cbn [is_word_opt]. by rewrite (space_not_word q Hq).
Qed.

(** A match of [initials_pat] from the first letter of a text of
    letters and whitespace runs to the last letter. *)
Lemma initials_match (pr : option ascii) (c : ascii) (t : string) :
  is_word_opt pr = false ->
  Chr.is_alpha c = true -> Str.forallb letter_or_space t = true ->
  match_at initials_pat pr (String c t)
  = if Str.forallb Chr.is_space t then None
    else Some (RMatch (taken (String c t) (trail t)) []).
Proof.
  intros Hpr Hc Ht. unfold match_at, initials_pat, AtLeast2.
  change (Seq alpha (Seq (Opt (Lit ".")) (Star ws))) with initials_item.
  rewrite exec_Seq, exec_WordB. cbn [prev rest Str.head is_word_opt].
  rewrite Hpr, (alpha_is_word c Hc). cbn [xorb].
  rewrite !exec_Seq. cbn [String.length].
  rewrite (item_then (String c t)); [| | |done|done|lia].
  - destruct (Str.forallb Chr.is_space t) eqn:Hsp; [|done].
    rewrite exec_Seq. by apply item_fails.
  - intros p c' u Hc' Hu Hlu. rewrite exec_Seq.
    rewrite (item_then (String c t)); [| | |done|done|lia].
    + destruct (Str.forallb Chr.is_space u) eqn:Hsp; [|done].
      rewrite rounds_at_end by done. cbn [is_word_opt].
      by rewrite (alpha_is_word c' Hc'), trail_spaces.
    + intros p' c'' v Hc'' Hv Hlv.
      apply (rounds_to_last_letter _ _ (S (String.length v))); (done || lia).
    + intros q v Hq Hv. rewrite rounds_at_end by done. cbn [is_word_opt].
      by rewrite (space_not_word q Hq).
  - intros q u Hq Hu. rewrite exec_Seq. by apply item_fails.
Qed.

Lemma initials_no_match (pr : option ascii) (d : ascii) (t : string) :
  Chr.is_alpha d = false -> match_at initials_pat pr (String d t) = None.
Proof.
  intros Hd. unfold match_at, initials_pat, AtLeast2, alpha.
  rewrite exec_Seq, exec_WordB. destruct (xorb _ _); [|done].
  rewrite !exec_Seq, exec_Cls. cbn [rest]. by rewrite Hd.
Qed.

Lemma initials_sub_spaces (repl : rmatch -> string) : forall s pr,
  Str.forallb Chr.is_space s = true -> sub_go initials_pat repl pr s 0 = s.
Proof.
  induction s as [|d t IH]; intros pr; [done|]. cbn [Str.forallb sub_go].
  intros [Hd Ht]%andb_true_iff. rewrite initials_no_match by (by apply space_not_alpha).
  by rewrite IH.
Qed.

Lemma sub_go_skip_to (r : re) (repl : rmatch -> string) : forall s k p,
  exists p', sub_go r repl p s k = sub_go r repl p' (str_skip k s) 0.
Proof.
  induction s as [|c t IH]; intros k p.
  - exists p. by destruct k.
  - destruct k as [|k]; [by exists p|]. cbn [sub_go str_skip]. apply IH.
Qed.

(** Collapsing the initials of a text of letters and whitespace leaves
    its letters, with whitespace before and after at most. *)
Lemma initials_sub_words : forall s pr,
  Str.forallb letter_or_space s = true -> is_word_opt pr = false ->
  exists A B,
    Str.forallb Chr.is_space A = true /\ Str.forallb Chr.is_space B = true /\
    sub_go initials_pat (fun m => Str.filter Chr.is_alpha (m_text m)) pr s 0
    = String.append A (String.append (Str.filter Chr.is_alpha s) B).
Proof.
  induction s as [|c t IH]; intros pr Hs Hpr.
  { by exists "", "". }
  cbn [Str.forallb] in Hs. apply andb_true_iff in Hs as [Hc Ht].
  destruct (Chr.is_alpha c) eqn:Ha.
  - exists "". cbn [sub_go Str.filter]. rewrite Ha, initials_match by done.
    destruct (Str.forallb Chr.is_space t) eqn:Hsp.
    + exists t. rewrite initials_sub_spaces by done. repeat split; try done.
      rewrite str_filter_none; [done|]. unfold avoids. revert Hsp.
      apply str_forallb_impl. intros d Hd. by rewrite space_not_alpha.
    + exists (trail t). pose proof (trail_length t) as Hl.
      cbn [m_text]. unfold taken at 1. rewrite str_take_length. cbn [String.length].
      replace (Nat.min (S (String.length t) - String.length (trail t)) (S (String.length t)))
        with (S (String.length t - String.length (trail t))) by lia.
      destruct (sub_go_skip_to initials_pat (fun m => Str.filter Chr.is_alpha (m_text m))
                  t (String.length t - String.length (trail t)) (Some c)) as [p' ->].
      rewrite str_skip_trail, initials_sub_spaces by apply trail_is_spaces.
      rewrite <- (trail_letter c t Ha), filter_taken_trail. cbn [Str.filter]. rewrite Ha.
      repeat split; try done. apply trail_is_spaces.
  - unfold letter_or_space in Hc. rewrite Ha in Hc. cbn [orb] in Hc.
    destruct (IH (Some c) Ht) as (A & B & HA & HB & Heq).
    { cbn [is_word_opt]. by apply space_not_word. }
    exists (String c A), B. cbn [sub_go Str.filter Str.forallb].
    rewrite Ha, Hc, initials_no_match, Heq by done. done.
Qed.

Lemma squeeze_spaces (s : string) : forall b,
  Str.forallb Chr.is_space s = true -> Str.forallb Chr.is_space (squeeze b s) = true.
Proof.
  induction s as [|c t IH]; intros b; [done|]. cbn [Str.forallb squeeze].
  intros [-> Ht]%andb_true_iff. destruct b; [by apply IH|].
  cbn [Str.forallb]. by rewrite IH.
Qed.

Lemma lstrip_squeeze (s : string) :
  Str.lstrip Chr.is_space (squeeze true s) = Str.lstrip Chr.is_space (squeeze false s).
Proof.
  destruct s as [|c t]; [done|]. cbn [squeeze]. by destruct (Chr.is_space c).
Qed.

Lemma lstrip_squeeze_spaces (A X : string) : forall b,
  Str.forallb Chr.is_space A = true ->
  Str.lstrip Chr.is_space (squeeze b (String.append A X))
  = Str.lstrip Chr.is_space (squeeze false X).
Proof.
  induction A as [|d A IH]; intros b.
  - intros _. cbn [String.append]. destruct b; [apply lstrip_squeeze|done].
  - cbn [Str.forallb]. intros [Hd HA]%andb_true_iff. rewrite sapp_cons. cbn [squeeze].
    rewrite Hd. destruct b; [by apply IH|]. cbn [Str.lstrip].
    change (Chr.is_space " ") with true. cbn match. by apply IH.
Qed.

Lemma rstrip_all (p : ascii -> bool) (x : string) :
  Str.forallb p x = true -> Str.rstrip p x = "".
Proof.
  induction x as [|c x IH]; [done|]. cbn [Str.forallb Str.rstrip].
  intros [-> Hx]%andb_true_iff. by rewrite IH.
Qed.

Lemma rstrip_squeeze_letters (L B : string) : forall b,
  Str.forallb Chr.is_alpha L = true -> Str.forallb Chr.is_space B = true ->
  Str.rstrip Chr.is_space (squeeze b (String.append L B)) = L.
Proof.
  induction L as [|c L IH]; intros b HL HB.
  - cbn [String.append]. apply rstrip_all. by apply squeeze_spaces.
  - cbn [Str.forallb] in HL. apply andb_true_iff in HL as [Hc HL].
    rewrite sapp_cons. cbn [squeeze]. rewrite (alpha_not_space c Hc).
    cbn [Str.rstrip]. rewrite (alpha_not_space c Hc), andb_false_r. by rewrite IH.
Qed.

Lemma strip_squeeze_words (A L B : string) :
  Str.forallb Chr.is_space A = true -> Str.forallb Chr.is_alpha L = true ->
  Str.forallb Chr.is_space B = true ->
  Str.strip (squeeze false (String.append A (String.append L B))) = L.
Proof.
  intros HA HL HB. unfold Str.strip, Str.strip_chars.
  rewrite lstrip_squeeze_spaces by done. destruct L as [|c L].
  - cbn [String.append]. rewrite lstrip_all by (by apply squeeze_spaces). done.
  - cbn [Str.forallb] in HL. apply andb_true_iff in HL as [Hc HL'].
    rewrite sapp_cons. cbn [squeeze]. rewrite (alpha_not_space c Hc).
    cbn [Str.lstrip]. rewrite (alpha_not_space c Hc).
    cbn [Str.rstrip]. rewrite (alpha_not_space c Hc), andb_false_r.
    by rewrite rstrip_squeeze_letters.
Qed.

Lemma filter_is_class (p : ascii -> bool) (s : string) :
  Str.forallb p (Str.filter p s) = true.
Proof.
  induction s as [|c t IH]; [done|]. cbn [Str.filter].
  destruct (p c) eqn:Hc; [|done]. cbn [Str.forallb]. by rewrite Hc.
Qed.

(** The key text of a text of letters and whitespace: its letters. *)
Lemma normalize_text_words (text : string) :
  Str.forallb letter_or_space text = true ->
  _normalize_text (Some text) = Str.lower (Str.filter Chr.is_alpha text).
Proof.
  intros Ht. unfold _normalize_text, nfkc, sub.
  change (default "" (Some text)) with text. cbv zeta.
  rewrite (sub_go_needs (Chr.lit ".") vs_pat); [|by vm_compute|].
  2: { unfold avoids. revert Ht. apply str_forallb_impl. intros c Hc.
       by rewrite letter_or_space_no_dot. }
  destruct (initials_sub_words text None Ht eq_refl) as (A & B & HA & HB & ->).
  rewrite sub_ws_squeeze, strip_squeeze_words by (done || apply filter_is_class).
  rewrite strip_chars_avoids; [done|]. unfold avoids.
  apply (str_forallb_impl Chr.is_alpha); [|apply filter_is_class].
  intros c Hc. by rewrite letter_or_space_no_edge.
Qed.

(** X29: the key text of a text made of letters and whitespace only is
    its letters in lower case, with all the whitespace removed: the
    words of a name are run together. *)
Theorem key_text_runs_words_together (text : string) :
  Str.forallb letter_or_space text = true ->
  _normalize_text (Some text) = Str.lower (Str.filter Chr.is_alpha text).
Proof. apply normalize_text_words. Qed.

Lemma key_text_runs_words_together_witness :
  Str.forallb letter_or_space "Supreme  Court " = true /\
  _normalize_text (Some "Supreme  Court ") = "supremecourt".
Proof.
  split; [reflexivity|]. apply (key_text_runs_words_together "Supreme  Court "). reflexivity.
Defined.

(** ** The entity key *)

Lemma upper_never_lower (x : string) : avoids Chr.is_lower (Str.upper x) = true.
Proof.
  induction x as [|c x IH]; [done|]. unfold avoids, Str.upper in *.
  cbn [Str.map Str.forallb]. rewrite IH, andb_true_r.
  apply (class_subset_spec (fun c => negb (Chr.is_lower (Chr.upper c)))
           (fun _ => true) c); [by vm_compute|done].
Qed.

Lemma space_upper (c : ascii) : Chr.is_space (Chr.upper c) = Chr.is_space c.
Proof.
  apply Bool.eqb_prop.
  apply (class_subset_spec (fun c => Bool.eqb (Chr.is_space (Chr.upper c)) (Chr.is_space c))
           (fun _ => true) c); [by vm_compute|done].
Qed.

Lemma strip_upper (x : string) : Str.strip (Str.upper x) = Str.upper (Str.strip x).
Proof.
  unfold Str.strip, Str.strip_chars.
  assert (Hl : forall y, Str.lstrip Chr.is_space (Str.upper y)
                         = Str.upper (Str.lstrip Chr.is_space y)).
  { induction y as [|c y IH]; [done|].
    change (Str.upper (String c y)) with (String (Chr.upper c) (Str.upper y)).
    cbn [Str.lstrip]. rewrite space_upper. by destruct (Chr.is_space c). }
  assert (Hr : forall y, Str.rstrip Chr.is_space (Str.upper y)
                         = Str.upper (Str.rstrip Chr.is_space y)).
  { induction y as [|c y IH]; [done|].
    change (Str.upper (String c y)) with (String (Chr.upper c) (Str.upper y)).
    cbn [Str.rstrip]. rewrite IH, space_upper.
    replace (Str.is_empty (Str.upper (Str.rstrip Chr.is_space y)))
      with (Str.is_empty (Str.rstrip Chr.is_space y))
      by (by destruct (Str.rstrip Chr.is_space y)).
    by destruct (_ && _). }
  by rewrite Hl, Hr.
Qed.

Lemma tidy_lstrip_class (p : ascii -> bool) (s : string) : forall b,
  tidy b s = true -> tidy false (Str.lstrip p s) = true.
Proof.
  induction s as [|c t IH]; intros b; [done|]. cbn [Str.lstrip].
  destruct (p c).
  - cbn [tidy]. destruct (Chr.is_space c).
    + intros [_ Ht]%andb_true_iff. by apply (IH true).
    + apply IH.
  - destruct b; [apply tidy_weaken|done].
Qed.

Lemma tidy_rstrip_class (p : ascii -> bool) (s : string) : forall b,
  tidy b s = true -> tidy b (Str.rstrip p s) = true.
Proof.
  induction s as [|c t IH]; intros b; [done|]. cbn [tidy Str.rstrip].
  destruct (Str.is_empty (Str.rstrip p t) && p c) eqn:He; [done|].
  cbn [tidy]. destruct (Chr.is_space c).
  - intros [H1 Ht]%andb_true_iff. rewrite H1. by apply IH.
  - by apply IH.
Qed.

Lemma tidy_lower (s : string) : forall b, tidy b (Str.lower s) = tidy b s.
Proof.
  induction s as [|c t IH]; intros b; [done|].
  change (Str.lower (String c t)) with (String (Chr.lower c) (Str.lower t)).
  cbn [tidy]. rewrite !IH, (caseless_spec Chr.is_space c) by (by vm_compute).
  by rewrite (caseless_spec (fun c => Ascii.eqb c " ") c) by (by vm_compute).
Qed.

(** The shape of a key text: no letter from A to Z, no whitespace but
    single spaces, and nothing that [str.strip] takes with the edge
    characters at either end. *)
Lemma normalize_text_shape (text : option string) :
  let T := _normalize_text text in
  avoids Chr.is_upper T = true
  /\ tidy false T = true
  /\ Str.strip_chars edge_punct T = T.
Proof.
  cbv zeta. unfold _normalize_text, Str.casefold. cbv zeta.
  set (x := sub initials_pat _ _).
  assert (Hq : sub ws_run (always " ") x = squeeze false x)
    by (unfold sub; apply sub_ws_squeeze).
  rewrite !Hq.
  split; [apply lower_never_upper|]. split.
  - rewrite tidy_lower. unfold Str.strip_chars at 1.
    apply tidy_rstrip_class, (tidy_lstrip_class _ _ false).
    apply tidy_rstrip, (tidy_lstrip _ false), squeeze_tidy.
  - rewrite strip_chars_lower by (by vm_compute). by rewrite strip_chars_strip_chars.
Qed.

(** C2, amended, for a label and a text of characters below 128: the
    key is the label, stripped and upper-cased (empty when absent), a
    bar, and the text passed through [_normalize_text], the key
    builder's own normalization.  The label part has no letter from a
    to z and no whitespace at its ends; the text part has no letter
    from A to Z, no whitespace but single spaces, and no edge
    punctuation at its ends; the key is the same for labels and texts
    that differ in letter case only; and for a text of letters and
    whitespace the text part is the letters in lower case, run
    together. *)
Theorem make_entity_key_spec (label text : option string) :
  Str.is_ascii (default "" label) = true ->
  Str.is_ascii (default "" text) = true ->
  let L := Str.upper (Str.strip (default "" label)) in
  let T := _normalize_text text in
  make_entity_key label text = String.append L (String.append "|" T)
  /\ (avoids Chr.is_lower L = true /\ Str.strip L = L)
  /\ (avoids Chr.is_upper T = true
      /\ tidy false T = true
      /\ Str.strip_chars edge_punct T = T)
  /\ (forall label' text',
        Str.is_ascii label' = true -> Str.is_ascii text' = true ->
        Str.lower label' = Str.lower (default "" label) ->
        Str.lower text' = Str.lower (default "" text) ->
        make_entity_key (Some label') (Some text') = make_entity_key label text)
  /\ (Str.forallb letter_or_space (default "" text) = true ->
      T = Str.lower (Str.filter Chr.is_alpha (default "" text))).
Proof.
  intros _ _. cbv zeta. split; [reflexivity|]. split; [|split; [|split]].
  - split; [apply upper_never_lower|].
    rewrite strip_upper. unfold Str.strip. by rewrite strip_chars_strip_chars.
  - apply normalize_text_shape.
  - intros label' text' _ _ Hl Ht.
    change (make_entity_key label text)
      with (make_entity_key (Some (default "" label)) (Some (default "" text))).
    by apply entity_key_caseless.
  - intros Hw.
    change (_normalize_text text) with (_normalize_text (Some (default "" text))).
    by apply normalize_text_words.
Qed.

Lemma make_entity_key_spec_witness :
  Str.is_ascii (default "" (Some " org ")) = true
  /\ Str.is_ascii (default "" (Some "The  Court")) = true
  /\ make_entity_key (Some " org ") (Some "The  Court") = "ORG|thecourt"
  /\ make_entity_key (Some " ORG ") (Some "the  court")
     = make_entity_key (Some " org ") (Some "The  Court").
Proof.
  split; [reflexivity|]. split; [reflexivity|].
  destruct (make_entity_key_spec (Some " org ") (Some "The  Court") eq_refl eq_refl)
    as (Hk & _ & _ & Hc & Hw).
  split.
  - rewrite Hk, (Hw eq_refl). reflexivity.
  - apply Hc; reflexivity.
Defined.
